(** * dumbcli: record addressing, placeholder substitution and store consistency

    A shallow embedding of the current command line tool of the repository
    (the ES-module version with ids and aliases) and the proofs of the
    properties its specification states about it.

    Modelling conventions.
    - JavaScript strings are [string]s of 8-bit characters; [toLowerCase],
      [trim] and the regular expression class [\s] act on the ASCII range.
    - Numbers that the program uses as record ids and counters are [Z];
      this is exact for the integers a JavaScript number holds exactly.
    - [false] used as "no alias" / "no comment" is [None]; a present string
      may still be empty, and is then falsy exactly as in the source.
    - Console output is a list of structured messages.
    - [JSON.parse] and [JSON.stringify] are library functions: they are
      parameters of the development (class [JsonCodec]). *)

From Stdlib Require Import String Ascii List ZArith NArith Lia Bool Arith.
From Stdlib Require Import DecimalString Decimal DecimalPos Permutation Sorted.
Import ListNotations.

Open Scope string_scope.
Open Scope list_scope.
Open Scope Z_scope.

(* ================================================================= *)
(** ** JavaScript string primitives *)

(** Truthiness of a string: only the empty string is falsy. *)
Definition truthy (s : string) : bool :=
  match s with
  | EmptyString => false
  | String _ _ => true
  end.

(** Truthiness of a field that holds a string or [false]. *)
Definition truthy_opt (o : option string) : bool :=
  match o with
  | None => false
  | Some s => truthy s
  end.

(** [x || false] on a field that holds a string or [false]. *)
Definition or_false (o : option string) : option string :=
  if truthy_opt o then o else None.

(** White space in the sense of [String.prototype.trim] and of [\s]
    (ASCII range): TAB, LF, VT, FF, CR and SPACE. *)
Definition is_ws (c : ascii) : bool :=
  let n := N_of_ascii c in
  (((9 <=? n) && (n <=? 13)) || (n =? 32))%N.

Fixpoint trimStart (s : string) : string :=
  match s with
  | EmptyString => EmptyString
  | String c s' => if is_ws c then trimStart s' else s
  end.

Fixpoint trimEnd (s : string) : string :=
  match s with
  | EmptyString => EmptyString
  | String c s' =>
      match trimEnd s' with
      | EmptyString => if is_ws c then EmptyString else String c EmptyString
      | t => String c t
      end
  end.

Definition trim (s : string) : string := trimEnd (trimStart s).

(** [String.prototype.toLowerCase], ASCII range. *)
Definition lower_char (c : ascii) : ascii :=
  let n := N_of_ascii c in
  if ((65 <=? n) && (n <=? 90))%N then ascii_of_N (n + 32) else c.

Fixpoint toLowerCase (s : string) : string :=
  match s with
  | EmptyString => EmptyString
  | String c s' => String (lower_char c) (toLowerCase s')
  end.

(** The value of a decimal digit, if the character is one. *)
Definition digit_of (c : ascii) : option Z :=
  let n := N_of_ascii c in
  if ((48 <=? n) && (n <=? 57))%N then Some (Z.of_N (n - 48)) else None.

(** The longest prefix of decimal digits of [s], read with accumulator
    [acc]; [seen] tells whether a digit has been read already. *)
Fixpoint parse_digits (s : string) (seen : bool) (acc : Z) : option Z :=
  match s with
  | EmptyString => if seen then Some acc else None
  | String c s' =>
      match digit_of c with
      | Some d => parse_digits s' true (10 * acc + d)
      | None => if seen then Some acc else None
      end
  end.

(** [parseInt(s, 10)]: leading white space is skipped, one sign is
    accepted, then the longest prefix of digits is read; [None] is NaN.
    The result is the number the digits spell, which is what JavaScript
    returns as long as that number is at most [2 ^ 53]. *)
Definition parseInt (s : string) : option Z :=
  match trimStart s with
  | String "-" s' => option_map Z.opp (parse_digits s' false 0)
  | String "+" s' => parse_digits s' false 0
  | s' => parse_digits s' false 0
  end.

(** [/\s|:/.test(s)]: some character is white space or a colon. *)
Fixpoint has_space_or_colon (s : string) : bool :=
  match s with
  | EmptyString => false
  | String c s' => is_ws c || Ascii.eqb c ":" || has_space_or_colon s'
  end.

(** [s.startsWith(p)], returning what follows the prefix. *)
Fixpoint strip_prefix (p s : string) : option string :=
  match p, s with
  | EmptyString, _ => Some s
  | String a p', String b s' => if Ascii.eqb a b then strip_prefix p' s' else None
  | String _ _, EmptyString => None
  end.

(** The first occurrence of [pat] in [s]: the text before it and the text
    after it ([s.indexOf(pat)] with both sides cut out). *)
Fixpoint split_first (pat s : string) : option (string * string) :=
  match strip_prefix pat s with
  | Some post => Some (EmptyString, post)
  | None =>
      match s with
      | EmptyString => None
      | String c s' =>
          match split_first pat s' with
          | Some (pre, post) => Some (String c pre, post)
          | None => None
          end
      end
  end.

(** [s.includes(pat)]. *)
Definition includes (s pat : string) : bool :=
  match split_first pat s with
  | Some _ => true
  | None => false
  end.

(** The replacement text of [String.prototype.replace] for a string
    pattern (GetSubstitution without captures): [$$] is a dollar sign,
    [$&] the matched text, [$`] the text before the match, [$'] the text
    after it; any other character, a lone [$] included, stands for itself. *)
Fixpoint GetSubstitution (matched before after repl : string) : string :=
  match repl with
  | String "$" (String "$" r) => String "$" (GetSubstitution matched before after r)
  | String "$" (String "&" r) => matched ++ GetSubstitution matched before after r
  | String "$" (String "`" r) => before ++ GetSubstitution matched before after r
  | String "$" (String "'" r) => after ++ GetSubstitution matched before after r
  | String c r => String c (GetSubstitution matched before after r)
  | EmptyString => EmptyString
  end.

(** [s.replace(pat, repl)] for a string pattern: the first occurrence only. *)
Definition replace (s pat repl : string) : string :=
  match split_first pat s with
  | Some (pre, post) => pre ++ GetSubstitution pat pre post repl ++ post
  | None => s
  end.

(** [(s.match(/{}/g) || []).length]: the matches of the global regular
    expression, found left to right without overlap. *)
Fixpoint placeholderCount (s : string) : nat :=
  match s with
  | String "{" (String "}" rest) => S (placeholderCount rest)
  | String _ s' => placeholderCount s'
  | EmptyString => O
  end.

(** [String(n)] for an integer. *)
Definition String_of_Z (z : Z) : string := NilZero.string_of_int (Z.to_int z).

(** [args.join(sep)]. *)
Fixpoint join (sep : string) (l : list string) : string :=
  match l with
  | [] => EmptyString
  | [a] => a
  | a :: rest => a ++ sep ++ join sep rest
  end.

(* ================================================================= *)
(** ** Data model *)

(** A command record as the program holds it in memory after
    [readCommands]: [{ id, alias, command, comment }]. *)
Record Command : Type := mkCommand {
  id : Z;
  alias : option string;
  command : string;
  comment : option string
}.

(** A text field of a JSON object as found in a file: missing (or
    [null]), the literal [false], or a string, possibly empty.  Fields
    holding other values are outside the model. *)
Inductive Field : Type :=
| Missing
| FalseLit
| Text (s : string).

(** An element of a JSON array of records as found in a file; the numeric
    id may be missing ([None]). *)
Record RawCmd : Type := mkRaw {
  raw_id : option Z;
  raw_alias : Field;
  raw_command : Field;
  raw_comment : Field
}.

(** [field || false]. *)
Definition field_or_false (f : Field) : option string :=
  match f with
  | Text s => or_false (Some s)
  | _ => None
  end.

(** A field of a record in memory, a string or [false], as JSON. *)
Definition toField (o : option string) : Field :=
  match o with
  | Some s => Text s
  | None => FalseLit
  end.

(** The JSON documents the program reads and writes: an array whose
    elements are objects or [null], the counter object [{ nextId }], or
    any other value. *)
Inductive Json : Type :=
| JArray (elems : list (option RawCmd))
| JConfig (nextId : Z)
| JOther.

(** The interface of the JSON library.  [JSON_parse] returns [None] where
    [JSON.parse] throws a [SyntaxError]. *)
Class JsonCodec : Type := {
  JSON_parse : string -> option Json;
  JSON_stringify : Json -> string
}.

(** What the program relies on: a document it writes with
    [JSON.stringify], an array of records or a counter object, is read
    back by [JSON.parse], and is not blank. *)
Class JsonCodecLaws (C : JsonCodec) : Prop := {
  parse_stringify :
    forall j, j <> JOther -> JSON_parse (JSON_stringify j) = Some j;
  stringify_not_blank : forall j, trim (JSON_stringify j) <> EmptyString
}.

(** A text cut short is not a document: no proper prefix of the text
    written for an array of records is read back as an array.  The text
    of [JSON.stringify] for an array starts with an opening bracket that
    only its last character closes. *)
Class JsonPrefixLaws (C : JsonCodec) : Prop := {
  parse_cut_short :
    forall elems written elems',
      (written < String.length (JSON_stringify (JArray elems)))%nat ->
      JSON_parse (substring 0 written (JSON_stringify (JArray elems)))
      <> Some (JArray elems')
}.

(** Console output, one constructor per message of the source; the
    arguments are the values interpolated into the message.
    [UncaughtTypeError] is not printed by the program: it marks the point
    where an exception that nothing catches ends the operation. *)
Inductive Msg : Type :=
| ErrConfigRead
| ErrConfigWrite
| ErrNotArray
| WarnReturningEmpty
| ErrCorruptJson
| ErrReadCommands
| WarnReturningEmptyDueToError
| ErrWriteCommands
| AddCanceled
| ErrAliasConflict (a : string)
| AddSuccess (newId : Z) (a : option string)
| ErrNoSpecifier
| ErrNotFound (specifier : string)
| DeleteSuccess (i : Z)
| DeleteCanceled
| EditHeader (c : Command)
| EditCanceled
| EditSuccess (i : Z)
| NoChanges
| UncaughtTypeError
| ErrInsufficientArguments (required provided : nat)
| WarnExtraArguments (provided placeholders : nat)
| WarnArgumentsIgnored (joined : string)
| RunCanceled
| Running (i : Z) (a : option string) (finalCommand : string)
| Finished (i : Z)
| Failed (i : Z)
| ExitCode (status : Z)
| ErrImportFile
| NoValidCommands
| ErrImportParse
| FoundPotential (n : nat)
| Appending
| WarnAliasSkipped (a : string) (commandText : string)
| WarnAliasDuplicated (a : string) (commandText : string)
| AppendSuccess (n : nat)
| TotalNow (n : nat)
| OverwriteCanceled
| Replacing
| ImportSuccess (n : nat).

(* ================================================================= *)
(** ** Identifier resolver *)

(** [!isNaN(idSearch) && cmd.id === idSearch]. *)
Definition id_matches (idSearch : option Z) (cmd : Command) : bool :=
  match idSearch with
  | Some n => Z.eqb (id cmd) n
  | None => false
  end.

(** [cmd.alias && cmd.alias.toLowerCase() === searchLower]. *)
Definition alias_matches (searchLower : string) (cmd : Command) : bool :=
  match alias cmd with
  | Some a => truthy a && String.eqb (toLowerCase a) searchLower
  | None => false
  end.

(** The [for] loop of [findCommandByIdOrAlias], from index [i] on. *)
Fixpoint find_from (idSearch : option Z) (searchLower : string) (i : nat)
    (commands : list Command) : option (Command * nat) :=
  match commands with
  | [] => None
  | cmd :: rest =>
      if id_matches idSearch cmd then Some (cmd, i)
      else if alias_matches searchLower cmd then Some (cmd, i)
      else find_from idSearch searchLower (S i) rest
  end.

(** [findCommandByIdOrAlias(specifier, commands)]: the record and its
    index, or [None] for [null]. *)
Definition findCommandByIdOrAlias (specifier : string) (commands : list Command)
    : option (Command * nat) :=
  let searchLower := toLowerCase specifier in
  let idSearch := parseInt specifier in
  find_from idSearch searchLower 0 commands.

(** [isAliasUnique(alias, commands, excludeId = null)].  The alias is a
    string or absent; [excludeId = None] is [null], which no id equals. *)
Definition isAliasUnique (a : option string) (commands : list Command)
    (excludeId : option Z) : bool :=
  match a with
  | None => true
  | Some a =>
      if negb (truthy a) then true
      else
        let aliasLower := toLowerCase a in
        negb (existsb (fun cmd =>
                match alias cmd with
                | Some ca =>
                    truthy ca && String.eqb (toLowerCase ca) aliasLower
                    && negb (match excludeId with
                             | Some e => Z.eqb (id cmd) e
                             | None => false
                             end)
                | None => false
                end) commands)
  end.

(* ================================================================= *)
(** ** Invocation engine *)

(** The [while] loop of [handleRunCommand]: as long as the command text
    includes a placeholder and an argument is left, the first placeholder
    is replaced by the next argument. *)
Fixpoint substituteLoop (commandString : string) (runtimeArgs : list string)
    : string :=
  match runtimeArgs with
  | [] => commandString
  | arg :: rest =>
      if includes commandString "{}"
      then substituteLoop (replace commandString "{}" arg) rest
      else commandString
  end.

(** The outcome of the placeholder block of [handleRunCommand]. *)
Inductive Prepared : Type :=
| Rejected (m : Msg)
| Ready (commandString : string) (warnings : list Msg).

(** The block "Dynamic Placeholder Handling" of [handleRunCommand]. *)
Definition handlePlaceholders (commandString : string)
    (runtimeArgs : list string) : Prepared :=
  let count := placeholderCount commandString in
  if (0 <? count)%nat then
    if (length runtimeArgs <? count)%nat
    then Rejected (ErrInsufficientArguments count (length runtimeArgs))
    else
      Ready (substituteLoop commandString runtimeArgs)
            (if (count <? length runtimeArgs)%nat
             then [WarnExtraArguments (length runtimeArgs) count]
             else [])
  else if (0 <? length runtimeArgs)%nat
  then Ready commandString [WarnArgumentsIgnored (join " " runtimeArgs)]
  else Ready commandString [].

(** [commandString.replace(/^~(?=$|\/|\\)/, os.homedir())]: a tilde that
    starts the text and is followed by its end, a slash or a backslash. *)
Definition expandTilde (homedir commandString : string) : string :=
  match commandString with
  | String "~" rest =>
      match rest with
      | EmptyString | String "/" _ | String "\" _ =>
          GetSubstitution "~" EmptyString rest homedir ++ rest
      | _ => commandString
      end
  | _ => commandString
  end.

(** What the process execution facility reports. *)
Inductive ExecOutcome : Type :=
| ExecOk
| ExecThrows (status : option Z).

(** What [handleRunCommand] does besides reading the store. *)
Inductive Event : Type :=
| Say (m : Msg)
| AskRun (i : Z) (finalCommand : string)
| Exec (finalCommand : string).

(** [handleRunCommand] once the records are read: [confirm] is the answer
    to the prompt, [outcome] what [execSync] does if it is called. *)
Definition runCommand (homedir : string) (commands : list Command)
    (specifier : string) (runtimeArgs : list string)
    (confirm : bool) (outcome : ExecOutcome) : list Event :=
  if negb (truthy specifier) then [Say ErrNoSpecifier]
  else
    match findCommandByIdOrAlias specifier commands with
    | None => [Say (ErrNotFound specifier)]
    | Some (cmdToRun, _) =>
        match handlePlaceholders (command cmdToRun) runtimeArgs with
        | Rejected m => [Say m]
        | Ready commandString warnings =>
            let finalCommand := expandTilde homedir commandString in
            map Say warnings ++
            AskRun (id cmdToRun) finalCommand ::
            (if negb confirm then [Say RunCanceled]
             else
               Say (Running (id cmdToRun) (or_false (alias cmdToRun)) finalCommand) ::
               Exec finalCommand ::
               match outcome with
               | ExecOk => [Say (Finished (id cmdToRun))]
               | ExecThrows status =>
                   Say (Failed (id cmdToRun)) ::
                   match status with
                   | Some n => [Say (ExitCode n)]
                   | None => []
                   end
               end)
        end
    end.

(* ================================================================= *)
(** ** Record store *)

(** The two files of the configuration directory, each absent or holding
    a text.  The directory itself always exists in the model. *)
Record Disk : Type := mkDisk {
  commandsFile : option string;
  configFile : option string
}.

(** How a call of [fs.writeFileSync] can end: it completes; it throws
    before the file is opened (the file is as it was); or it throws after
    the file was opened for writing, which truncates it, with only the
    first [written] characters of the data stored. *)
Inductive WriteFault : Type :=
| NoFault
| FailsBeforeOpen
| FailsAfter (written : nat).

(** The faults met by the writes of one operation: every operation writes
    each file at most once. *)
Record Faults : Type := mkFaults {
  onConfigWrite : WriteFault;
  onCommandsWrite : WriteFault
}.

Definition noFaults : Faults := mkFaults NoFault NoFault.

(** [fs.writeFileSync(file, data)] under a fault: the new state of the
    file and whether the call threw. *)
Definition writeFileSync (f : WriteFault) (old : option string) (data : string)
    : option string * bool :=
  match f with
  | NoFault => (Some data, false)
  | FailsBeforeOpen => (old, true)
  | FailsAfter written => (Some (substring 0 written data), true)
  end.

(** [cmd.id || index + 1]. *)
Definition id_or_index (i : option Z) (index : nat) : Z :=
  match i with
  | Some n => if Z.eqb n 0 then Z.of_nat index + 1 else n
  | None => Z.of_nat index + 1
  end.

(** [cmd.command || 'INVALID_COMMAND']. *)
Definition command_or_invalid (c : Field) : string :=
  match field_or_false c with
  | Some s => s
  | None => "INVALID_COMMAND"
  end.

(** The callback of [commands.map] in [readCommands]. *)
Definition withDefaults (cmd : RawCmd) (index : nat) : Command :=
  {| id := id_or_index (raw_id cmd) index;
     alias := field_or_false (raw_alias cmd);
     command := command_or_invalid (raw_command cmd);
     comment := field_or_false (raw_comment cmd) |}.

(** [commands.map((cmd, index) => ...)] from [index] on; [None] where the
    callback throws a [TypeError] because an element is [null]. *)
Fixpoint mapWithDefaults (elems : list (option RawCmd)) (index : nat)
    : option (list Command) :=
  match elems with
  | [] => Some []
  | None :: _ => None
  | Some cmd :: rest =>
      match mapWithDefaults rest (S index) with
      | Some l => Some (withDefaults cmd index :: l)
      | None => None
      end
  end.

(** The record as [JSON.stringify] sees it. *)
Definition toRaw (c : Command) : RawCmd :=
  {| raw_id := Some (id c);
     raw_alias := toField (alias c);
     raw_command := Text (command c);
     raw_comment := toField (comment c) |}.

(** [commands.sort((a, b) => a.id - b.id)]: a stable sort by id. *)
Fixpoint insertById (c : Command) (l : list Command) : list Command :=
  match l with
  | [] => [c]
  | x :: rest => if Z.leb (id c) (id x) then c :: l else x :: insertById c rest
  end.

Fixpoint sortById (l : list Command) : list Command :=
  match l with
  | [] => []
  | c :: rest => insertById c (sortById rest)
  end.

Section Store.

Context {codec : JsonCodec}.

(** [readConfig()]: the [nextId] of the object read and what is printed.
    [None] stands for a document without an integer [nextId]: what the
    source computes from it is outside the model. *)
Definition readConfig (d : Disk) : option Z * list Msg :=
  match configFile d with
  | None => (Some 1, [])
  | Some data =>
      match JSON_parse data with
      | Some (JConfig n) => (Some n, [])
      | Some _ => (None, [])
      | None => (Some 1, [ErrConfigRead])
      end
  end.

(** [writeConfig({ nextId })]. *)
Definition writeConfig (fw : Faults) (nextId : Z) (d : Disk) : Disk * list Msg :=
  let '(file, threw) :=
    writeFileSync (onConfigWrite fw) (configFile d) (JSON_stringify (JConfig nextId)) in
  ({| commandsFile := commandsFile d; configFile := file |},
   if threw then [ErrConfigWrite] else []).

(** [readCommands()]. *)
Definition readCommands (d : Disk) : list Command * list Msg :=
  match commandsFile d with
  | None => ([], [])
  | Some fileContent =>
      if negb (truthy (trim fileContent)) then ([], [])
      else
        match JSON_parse fileContent with
        | Some (JArray elems) =>
            match mapWithDefaults elems 0 with
            | Some commands => (commands, [])
            | None => ([], [ErrReadCommands; WarnReturningEmptyDueToError])
            end
        | Some _ => ([], [ErrNotArray; WarnReturningEmpty])
        | None => ([], [ErrCorruptJson; WarnReturningEmptyDueToError])
        end
  end.

(** [writeCommands(commands)]. *)
Definition writeCommands (fw : Faults) (commands : list Command) (d : Disk)
    : Disk * list Msg :=
  let sortedCommands := sortById commands in
  let '(file, threw) :=
    writeFileSync (onCommandsWrite fw) (commandsFile d)
      (JSON_stringify (JArray (map (fun c => Some (toRaw c)) sortedCommands))) in
  ({| commandsFile := file; configFile := configFile d |},
   if threw then [ErrWriteCommands] else []).

(** [getNextId()]: the id issued, the disk with the counter advanced, and
    what is printed.  Adding one is exact, as in JavaScript for a counter
    below [2 ^ 53]. *)
Definition getNextId (fw : Faults) (d : Disk) : option (Z * Disk * list Msg) :=
  match readConfig d with
  | (Some nextId, m1) =>
      let '(d', m2) := writeConfig fw (nextId + 1) d in
      Some (nextId, d', m1 ++ m2)
  | (None, _) => None
  end.

End Store.

(* ================================================================= *)
(** ** Record lifecycle manager *)

(** The answers collected by [prompts] in [handleAddCommand]; a field is
    [None] when the user aborted before answering it. *)
Record AddResponse : Type := mkAddResponse {
  resp_command : option string;
  resp_alias : option string;
  resp_comment : option string
}.

(** The validator of the command prompt: [value.trim() ? true : ...]. *)
Definition validateCommand (value : string) : bool := truthy (trim value).

(** The validator of the alias prompt of [handleAddCommand]. *)
Definition validateAlias (commands : list Command) (value : string) : bool :=
  if negb (truthy value) then true
  else if has_space_or_colon value then false
  else isAliasUnique (Some (trim value)) commands None.

(** The answers collected by [prompts] in [handleEditCommand]. *)
Record EditResponse : Type := mkEditResponse {
  newCommand : option string;
  newAlias : option string;
  newComment : option string
}.

(** [field || ''] on a field that holds a string or [false]. *)
Definition or_empty (o : option string) : string :=
  match or_false o with
  | Some s => s
  | None => EmptyString
  end.

(** [field !== false]. *)
Definition not_false (o : option string) : bool :=
  match o with
  | Some _ => true
  | None => false
  end.

(** The update of the alias, and of the comment, in [handleEditCommand]:
    the new value of the field and whether it counts as a change. *)
Definition editField (current : option string) (input : string)
    : option string * bool :=
  if String.eqb input " " then
    if not_false current then (None, true) else (current, false)
  else if truthy (trim input) && negb (String.eqb (trim input) (or_empty current))
  then (Some (trim input), true)
  else (current, false).

(** [commands[index] = c]. *)
Fixpoint set_nth (index : nat) (c : Command) (l : list Command) : list Command :=
  match l, index with
  | [], _ => []
  | _ :: rest, O => c :: rest
  | x :: rest, S i => x :: set_nth i c rest
  end.

(** [commands.splice(index, 1)]. *)
Fixpoint remove_nth (index : nat) (l : list Command) : list Command :=
  match l, index with
  | [], _ => []
  | _ :: rest, O => rest
  | x :: rest, S i => x :: remove_nth i rest
  end.

Section Lifecycle.

Context {codec : JsonCodec}.

(** [handleAddCommand], given the answers of the user.  The result is
    [None] only where [getNextId] is outside the model. *)
Definition handleAddCommand (fw : Faults) (response : AddResponse) (d : Disk)
    : option (Disk * list Msg) :=
  let '(commands, m0) := readCommands d in
  if negb (truthy_opt (resp_command response)) then Some (d, m0 ++ [AddCanceled])
  else
    match getNextId fw d with
    | None => None
    | Some (newId, d1, m1) =>
        let alias := or_false (option_map trim (resp_alias response)) in
        let comment := or_false (option_map trim (resp_comment response)) in
        if truthy_opt alias && negb (isAliasUnique alias commands None)
        then Some (d1, m0 ++ m1 ++ [ErrAliasConflict (or_empty alias)])
        else
          let commands' :=
            commands ++
            [ {| id := newId;
                 command := trim (or_empty (resp_command response));
                 alias := alias;
                 comment := comment |} ] in
          let '(d2, m2) := writeCommands fw commands' d1 in
          Some (d2, m0 ++ m1 ++ m2 ++ [AddSuccess newId alias])
    end.

(** [handleDeleteCommand], given the answer to the confirmation. *)
Definition handleDeleteCommand (fw : Faults) (specifier : string)
    (confirm : bool) (d : Disk) : Disk * list Msg :=
  if negb (truthy specifier) then (d, [ErrNoSpecifier])
  else
    let '(commands, m0) := readCommands d in
    match findCommandByIdOrAlias specifier commands with
    | None => (d, m0 ++ [ErrNotFound specifier])
    | Some (cmdToDelete, internalIndex) =>
        if confirm then
          let '(d', m1) := writeCommands fw (remove_nth internalIndex commands) d in
          (d', m0 ++ m1 ++ [DeleteSuccess (id cmdToDelete)])
        else (d, m0 ++ [DeleteCanceled])
    end.

(** [handleEditCommand], given the answers of the user.  An aborted alias
    or comment prompt leaves [undefined] in the response, on which the
    source calls [trim]: the [TypeError] ends the operation before
    anything is written. *)
Definition handleEditCommand (fw : Faults) (specifier : string)
    (response : EditResponse) (d : Disk) : Disk * list Msg :=
  if negb (truthy specifier) then (d, [ErrNoSpecifier])
  else
    let '(commands, m0) := readCommands d in
    match findCommandByIdOrAlias specifier commands with
    | None => (d, m0 ++ [ErrNotFound specifier])
    | Some (cmdToEdit, internalIndex) =>
        match newCommand response with
        | None => (d, m0 ++ [EditHeader cmdToEdit; EditCanceled])
        | Some entered =>
            match newAlias response, newComment response with
            | Some updatedAliasInput, Some updatedCommentInput =>
                let updatedCommand := trim entered in
                let changed1 :=
                  truthy updatedCommand
                  && negb (String.eqb updatedCommand (command cmdToEdit)) in
                let '(finalAlias, changed2) :=
                  editField (alias cmdToEdit) updatedAliasInput in
                let '(finalComment, changed3) :=
                  editField (comment cmdToEdit) updatedCommentInput in
                let edited :=
                  {| id := id cmdToEdit;
                     command := if changed1 then updatedCommand else command cmdToEdit;
                     alias := finalAlias;
                     comment := finalComment |} in
                let commands' := set_nth internalIndex edited commands in
                if changed1 || changed2 || changed3 then
                  if truthy_opt finalAlias
                     && negb (isAliasUnique finalAlias commands' (Some (id cmdToEdit)))
                  then (d, m0 ++ [EditHeader cmdToEdit; ErrAliasConflict (or_empty finalAlias)])
                  else
                    let '(d', m1) := writeCommands fw commands' d in
                    (d', m0 ++ [EditHeader cmdToEdit] ++ m1 ++ [EditSuccess (id cmdToEdit)])
                else (d, m0 ++ [EditHeader cmdToEdit; NoChanges])
            | _, _ => (d, m0 ++ [EditHeader cmdToEdit; UncaughtTypeError])
            end
        end
    end.

End Lifecycle.

(* ================================================================= *)
(** ** Import translator *)

(** [cmd && typeof cmd.command === 'string'], keeping the object. *)
Definition validImported (e : option RawCmd) : option RawCmd :=
  match e with
  | Some cmd =>
      match raw_command cmd with
      | Text _ => Some cmd
      | _ => None
      end
  | None => None
  end.

(** [importedCommands.filter(...)]. *)
Fixpoint filterValid (elems : list (option RawCmd)) : list RawCmd :=
  match elems with
  | [] => []
  | e :: rest =>
      match validImported e with
      | Some cmd => cmd :: filterValid rest
      | None => filterValid rest
      end
  end.

(** The text of a field known to hold a string. *)
Definition textOf (f : Field) : string :=
  match f with
  | Text s => s
  | _ => EmptyString
  end.

(** [impCmd.comment?.trim() || false]: optional chaining skips a missing
    field only; on the literal [false] the call of [trim] throws a
    [TypeError], which is the outer [None]. *)
Definition importedComment (f : Field) : option (option string) :=
  match f with
  | Missing => Some None
  | FalseLit => None
  | Text s => Some (or_false (Some (trim s)))
  end.

(** [cmds.map(cmd => cmd.alias?.toLowerCase()).filter(Boolean)]: the
    alias of a record in memory is a string or [false], never missing, so
    that the call throws a [TypeError] ([None]) at the first record
    without alias. *)
Fixpoint aliasesLower (cmds : list Command) : option (list string) :=
  match cmds with
  | [] => Some []
  | cmd :: rest =>
      match alias cmd with
      | None => None
      | Some a =>
          match aliasesLower rest with
          | Some l => Some (if truthy (toLowerCase a) then toLowerCase a :: l else l)
          | None => None
          end
      end
  end.

(** [list.includes(s)] on an array of strings. *)
Definition includes_str (l : list string) (s : string) : bool :=
  existsb (String.eqb s) l.

(** The body of [importedCommands.forEach] in append mode: the records to
    write, the next id and the output so far are updated; [None] where the
    body throws. *)
Definition appendBody (commandsToWrite : list Command) (nextId : Z)
    (out : list Msg) (impCmd : RawCmd)
    : option (list Command * Z * list Msg) :=
  match importedComment (raw_comment impCmd) with
  | None => None
  | Some importedText =>
      let newCmd :=
        {| id := nextId;
           command := trim (textOf (raw_command impCmd));
           alias := None;
           comment := importedText |} in
      match field_or_false (raw_alias impCmd) with
      | Some a =>
          let proposedAlias := trim a in
          let proposedAliasLower := toLowerCase proposedAlias in
          match aliasesLower commandsToWrite with
          | None => None
          | Some currentAliasesLower =>
              if negb (has_space_or_colon proposedAlias)
                 && negb (includes_str currentAliasesLower proposedAliasLower)
              then
                Some (commandsToWrite ++
                      [ {| id := nextId;
                           command := command newCmd;
                           alias := Some proposedAlias;
                           comment := importedText |} ],
                      nextId + 1, out)
              else
                Some (commandsToWrite ++ [newCmd], nextId + 1,
                      out ++ [WarnAliasSkipped proposedAlias
                                (substring 0 30 (command newCmd))])
          end
      | None => Some (commandsToWrite ++ [newCmd], nextId + 1, out)
      end
  end.

(** How a [forEach] loop of the import ends. *)
Inductive LoopEnd : Type :=
| Completed (commandsToWrite : list Command) (nextId : Z) (out : list Msg)
| Threw (out : list Msg).

(** [importedCommands.forEach(...)] in append mode. *)
Fixpoint appendLoop (importedCommands : list RawCmd)
    (commandsToWrite : list Command) (nextId : Z) (out : list Msg) : LoopEnd :=
  match importedCommands with
  | [] => Completed commandsToWrite nextId out
  | impCmd :: rest =>
      match appendBody commandsToWrite nextId out impCmd with
      | Some (commandsToWrite', nextId', out') =>
          appendLoop rest commandsToWrite' nextId' out'
      | None => Threw out
      end
  end.

(** [importedCommands.forEach(...)] in overwrite mode;
    [importedAliasesLower] is the set of the aliases assigned so far. *)
Fixpoint replaceLoop (importedCommands : list RawCmd)
    (importedAliasesLower : list string)
    (commandsToWrite : list Command) (nextId : Z) (out : list Msg) : LoopEnd :=
  match importedCommands with
  | [] => Completed commandsToWrite nextId out
  | impCmd :: rest =>
      match importedComment (raw_comment impCmd) with
      | None => Threw out
      | Some importedText =>
          let newCmd :=
            {| id := nextId;
               command := trim (textOf (raw_command impCmd));
               alias := None;
               comment := importedText |} in
          match field_or_false (raw_alias impCmd) with
          | Some a =>
              let proposedAlias := trim a in
              let proposedAliasLower := toLowerCase proposedAlias in
              if negb (has_space_or_colon proposedAlias)
                 && negb (includes_str importedAliasesLower proposedAliasLower)
              then
                replaceLoop rest (proposedAliasLower :: importedAliasesLower)
                  (commandsToWrite ++
                   [ {| id := nextId;
                        command := command newCmd;
                        alias := Some proposedAlias;
                        comment := importedText |} ])
                  (nextId + 1) out
              else
                replaceLoop rest importedAliasesLower
                  (commandsToWrite ++ [newCmd]) (nextId + 1)
                  (out ++ [WarnAliasDuplicated proposedAlias
                             (substring 0 30 (command newCmd))])
          | None =>
              replaceLoop rest importedAliasesLower
                (commandsToWrite ++ [newCmd]) (nextId + 1) out
          end
      end
  end.

(** The [forEach] that computes [maxCurrentId]. *)
Definition maxCurrentId (currentCommands : list Command) : Z :=
  fold_left (fun m cmd => if Z.geb (id cmd) m then id cmd else m)
    currentCommands 0.

Section Operations.

Context {codec : JsonCodec}.

(** [handleImportCommand]: [importFile] is the text of the file to import
    ([None] when the path is not a file), [confirm] the answer to the
    confirmation of the overwrite mode.  The result is [None] only where
    the counter read is outside the model. *)
Definition handleImportCommand (fw : Faults) (importFile : option string)
    (appendMode confirm : bool) (d : Disk) : option (Disk * list Msg) :=
  match importFile with
  | None => Some (d, [ErrImportFile])
  | Some fileContent =>
      match JSON_parse fileContent with
      | Some (JArray elems) =>
          let importedCommands := filterValid elems in
          if (length importedCommands =? 0)%nat then Some (d, [NoValidCommands])
          else
            let m0 := [FoundPotential (length importedCommands)] in
            let '(currentCommands, m1) := readCommands d in
            match readConfig d with
            | (None, _) => None
            | (Some storedNextId, m2) =>
                let nextId :=
                  if Z.leb storedNextId (maxCurrentId currentCommands)
                  then maxCurrentId currentCommands + 1
                  else storedNextId in
                let out := m0 ++ m1 ++ m2 in
                if appendMode then
                  match aliasesLower currentCommands with
                  | None => Some (d, out ++ [Appending; UncaughtTypeError])
                  | Some _ =>
                      match appendLoop importedCommands currentCommands nextId
                              (out ++ [Appending]) with
                      | Threw out' => Some (d, out' ++ [UncaughtTypeError])
                      | Completed commandsToWrite nextId' out' =>
                          let '(d1, m3) := writeConfig fw nextId' d in
                          let '(d2, m4) := writeCommands fw commandsToWrite d1 in
                          Some (d2, out' ++ m3 ++ m4 ++
                                    [AppendSuccess (length importedCommands);
                                     TotalNow (length commandsToWrite)])
                      end
                  end
                else if negb confirm then Some (d, out ++ [OverwriteCanceled])
                else
                  match replaceLoop importedCommands [] [] nextId
                          (out ++ [Replacing]) with
                  | Threw out' => Some (d, out' ++ [UncaughtTypeError])
                  | Completed commandsToWrite nextId' out' =>
                      let '(d1, m3) := writeConfig fw nextId' d in
                      let '(d2, m4) := writeCommands fw commandsToWrite d1 in
                      Some (d2, out' ++ m3 ++ m4 ++
                                [ImportSuccess (length commandsToWrite)])
                  end
            end
      | _ => Some (d, [ErrImportParse])
      end
  end.

(** [handleRunCommand]: the records are read, then [runCommand]. *)
Definition handleRunCommand (homedir : string) (specifier : string)
    (runtimeArgs : list string) (confirm : bool) (outcome : ExecOutcome)
    (d : Disk) : list Event :=
  if negb (truthy specifier) then [Say ErrNoSpecifier]
  else
    let '(commands, m0) := readCommands d in
    map Say m0 ++ runCommand homedir commands specifier runtimeArgs confirm outcome.

End Operations.

(* ================================================================= *)
(** ** A codec to run the model

    The theorems below hold for every codec that obeys [JsonCodecLaws].
    To evaluate the operations on concrete disks a codec is needed; this
    one writes numbers in unary and strings with their length in front,
    which keeps its decoder structural. *)

Module Unary.

Definition Decoder (A : Type) : Type := string -> option (A * string).

Definition andThen {A B : Type} (p : Decoder A) (k : A -> Decoder B) : Decoder B :=
  fun s =>
    match p s with
    | Some (a, rest) => k a rest
    | None => None
    end.

Definition yield {A : Type} (a : A) : Decoder A := fun s => Some (a, s).

Fixpoint enc_nat (n : nat) : string :=
  match n with
  | O => "0"
  | S k => String "1" (enc_nat k)
  end.

Fixpoint dec_nat (s : string) : option (nat * string) :=
  match s with
  | String "0" rest => Some (O, rest)
  | String "1" s' =>
      match dec_nat s' with
      | Some (n, rest) => Some (S n, rest)
      | None => None
      end
  | _ => None
  end.

Definition enc_Z (z : Z) : string :=
  String (if Z.ltb z 0 then "-" else "+")%char (enc_nat (Z.abs_nat z)).

Definition dec_Z : Decoder Z :=
  fun s =>
    match s with
    | String "-" s' => andThen dec_nat (fun n => yield (- Z.of_nat n)) s'
    | String "+" s' => andThen dec_nat (fun n => yield (Z.of_nat n)) s'
    | _ => None
    end.

Fixpoint take (n : nat) (s : string) : option (string * string) :=
  match n with
  | O => Some (EmptyString, s)
  | S k =>
      match s with
      | String c s' =>
          match take k s' with
          | Some (t, rest) => Some (String c t, rest)
          | None => None
          end
      | EmptyString => None
      end
  end.

Definition enc_string (s : string) : string := enc_nat (String.length s) ++ s.

Definition dec_string : Decoder string := andThen dec_nat take.

Definition enc_field (f : Field) : string :=
  match f with
  | Missing => "M"
  | FalseLit => "F"
  | Text s => String "T" (enc_string s)
  end.

Definition dec_field : Decoder Field :=
  fun s =>
    match s with
    | String "M" rest => Some (Missing, rest)
    | String "F" rest => Some (FalseLit, rest)
    | String "T" s' => andThen dec_string (fun t => yield (Text t)) s'
    | _ => None
    end.

Definition enc_id (i : option Z) : string :=
  match i with
  | None => "N"
  | Some z => String "I" (enc_Z z)
  end.

Definition dec_id : Decoder (option Z) :=
  fun s =>
    match s with
    | String "N" rest => Some (None, rest)
    | String "I" s' => andThen dec_Z (fun z => yield (Some z)) s'
    | _ => None
    end.

Definition enc_elem (e : option RawCmd) : string :=
  match e with
  | None => "n"
  | Some cmd =>
      String "o" (enc_id (raw_id cmd) ++ enc_field (raw_alias cmd)
                  ++ enc_field (raw_command cmd) ++ enc_field (raw_comment cmd))
  end.

Definition dec_elem : Decoder (option RawCmd) :=
  fun s =>
    match s with
    | String "n" rest => Some (None, rest)
    | String "o" s' =>
        andThen dec_id (fun i =>
        andThen dec_field (fun a =>
        andThen dec_field (fun c =>
        andThen dec_field (fun m =>
        yield (Some (mkRaw i a c m)))))) s'
    | _ => None
    end.

Fixpoint enc_elems (l : list (option RawCmd)) : string :=
  match l with
  | [] => EmptyString
  | e :: rest => enc_elem e ++ enc_elems rest
  end.

Fixpoint dec_elems (n : nat) (s : string) : option (list (option RawCmd) * string) :=
  match n with
  | O => Some ([], s)
  | S k =>
      match dec_elem s with
      | Some (e, rest) =>
          match dec_elems k rest with
          | Some (l, rest') => Some (e :: l, rest')
          | None => None
          end
      | None => None
      end
  end.

Definition stringify (j : Json) : string :=
  match j with
  | JArray elems => String "A" (enc_nat (List.length elems) ++ enc_elems elems)
  | JConfig n => String "C" (enc_Z n)
  | JOther => "X"
  end.

Definition parse (s : string) : option Json :=
  match s with
  | String "A" s' =>
      match andThen dec_nat dec_elems s' with
      | Some (elems, EmptyString) => Some (JArray elems)
      | _ => None
      end
  | String "C" s' =>
      match dec_Z s' with
      | Some (n, EmptyString) => Some (JConfig n)
      | _ => None
      end
  | String "X" EmptyString => Some JOther
  | _ => None
  end.

#[export] Instance codec : JsonCodec :=
  {| JSON_parse := parse; JSON_stringify := stringify |}.

End Unary.

(* ================================================================= *)
(** ** Predicates used to state the properties *)

(** A record matches a specifier by either criterion of the resolver. *)
Definition matches (specifier : string) (cmd : Command) : bool :=
  id_matches (parseInt specifier) cmd
  || alias_matches (toLowerCase specifier) cmd.

(** The record matches the specifier by id: the integer [parseInt] reads
    from the specifier is the id of the record. *)
Definition matches_by_id (specifier : string) (cmd : Command) : Prop :=
  parseInt specifier = Some (id cmd).

(** The record matches the specifier by alias: it has an alias, not
    empty, that equals the specifier without regard to case. *)
Definition matches_by_alias (specifier : string) (cmd : Command) : Prop :=
  exists a,
    alias cmd = Some a /\ a <> EmptyString
    /\ toLowerCase a = toLowerCase specifier.

(** The record matches the specifier by either criterion. *)
Definition matches_either (specifier : string) (cmd : Command) : Prop :=
  matches_by_id specifier cmd \/ matches_by_alias specifier cmd.

(** The first record whose id is [n], with its index counted from [i]. *)
Fixpoint first_with_id (n : Z) (i : nat) (commands : list Command)
    : option (Command * nat) :=
  match commands with
  | [] => None
  | cmd :: rest =>
      if Z.eqb (id cmd) n then Some (cmd, i) else first_with_id n (S i) rest
  end.

(** Every character is a decimal digit. *)
Fixpoint all_digits (s : string) : bool :=
  match s with
  | EmptyString => true
  | String c s' =>
      match digit_of c with
      | Some _ => all_digits s'
      | None => false
      end
  end.

(** The number a run of decimal digits spells: every digit counts for
    its value times the power of ten of its place. *)
Fixpoint decimal_value (ds : string) : Z :=
  match ds with
  | EmptyString => 0
  | String c rest =>
      match digit_of c with
      | Some d => d * 10 ^ Z.of_nat (String.length rest) + decimal_value rest
      | None => decimal_value rest
      end
  end.

(** The integers from [- 2 ^ 53] to [2 ^ 53] are the ones a JavaScript
    number holds exactly, so that reading a decimal text and adding one
    give the exact result within this range. *)
Definition maxExact : Z := 2 ^ 53.

(** The text starts with a decimal digit. *)
Definition starts_with_digit (s : string) : bool :=
  match s with
  | String c _ =>
      match digit_of c with
      | Some _ => true
      | None => false
      end
  | EmptyString => false
  end.

(* ================================================================= *)
(** ** Vocabulary of the properties: placeholders *)

(** The substitution the specification describes: the placeholders of the
    command are filled from left to right, one argument each; a
    placeholder for which no argument is left stays. *)
Fixpoint fill (s : string) (args : list string) : string :=
  match s with
  | String "{" (String "}" rest) =>
      match args with
      | a :: args' => a ++ fill rest args'
      | [] => String "{" (String "}" (fill rest []))
      end
  | String c s' => String c (fill s' args)
  | EmptyString => EmptyString
  end.

(** A character without a meaning for the substitution: not a brace and
    not a dollar sign. *)
Definition plain_char (c : ascii) : bool :=
  negb (Ascii.eqb "{" c) && negb (Ascii.eqb "}" c) && negb (Ascii.eqb "$" c).

(** Every character is plain. *)
Fixpoint all_plain (s : string) : bool :=
  match s with
  | EmptyString => true
  | String c s' => plain_char c && all_plain s'
  end.

(** A plain argument: not empty and made of plain characters. *)
Definition plain (a : string) : bool := truthy a && all_plain a.

(** The text before a placeholder [P] stays in front of the first
    placeholder of whatever follows. *)
Definition inert (P : string) : Prop :=
  forall t,
    split_first "{}" (P ++ t)
    = match split_first "{}" t with
      | Some (x, y) => Some ((P ++ x)%string, y)
      | None => None
      end.

(* ================================================================= *)
(** ** Vocabulary of the properties: aliases and blank texts *)

(** The record carries the alias [a], compared without regard to case. *)
Definition carries_alias (a : string) (cmd : Command) : Prop :=
  exists ca, alias cmd = Some ca /\ toLowerCase ca = toLowerCase a.

(** The record is the one excluded from the comparison. *)
Definition excluded (excludeId : option Z) (cmd : Command) : Prop :=
  excludeId = Some (id cmd).

(** Every character is white space. *)
Fixpoint all_ws (s : string) : bool :=
  match s with
  | EmptyString => true
  | String c s' => is_ws c && all_ws s'
  end.

(* ================================================================= *)
(** ** Vocabulary of the properties: the store *)

(** The record read back from the JSON of a record in memory whose id is
    not zero: an empty command has become ['INVALID_COMMAND'], an empty
    alias or comment [false]. *)
Definition restore (c : Command) : Command := withDefaults (toRaw c) 0.

(** A record as [readCommands] returns it: the id is not zero, the
    command is not empty, and alias and comment are [false] or not empty. *)
Definition normal (c : Command) : Prop :=
  id c <> 0
  /\ truthy (command c) = true
  /\ or_false (alias c) = alias c
  /\ or_false (comment c) = comment c.

Section StoreViews.

Context {codec : JsonCodec}.

(** The records of the store, as the program reads them. *)
Definition records (d : Disk) : list Command := fst (readCommands d).

(** The counter of the store, as the program reads it. *)
Definition counter (d : Disk) : option Z := fst (readConfig d).

(** The counter is a positive number greater than the id of every record
    of the store. *)
Definition counterInvariant (d : Disk) : Prop :=
  exists n, counter d = Some n /\ 1 <= n /\ forall c, In c (records d) -> id c < n.

End StoreViews.

Section WriteViews.

Context {codec : JsonCodec}.

(** The text [writeCommands] means to store. *)
Definition intended (commands : list Command) : string :=
  JSON_stringify (JArray (map (fun c => Some (toRaw c)) (sortById commands))).

(** The faults of the run in which the write of the records file
    completes, the write of the counter file meeting what it meets under
    [fw]. *)
Definition completing (fw : Faults) : Faults :=
  mkFaults (onConfigWrite fw) NoFault.

(** The messages by which an operation reports that it changed the
    records. *)
Definition isSuccess (m : Msg) : bool :=
  match m with
  | AddSuccess _ _ | DeleteSuccess _ | EditSuccess _
  | AppendSuccess _ | ImportSuccess _ => true
  | _ => false
  end.

Definition reportsSuccess (out : list Msg) : bool := existsb isSuccess out.

(** What the fault met by the write of the records file makes of an
    operation on the store [d].  [d0] and [out0] are the store left and
    the output printed when that write completes, [d'] and [out] those
    under the faults [fw].  The counter file and the report of success
    are the same in both runs.  A run that reports no success is the same
    under any fault and leaves the records file as it was.  A run that
    reports success has written the text intended for the records it
    leaves when the write completes: under the fault the file holds that
    text, or is as it was with the error printed, or holds the first
    characters of that text with the error printed. *)
Definition writeOutcome (fw : Faults) (d d0 : Disk) (out0 : list Msg)
    (d' : Disk) (out : list Msg) : Prop :=
  configFile d' = configFile d0
  /\ reportsSuccess out = reportsSuccess out0
  /\ if reportsSuccess out0
     then exists commands,
            commandsFile d0 = Some (intended commands)
            /\ match onCommandsWrite fw with
               | NoFault => d' = d0 /\ out = out0
               | FailsBeforeOpen =>
                   commandsFile d' = commandsFile d /\ In ErrWriteCommands out
               | FailsAfter written =>
                   commandsFile d' = Some (substring 0 written (intended commands))
                   /\ In ErrWriteCommands out
               end
     else d' = d0 /\ out = out0 /\ commandsFile d' = commandsFile d.

End WriteViews.

(* ================================================================= *)
(** ** Vocabulary of the properties: import *)

(** The alias an imported entry keeps, as the specification describes it:
    the alias given, trimmed, when it holds neither white space nor colon
    and no record present so far, old or imported before, carries it. *)
Definition keptAlias (present : list Command) (impCmd : RawCmd) : option string :=
  match field_or_false (raw_alias impCmd) with
  | Some a =>
      if negb (has_space_or_colon (trim a))
         && negb (existsb (alias_matches (toLowerCase (trim a))) present)
      then Some (trim a)
      else None
  | None => None
  end.

(** The record an entry is imported as, given the records present so far
    and the id to issue. *)
Definition importedRecord (present : list Command) (nextId : Z) (impCmd : RawCmd)
    : Command :=
  {| id := nextId;
     alias := keptAlias present impCmd;
     command := trim (textOf (raw_command impCmd));
     comment :=
       match raw_comment impCmd with
       | Text s => or_false (Some (trim s))
       | _ => None
       end |}.

(** The records a batch is imported as in append mode: ids are issued in
    sequence and every record imported counts as present for the next. *)
Fixpoint importedRecords (present : list Command) (nextId : Z)
    (entries : list RawCmd) : list Command :=
  match entries with
  | [] => []
  | impCmd :: rest =>
      importedRecord present nextId impCmd
      :: importedRecords (present ++ [importedRecord present nextId impCmd])
           (nextId + 1) rest
  end.

(** The warnings of a batch: one for every entry whose alias is given and
    not kept. *)
Fixpoint importWarnings (present : list Command) (nextId : Z)
    (entries : list RawCmd) : list Msg :=
  match entries with
  | [] => []
  | impCmd :: rest =>
      match field_or_false (raw_alias impCmd), keptAlias present impCmd with
      | Some a, None =>
          [WarnAliasSkipped (trim a)
             (substring 0 30 (trim (textOf (raw_command impCmd))))]
      | _, _ => []
      end
      ++ importWarnings (present ++ [importedRecord present nextId impCmd])
           (nextId + 1) rest
  end.

(** The body of the append loop runs through for an entry: its comment is
    not the literal [false], and if it gives an alias, every record
    present has one. *)
Definition entryCompletes (present : list Command) (impCmd : RawCmd) : bool :=
  match raw_comment impCmd with
  | FalseLit => false
  | _ => true
  end
  && match field_or_false (raw_alias impCmd) with
     | Some _ => forallb (fun c => not_false (alias c)) present
     | None => true
     end.

(** The append loop runs through for a batch. *)
Fixpoint batchCompletes (present : list Command) (nextId : Z)
    (entries : list RawCmd) : bool :=
  match entries with
  | [] => true
  | impCmd :: rest =>
      entryCompletes present impCmd
      && batchCompletes (present ++ [importedRecord present nextId impCmd])
           (nextId + 1) rest
  end.

(** An entry is valid in the sense of the specification: an object whose
    command is a string that is not empty. *)
Definition hasNonEmptyCommand (e : option RawCmd) : bool :=
  match e with
  | Some cmd => truthy_opt (field_or_false (raw_command cmd))
  | None => false
  end.

(* ================================================================= *)
(** ** Operations and reachable stores *)

(** The operations that change the store, with what the user enters.
    The power syntax calls [handleAddCommand] as the interactive add
    does. *)
Inductive Operation : Type :=
| Add (response : AddResponse)
| Delete (specifier : string) (confirm : bool)
| Edit (specifier : string) (response : EditResponse)
| Import (importFile : option string) (appendMode confirm : bool).

Section Reachability.

Context {codec : JsonCodec}.

(** An operation under the faults its writes meet: the store it leaves
    and what it prints. *)
Definition run (fw : Faults) (op : Operation) (d : Disk)
    : option (Disk * list Msg) :=
  match op with
  | Add response => handleAddCommand fw response d
  | Delete specifier confirm => Some (handleDeleteCommand fw specifier confirm d)
  | Edit specifier response => Some (handleEditCommand fw specifier response d)
  | Import importFile appendMode confirm =>
      handleImportCommand fw importFile appendMode confirm d
  end.

(** The store after an operation whose writes complete. *)
Definition perform (op : Operation) (d : Disk) : option Disk :=
  option_map fst (run noFaults op d).

(** The stores the program reaches from the empty configuration
    directory. *)
Inductive reachable : Disk -> Prop :=
| reachable_empty : reachable (mkDisk None None)
| reachable_step : forall d op d',
    reachable d -> perform op d = Some d' -> reachable d'.

(** The counter of the store is within the integers a JavaScript number
    holds exactly. *)
Definition counterExact (d : Disk) : Prop :=
  exists n, counter d = Some n /\ n <= maxExact.

(** The stores the program leaves behind, starting from the empty
    configuration directory, by operations in which the write of the
    counter file completes, whatever happens to the write of the records
    file, as long as the counter stays exact. *)
Inductive persisted : Disk -> Prop :=
| persisted_empty : persisted (mkDisk None None)
| persisted_step : forall fw op d d' out,
    persisted d -> onConfigWrite fw = NoFault ->
    run fw op d = Some (d', out) -> counterExact d' ->
    persisted d'.

End Reachability.

(* ================================================================= *)
(** ** Stores to run the operations on *)

(** Stores used to run the operations: one record with id 1 and the
    counter at 2; the same record with the counter file missing. *)
Module Demo.

Definition oneRecord : Disk :=
  mkDisk (Some (Unary.stringify (JArray [Some (toRaw (mkCommand 1 None "ls" None))])))
         (Some (Unary.stringify (JConfig 2))).

Definition counterLost : Disk :=
  mkDisk (Some (Unary.stringify (JArray [Some (toRaw (mkCommand 1 None "ls" None))])))
         None.

Definition aliased : Disk :=
  mkDisk (Some (Unary.stringify
                  (JArray [Some (toRaw (mkCommand 1 (Some "build") "make" None))])))
         (Some (Unary.stringify (JConfig 2))).

Definition twoRecords : Disk :=
  mkDisk (Some (Unary.stringify
                  (JArray [ Some (toRaw (mkCommand 1 None "ls" None));
                            Some (toRaw (mkCommand 2 (Some "build") "make" None)) ])))
         (Some (Unary.stringify (JConfig 3))).

End Demo.

(* ================================================================= *)
(** ** Listing, searching and exporting *)

(** What [handleListCommands] shows: the notice of the empty store, or
    the rows of the table. *)
Inductive ListOutput : Type :=
| NoCommandsYet
| TableRows (rows : list Command).

(** What [handleFindCommand] shows. *)
Inductive FindOutput : Type :=
| ErrNoQuery
| NoMatches (query : string)
| Found (count : nat) (query : string) (results : list Command).

(** What [handleExportCommand] prints. *)
Inductive ExportOutput : Type :=
| NoCommandsToExport
| ErrExportPath
| Exported (count : nat)
| ErrExporting.

(** The callback of [commands.filter] in [handleFindCommand]. *)
Definition matchesQuery (queryLower : string) (cmd : Command) : bool :=
  includes (toLowerCase (command cmd)) queryLower
  || match alias cmd with
     | Some a => truthy a && includes (toLowerCase a) queryLower
     | None => false
     end
  || match comment cmd with
     | Some m => truthy m && includes (toLowerCase m) queryLower
     | None => false
     end.

Section Views.

Context {codec : JsonCodec}.

(** [handleListCommands()]. *)
Definition handleListCommands (d : Disk) : list Msg * ListOutput :=
  let '(commands, m0) := readCommands d in
  if (length commands =? 0)%nat then (m0, NoCommandsYet)
  else (m0, TableRows (sortById commands)).

(** [handleFindCommand(query)]. *)
Definition handleFindCommand (query : string) (d : Disk) : list Msg * FindOutput :=
  if negb (truthy query) then ([], ErrNoQuery)
  else
    let '(commands, m0) := readCommands d in
    let queryLower := toLowerCase query in
    let results := sortById (filter (matchesQuery queryLower) commands) in
    if (length results =? 0)%nat then (m0, NoMatches query)
    else (m0, Found (length results) query results).

(** [handleExportCommand(exportPath)]: [targetIsDirectory] tells whether
    the resolved path exists and is a directory, [f] is the fault met by
    the write of the new file.  The first component is the text of the
    file written, if any; the name of the file, built from the time, is
    not modelled. *)
Definition handleExportCommand (targetIsDirectory : bool) (f : WriteFault)
    (d : Disk) : option string * list Msg * ExportOutput :=
  let '(commands, m0) := readCommands d in
  if (length commands =? 0)%nat then (None, m0, NoCommandsToExport)
  else if negb targetIsDirectory then (None, m0, ErrExportPath)
  else
    let '(file, threw) :=
      writeFileSync f None
        (JSON_stringify (JArray (map (fun c => Some (toRaw c)) commands))) in
    (file, m0, if threw then ErrExporting else Exported (length commands)).

End Views.

(* ================================================================= *)
(** ** Power syntax *)

(** [s.split(':')]. *)
Fixpoint split_colon (s : string) : list string :=
  match s with
  | EmptyString => [EmptyString]
  | String c s' =>
      if Ascii.eqb c ":" then EmptyString :: split_colon s'
      else
        match split_colon s' with
        | p :: ps => String c p :: ps
        | [] => [String c EmptyString]
        end
  end.

(** Every character of the text is an ASCII character.  On such texts the
    primitives modelled here ([trim], [toLowerCase], the dot and [\s] of a
    regular expression) are those of JavaScript. *)
Fixpoint ascii_only (s : string) : bool :=
  match s with
  | EmptyString => true
  | String c s' => (N_of_ascii c <? 128)%N && ascii_only s'
  end.

(** A character the dot of a regular expression matches: any but the
    line terminators, which are LF and CR in the ASCII range (the others,
    U+2028 and U+2029, are not ASCII characters). *)
Definition dot_matches (c : ascii) : bool :=
  negb (Ascii.eqb c "010" || Ascii.eqb c "013").

Fixpoint all_dot (s : string) : bool :=
  match s with
  | EmptyString => true
  | String c s' => dot_matches c && all_dot s'
  end.

(** The handler of the default command: the words of the command line are
    joined, matched against [/^d:a:(.+)$/] and cut at the colons.  The
    result is the initial command, alias and comment handed to
    [handleAddCommand], or [None] when the help is shown instead. *)
Definition powerSyntax (input : list string) : option (string * string * string) :=
  let rawInput := join " " input in
  match strip_prefix "d:a:" rawInput with
  | Some rest =>
      if truthy rest && all_dot rest then
        let parts := split_colon rest in
        let command := trim (nth 0 parts EmptyString) in
        let alias :=
          match nth_error parts 1 with
          | Some p => trim p
          | None => EmptyString
          end in
        let comment := trim (join ":" (skipn 2 parts)) in
        if truthy command then Some (command, alias, comment) else None
      else None
  | None => None
  end.

(* ================================================================= *)
(** ** Vocabulary of the further properties *)

(** The list is in ascending order of id. *)
Definition sortedById (l : list Command) : Prop :=
  StronglySorted (fun a b => id a <= id b) l.

(** The lower-case aliases of the records that have one. *)
Fixpoint aliasKeys (l : list Command) : list string :=
  match l with
  | [] => []
  | c :: rest =>
      match alias c with
      | Some a => if truthy a then toLowerCase a :: aliasKeys rest else aliasKeys rest
      | None => aliasKeys rest
      end
  end.

(** No two records share an id, and no two share an alias, compared
    without regard to case. *)
Definition distinctRecords (l : list Command) : Prop :=
  NoDup (map id l) /\ NoDup (aliasKeys l).

(** The text holds no colon. *)
Fixpoint colon_free (s : string) : bool :=
  match s with
  | EmptyString => true
  | String c s' => negb (Ascii.eqb c ":") && colon_free s'
  end.

(* ================================================================= *)
(** ** Facts about the string primitives *)

Lemma truthy_toLowerCase : forall s, truthy (toLowerCase s) = truthy s.
Proof. destruct s; reflexivity. Qed.

Lemma truthy_false_iff : forall s, truthy s = false <-> s = EmptyString.
Proof. destruct s; simpl; split; congruence. Qed.

Lemma digit_not_ws : forall c d, digit_of c = Some d -> is_ws c = false.
Proof.
  intros c d. unfold digit_of, is_ws.
  destruct (N.leb_spec 48 (N_of_ascii c)); simpl; [|discriminate].
  intros _.
  destruct (N.leb_spec (N_of_ascii c) 13); simpl.
  - lia.
  - rewrite andb_false_r. simpl. apply N.eqb_neq. lia.
Qed.

Lemma parseInt_unsigned : forall c s,
  is_ws c = false -> c <> "-"%char -> c <> "+"%char ->
  parseInt (String c s) = parse_digits (String c s) false 0.
Proof.
  intros c s Hws Hm Hp. unfold parseInt. simpl trimStart. rewrite Hws.
  destruct c as [[] [] [] [] [] [] [] []]; try reflexivity; congruence.
Qed.

Lemma digit_not_sign : forall c d,
  digit_of c = Some d -> c <> "-"%char /\ c <> "+"%char.
Proof.
  intros c d H. split; intros ->; vm_compute in H; discriminate.
Qed.

Lemma parse_digits_seen : forall s acc, exists n, parse_digits s true acc = Some n.
Proof.
  induction s as [|c s IH]; intros acc; simpl.
  - eauto.
  - destruct (digit_of c); eauto.
Qed.

Lemma parse_digits_app : forall ds rest seen acc,
  all_digits ds = true -> starts_with_digit rest = false ->
  parse_digits (ds ++ rest) seen acc
  = match ds with
    | EmptyString => if seen then Some acc else None
    | _ => parse_digits ds seen acc
    end.
Proof.
  induction ds as [|c ds IH]; intros rest seen acc Hd Hr.
  - simpl. destruct rest as [|r rest]; [reflexivity|].
    simpl in *. destruct (digit_of r); [discriminate|reflexivity].
  - simpl in *. destruct (digit_of c) as [d|]; [|discriminate].
    rewrite (IH rest true _ Hd Hr). destruct ds; reflexivity.
Qed.

(** [parseInt] reads the digits in front of a text and ignores the rest. *)
Lemma parseInt_digit_prefix : forall ds rest,
  ds <> EmptyString -> all_digits ds = true -> starts_with_digit rest = false ->
  exists n, parseInt ds = Some n /\ parseInt (ds ++ rest) = Some n.
Proof.
  intros [|c ds] rest Hne Hd Hr; [congruence|].
  assert (Hc : exists d, digit_of c = Some d).
  { simpl in Hd. destruct (digit_of c); [eauto|discriminate]. }
  destruct Hc as [d Hc].
  destruct (digit_not_sign _ _ Hc) as [Hm Hp].
  pose proof (digit_not_ws _ _ Hc) as Hws.
  change (String c ds ++ rest)%string with (String c (ds ++ rest)%string).
  rewrite !parseInt_unsigned by assumption.
  change (String c (ds ++ rest)%string) with (String c ds ++ rest)%string.
  rewrite parse_digits_app by assumption.
  simpl. rewrite Hc.
  destruct (parse_digits_seen ds (10 * 0 + d)) as [n Hn].
  exists n. split; exact Hn.
Qed.

(* ================================================================= *)
(** ** The identifier resolver *)

Lemma find_from_first : forall idSearch searchLower commands i,
  match find_from idSearch searchLower i commands with
  | Some (cmd, k) =>
      exists j, k = (i + j)%nat /\ nth_error commands j = Some cmd
        /\ (id_matches idSearch cmd || alias_matches searchLower cmd) = true
        /\ forall j' c, (j' < j)%nat -> nth_error commands j' = Some c ->
             (id_matches idSearch c || alias_matches searchLower c) = false
  | None =>
      forall c, In c commands ->
        (id_matches idSearch c || alias_matches searchLower c) = false
  end.
Proof.
  intros idSearch searchLower commands.
  induction commands as [|cmd rest IH]; intros i; simpl.
  - intros c [].
  - destruct (id_matches idSearch cmd) eqn:Hid.
    + exists O. rewrite Nat.add_0_r. repeat split; simpl; try reflexivity.
      * rewrite Hid. reflexivity.
      * intros j' c Hj. lia.
    + destruct (alias_matches searchLower cmd) eqn:Hal.
      * exists O. rewrite Nat.add_0_r. repeat split; simpl; try reflexivity.
        -- rewrite Hid, Hal. reflexivity.
        -- intros j' c Hj. lia.
      * specialize (IH (S i)).
        destruct (find_from idSearch searchLower (S i) rest) as [[c k]|].
        -- destruct IH as (j & Hk & Hnth & Hm & Hbefore).
           exists (S j). repeat split; simpl; try assumption; try lia.
           intros [|j'] c' Hj Hc'; simpl in Hc'.
           ++ injection Hc' as <-. rewrite Hid, Hal. reflexivity.
           ++ apply (Hbefore j'); [lia|assumption].
        -- intros c [<-|Hin].
           ++ rewrite Hid, Hal. reflexivity.
           ++ apply IH. assumption.
  Qed.

Lemma find_from_skip : forall idSearch searchLower pre rest i,
  (forall c, In c pre ->
     (id_matches idSearch c || alias_matches searchLower c) = false) ->
  find_from idSearch searchLower i (pre ++ rest)
  = find_from idSearch searchLower (i + length pre) rest.
Proof.
  induction pre as [|p pre IH]; intros rest i Hpre; simpl.
  - rewrite Nat.add_0_r. reflexivity.
  - pose proof (Hpre p (or_introl eq_refl)) as Hp.
    apply orb_false_iff in Hp. destruct Hp as [-> ->].
    rewrite IH by (intros c Hc; apply Hpre; right; assumption).
    f_equal. lia.
Qed.

Lemma id_matches_iff : forall specifier cmd,
  id_matches (parseInt specifier) cmd = true <-> matches_by_id specifier cmd.
Proof.
  intros specifier cmd. unfold id_matches, matches_by_id.
  destruct (parseInt specifier) as [n|]; [|split; discriminate].
  rewrite Z.eqb_eq. split; [intros ->; reflexivity|intros [= ->]; reflexivity].
Qed.

Lemma alias_matches_iff : forall specifier cmd,
  alias_matches (toLowerCase specifier) cmd = true
  <-> matches_by_alias specifier cmd.
Proof.
  intros specifier cmd. unfold alias_matches, matches_by_alias. split.
  - destruct (alias cmd) as [a|]; [|discriminate].
    intros H. apply andb_true_iff in H. destruct H as [Ht He].
    apply String.eqb_eq in He. exists a. split; [reflexivity|].
    split; [|exact He]. intros ->. discriminate Ht.
  - intros (a & -> & Hne & He). rewrite He, String.eqb_refl, andb_true_r.
    destruct a; [contradiction|reflexivity].
Qed.

Lemma tests_false_iff : forall specifier cmd,
  (id_matches (parseInt specifier) cmd
   || alias_matches (toLowerCase specifier) cmd) = false
  <-> ~ matches_either specifier cmd.
Proof.
  intros specifier cmd. unfold matches_either.
  rewrite orb_false_iff, <- !not_true_iff_false, id_matches_iff, alias_matches_iff.
  tauto.
Qed.

Lemma tests_true_iff : forall specifier cmd,
  (id_matches (parseInt specifier) cmd
   || alias_matches (toLowerCase specifier) cmd) = true
  <-> matches_either specifier cmd.
Proof.
  intros specifier cmd. unfold matches_either.
  rewrite orb_true_iff, id_matches_iff, alias_matches_iff. tauto.
Qed.

(** The resolver returns the record at [i] exactly when that record is
    the first of the list that matches by either criterion. *)
Lemma findCommandByIdOrAlias_iff : forall specifier commands cmd i,
  findCommandByIdOrAlias specifier commands = Some (cmd, i)
  <-> nth_error commands i = Some cmd
      /\ matches_either specifier cmd
      /\ forall j c, (j < i)%nat -> nth_error commands j = Some c ->
           ~ matches_either specifier c.
Proof.
  intros specifier commands cmd i. unfold findCommandByIdOrAlias.
  pose proof (find_from_first (parseInt specifier) (toLowerCase specifier)
                commands 0) as H.
  destruct (find_from (parseInt specifier) (toLowerCase specifier) 0 commands)
    as [[found k]|].
  - destruct H as (j & -> & Hnth & Hm & Hbefore). cbn [Nat.add].
    apply tests_true_iff in Hm. split.
    + intros [= <- <-]. split; [exact Hnth|]. split; [exact Hm|].
      intros j' c Hj Hc. apply tests_false_iff. exact (Hbefore j' c Hj Hc).
    + intros (Hi & Hmi & Hnone).
      destruct (Nat.lt_trichotomy j i) as [Hlt|[->|Hgt]].
      * exfalso. exact (Hnone j found Hlt Hnth Hm).
      * congruence.
      * exfalso. apply tests_false_iff in Hmi; [exact Hmi|].
        exact (Hbefore i cmd Hgt Hi).
  - split; [discriminate|]. intros (Hi & Hmi & _). exfalso.
    apply tests_false_iff in Hmi; [exact Hmi|].
    apply H. exact (nth_error_In _ _ Hi).
Qed.

(** C2. [findCommandByIdOrAlias] scans the records in stored order and
    returns the first record that matches by either criterion, with its
    index: it returns the record at a position exactly when that record
    matches by id or by alias and no record before it matches in either
    way, and it returns nothing exactly when no record matches.  A match
    by id further on is not preferred: when a record matches by alias and
    a later record matches by id, the record returned is at or before the
    one matched by alias, and it is that one when nothing before it
    matches. *)
Theorem findCommandByIdOrAlias_first_match : forall specifier commands,
  (forall cmd i,
     findCommandByIdOrAlias specifier commands = Some (cmd, i)
     <-> nth_error commands i = Some cmd
         /\ (matches_by_id specifier cmd \/ matches_by_alias specifier cmd)
         /\ forall j c, (j < i)%nat -> nth_error commands j = Some c ->
              ~ matches_by_id specifier c /\ ~ matches_by_alias specifier c)
  /\ (findCommandByIdOrAlias specifier commands = None
      <-> forall c, In c commands ->
            ~ matches_by_id specifier c /\ ~ matches_by_alias specifier c)
  /\ (forall i j byAlias byId,
        (i < j)%nat ->
        nth_error commands i = Some byAlias -> matches_by_alias specifier byAlias ->
        nth_error commands j = Some byId -> matches_by_id specifier byId ->
        exists cmd k,
          findCommandByIdOrAlias specifier commands = Some (cmd, k)
          /\ (k <= i)%nat
          /\ ((forall h c, (h < i)%nat -> nth_error commands h = Some c ->
                 ~ matches_by_id specifier c /\ ~ matches_by_alias specifier c) ->
              cmd = byAlias /\ k = i)).
Proof.
  intros specifier commands.
  assert (Hsplit : forall c,
            ~ matches_either specifier c
            <-> ~ matches_by_id specifier c /\ ~ matches_by_alias specifier c)
    by (intros c; unfold matches_either; tauto).
  split; [|split].
  - intros cmd i. rewrite findCommandByIdOrAlias_iff. split.
    + intros (Hi & Hm & Hnone). split; [exact Hi|]. split; [exact Hm|].
      intros j c Hj Hc. apply Hsplit. exact (Hnone j c Hj Hc).
    + intros (Hi & Hm & Hnone). split; [exact Hi|]. split; [exact Hm|].
      intros j c Hj Hc. apply Hsplit. exact (Hnone j c Hj Hc).
  - unfold findCommandByIdOrAlias.
    pose proof (find_from_first (parseInt specifier) (toLowerCase specifier)
                  commands 0) as H.
    destruct (find_from (parseInt specifier) (toLowerCase specifier) 0 commands)
      as [[found k]|].
    + destruct H as (j & _ & Hnth & Hm & _). split; [discriminate|].
      intros Hnone. exfalso. apply tests_true_iff in Hm.
      apply (proj2 (Hsplit found)); [|exact Hm].
      apply Hnone. exact (nth_error_In _ _ Hnth).
    + split; [|reflexivity]. intros _ c Hc. apply Hsplit.
      apply tests_false_iff. exact (H c Hc).
  - intros i j byAlias byId Hij Hi Hal Hj Hid.
    destruct (findCommandByIdOrAlias specifier commands) as [[cmd k]|] eqn:Ef.
    + apply findCommandByIdOrAlias_iff in Ef. destruct Ef as (Hk & Hm & Hnone).
      exists cmd, k. split; [reflexivity|].
      assert (Hle : (k <= i)%nat).
      { destruct (Nat.le_gt_cases k i) as [Hle|Hgt]; [exact Hle|].
        exfalso. apply (Hnone i byAlias Hgt Hi). right. exact Hal. }
      split; [exact Hle|]. intros Hbefore.
      destruct (Nat.eq_dec k i) as [->|Hne]; [split; congruence|].
      exfalso. apply (proj2 (Hsplit cmd)); [|exact Hm].
      apply (Hbefore k cmd); [lia|exact Hk].
    + exfalso.
      assert (Hnone : forall c, In c commands -> ~ matches_either specifier c).
      { intros c Hc. apply tests_false_iff. unfold findCommandByIdOrAlias in Ef.
        pose proof (find_from_first (parseInt specifier) (toLowerCase specifier)
                      commands 0) as H.
        rewrite Ef in H. exact (H c Hc). }
      apply (Hnone byAlias (nth_error_In _ _ Hi)). right. exact Hal.
Qed.

(** An instance of C2: the alias ["7"] of the first record wins over the
    id 7 of the second one. *)
Lemma findCommandByIdOrAlias_first_match_witness :
  findCommandByIdOrAlias "7"
    [ mkCommand 3 (Some "7") "ls" None; mkCommand 7 None "pwd" None ]
  = Some (mkCommand 3 (Some "7") "ls" None, O).
Proof.
  destruct (proj2 (proj2 (findCommandByIdOrAlias_first_match "7"
                            [ mkCommand 3 (Some "7") "ls" None;
                              mkCommand 7 None "pwd" None ]))
              0%nat 1%nat (mkCommand 3 (Some "7") "ls" None)
              (mkCommand 7 None "pwd" None))
    as (cmd & k & Hfound & _ & Hfirst).
  - lia.
  - reflexivity.
  - exists "7". repeat split. discriminate.
  - reflexivity.
  - reflexivity.
  - destruct Hfirst as [-> ->]; [|exact Hfound].
    intros h c Hh. lia.
Defined.

Lemma find_from_by_id : forall n searchLower commands i,
  (forall c, In c commands -> alias_matches searchLower c = false) ->
  find_from (Some n) searchLower i commands = first_with_id n i commands.
Proof.
  induction commands as [|cmd rest IH]; intros i Hal; simpl.
  - reflexivity.
  - rewrite (Hal cmd (or_introl eq_refl)).
    rewrite IH by (intros c Hc; apply Hal; right; assumption).
    destruct (id cmd =? n); reflexivity.
Qed.

Lemma parse_digits_value : forall ds acc,
  all_digits ds = true ->
  parse_digits ds true acc
  = Some (acc * 10 ^ Z.of_nat (String.length ds) + decimal_value ds).
Proof.
  induction ds as [|c ds IH]; intros acc Hd.
  - simpl. f_equal. lia.
  - cbn [all_digits] in Hd. cbn [parse_digits decimal_value String.length].
    destruct (digit_of c) as [d|]; [|discriminate].
    rewrite IH by exact Hd. f_equal.
    rewrite Nat2Z.inj_succ, Z.pow_succ_r by lia. ring.
Qed.

(** [parseInt] reads a run of digits as the number it spells. *)
Lemma parseInt_decimal_value : forall ds rest,
  ds <> EmptyString -> all_digits ds = true -> starts_with_digit rest = false ->
  parseInt (ds ++ rest) = Some (decimal_value ds).
Proof.
  intros [|c ds] rest Hne Hd Hr; [congruence|].
  assert (Hc : exists d, digit_of c = Some d).
  { simpl in Hd. destruct (digit_of c); [eauto|discriminate]. }
  destruct Hc as [d Hc].
  destruct (digit_not_sign _ _ Hc) as [Hm Hp].
  pose proof (digit_not_ws _ _ Hc) as Hws.
  change (String c ds ++ rest)%string with (String c (ds ++ rest)%string).
  rewrite parseInt_unsigned by assumption.
  change (String c (ds ++ rest)%string) with (String c ds ++ rest)%string.
  rewrite parse_digits_app by assumption.
  cbn [parse_digits decimal_value]. cbn [all_digits] in Hd. rewrite Hc in *.
  rewrite parse_digits_value by exact Hd. reflexivity.
Qed.

(** C10. A specifier that starts with decimal digits and goes on with
    other text is read by [parseInt] as the number its digits spell,
    within the integers a JavaScript number holds exactly; when it is no
    record's alias, the resolver looks that number up among the ids: it
    returns the first record whose id is that number, and nothing when
    there is none. *)
Theorem findCommandByIdOrAlias_integer_prefix : forall ds rest commands,
  ds <> EmptyString -> all_digits ds = true -> starts_with_digit rest = false ->
  decimal_value ds <= maxExact ->
  (forall c, In c commands -> ~ matches_by_alias (ds ++ rest) c) ->
  parseInt (ds ++ rest) = Some (decimal_value ds)
  /\ findCommandByIdOrAlias (ds ++ rest) commands
     = first_with_id (decimal_value ds) 0 commands
  /\ (forall cmd i,
        findCommandByIdOrAlias (ds ++ rest) commands = Some (cmd, i)
        <-> nth_error commands i = Some cmd
            /\ id cmd = decimal_value ds
            /\ forall j c, (j < i)%nat -> nth_error commands j = Some c ->
                 id c <> decimal_value ds)
  /\ (findCommandByIdOrAlias (ds ++ rest) commands = None
      <-> forall c, In c commands -> id c <> decimal_value ds).
Proof.
  intros ds rest commands Hne Hd Hr _ Hal.
  pose proof (parseInt_decimal_value ds rest Hne Hd Hr) as Hparse.
  assert (Hid : forall c, matches_by_id (ds ++ rest) c <-> id c = decimal_value ds).
  { intros c. unfold matches_by_id. rewrite Hparse.
    split; [intros [= ->]; reflexivity|intros ->; reflexivity]. }
  assert (Heither : forall c, In c commands ->
            (matches_either (ds ++ rest) c <-> id c = decimal_value ds)).
  { intros c Hc. unfold matches_either. rewrite Hid.
    pose proof (Hal c Hc). tauto. }
  split; [exact Hparse|]. split; [|split].
  - unfold findCommandByIdOrAlias. rewrite Hparse.
    apply find_from_by_id. intros c Hc.
    apply not_true_iff_false. rewrite alias_matches_iff. exact (Hal c Hc).
  - intros cmd i. rewrite findCommandByIdOrAlias_iff. split.
    + intros (Hi & Hm & Hnone). split; [exact Hi|].
      split; [apply (Heither cmd (nth_error_In _ _ Hi)); exact Hm|].
      intros j c Hj Hc Hv. apply (Hnone j c Hj Hc).
      apply (Heither c (nth_error_In _ _ Hc)). exact Hv.
    + intros (Hi & Hv & Hnone). split; [exact Hi|].
      split; [apply (Heither cmd (nth_error_In _ _ Hi)); exact Hv|].
      intros j c Hj Hc Hm. apply (Hnone j c Hj Hc).
      apply (Heither c (nth_error_In _ _ Hc)). exact Hm.
  - unfold findCommandByIdOrAlias.
    pose proof (find_from_first (parseInt (ds ++ rest)) (toLowerCase (ds ++ rest))
                  commands 0) as H.
    destruct (find_from (parseInt (ds ++ rest)) (toLowerCase (ds ++ rest)) 0 commands)
      as [[found k]|].
    + destruct H as (j & _ & Hnth & Hm & _). split; [discriminate|].
      intros Hnone. exfalso. apply tests_true_iff in Hm.
      apply (Hnone found (nth_error_In _ _ Hnth)).
      apply (Heither found (nth_error_In _ _ Hnth)). exact Hm.
    + split; [|reflexivity]. intros _ c Hc Hv.
      apply (proj1 (tests_false_iff _ _) (H c Hc)).
      apply (Heither c Hc). exact Hv.
Qed.

(** An instance of C10: ["7abc"] resolves to the record whose id is 7. *)
Lemma findCommandByIdOrAlias_integer_prefix_witness :
  findCommandByIdOrAlias "7abc"
    [ mkCommand 3 (Some "x") "ls" None; mkCommand 7 None "pwd" None ]
  = Some (mkCommand 7 None "pwd" None, 1%nat).
Proof.
  destruct (findCommandByIdOrAlias_integer_prefix "7" "abc"
              [ mkCommand 3 (Some "x") "ls" None; mkCommand 7 None "pwd" None ])
    as (_ & _ & Hlookup & _).
  - discriminate.
  - reflexivity.
  - reflexivity.
  - vm_compute. discriminate.
  - intros c [<-|[<-|[]]] (a & Ha & _ & Hlow); simpl in Ha;
      [injection Ha as <-|]; discriminate.
  - apply (Hlookup (mkCommand 7 None "pwd" None) 1%nat).
    split; [reflexivity|]. split; [reflexivity|].
    intros [|j] c Hj Hc; [|lia]. injection Hc as <-. simpl. discriminate.
Defined.

(* ================================================================= *)
(** ** Alias uniqueness *)

Lemma isAliasUnique_true_iff : forall a commands excludeId,
  truthy a = true ->
  (isAliasUnique (Some a) commands excludeId = true
   <-> forall cmd, In cmd commands -> carries_alias a cmd -> excluded excludeId cmd).
Proof.
  intros a commands excludeId Ha. unfold isAliasUnique. rewrite Ha. simpl.
  rewrite negb_true_iff. split.
  - intros Hex cmd Hin (ca & Hca & Hlow).
    destruct (existsb _ commands) eqn:E in Hex; [discriminate|].
    rewrite <- not_true_iff_false in E. unfold excluded.
    destruct excludeId as [e|].
    + destruct (Z.eqb_spec (id cmd) e) as [->|Hne]; [reflexivity|].
      exfalso. apply E. apply existsb_exists. exists cmd. split; [assumption|].
      rewrite Hca, Hlow, String.eqb_refl.
      rewrite <- truthy_toLowerCase, Hlow, truthy_toLowerCase, Ha.
      destruct (Z.eqb_spec (id cmd) e); [congruence|reflexivity].
    + exfalso. apply E. apply existsb_exists. exists cmd. split; [assumption|].
      rewrite Hca, Hlow, String.eqb_refl.
      rewrite <- truthy_toLowerCase, Hlow, truthy_toLowerCase, Ha. reflexivity.
  - intros H. apply not_true_iff_false. intros Hex.
    apply existsb_exists in Hex. destruct Hex as (cmd & Hin & Hcmd).
    destruct (alias cmd) as [ca|] eqn:Hca; [|discriminate].
    apply andb_true_iff in Hcmd. destruct Hcmd as [Hcmd Hexcl].
    apply andb_true_iff in Hcmd. destruct Hcmd as [_ Hlow].
    apply String.eqb_eq in Hlow.
    assert (Hx : excluded excludeId cmd).
    { apply H; [assumption|]. exists ca. split; assumption. }
    unfold excluded in Hx. subst excludeId.
    rewrite Z.eqb_refl in Hexcl. discriminate.
Qed.

(** C4. [isAliasUnique] answers [true] for an absent or empty alias.  For
    any other alias it answers [true] exactly when every record that
    carries the alias, compared without regard to case, has the excluded
    id.  In particular, it answers [false] when a record carries the alias
    and no id is excluded, and [true] once the id of that record is
    excluded, provided the records that carry the alias all have this id. *)
Theorem isAliasUnique_spec : forall commands excludeId,
  isAliasUnique None commands excludeId = true
  /\ isAliasUnique (Some EmptyString) commands excludeId = true
  /\ (forall a, truthy a = true ->
        (isAliasUnique (Some a) commands excludeId = true
         <-> forall cmd, In cmd commands -> carries_alias a cmd ->
               excluded excludeId cmd))
  /\ (forall a cmd, truthy a = true -> In cmd commands -> carries_alias a cmd ->
        isAliasUnique (Some a) commands None = false
        /\ ((forall other, In other commands -> carries_alias a other ->
               id other = id cmd) ->
            isAliasUnique (Some a) commands (Some (id cmd)) = true)).
Proof.
  intros commands excludeId. split; [reflexivity|]. split; [reflexivity|].
  split.
  - intros a Ha. apply isAliasUnique_true_iff. exact Ha.
  - intros a cmd Ha Hin Hcarry. split.
    + apply not_true_iff_false. intros Hu.
      pose proof (proj1 (isAliasUnique_true_iff a commands None Ha) Hu
                    cmd Hin Hcarry) as Hx.
      discriminate.
    + intros Hall. apply isAliasUnique_true_iff; [assumption|].
      intros other Ho Hc. unfold excluded. rewrite (Hall other Ho Hc). reflexivity.
Qed.

(** An instance of C4: ["Deploy"] conflicts with the alias ["deploy"] of
    record 4, and no longer does once the id 4 is excluded. *)
Example isAliasUnique_duplicate :
  isAliasUnique (Some "Deploy")
    [ mkCommand 4 (Some "deploy") "make" None; mkCommand 5 None "ls" None ] None
  = false
  /\ isAliasUnique (Some "Deploy")
       [ mkCommand 4 (Some "deploy") "make" None; mkCommand 5 None "ls" None ]
       (Some 4)
     = true.
Proof. split; reflexivity. Qed.

(* ================================================================= *)
(** ** Placeholder substitution *)

Lemma append_assoc : forall a b c : string,
  ((a ++ b) ++ c = a ++ (b ++ c))%string.
Proof.
  induction a as [|x a IH]; intros b c; simpl; [reflexivity|].
  rewrite IH. reflexivity.
Qed.

Lemma append_nil_r : forall a : string, (a ++ "")%string = a.
Proof. induction a as [|x a IH]; simpl; [reflexivity|]. rewrite IH. reflexivity. Qed.

Lemma placeholderCount_unfold : forall c s,
  placeholderCount (String c s)
  = match strip_prefix "{}" (String c s) with
    | Some rest => S (placeholderCount rest)
    | None => placeholderCount s
    end.
Proof.
  intros c s.
  destruct c as [[] [] [] [] [] [] [] []]; try reflexivity.
  destruct s as [|c2 s]; [reflexivity|].
  destruct c2 as [[] [] [] [] [] [] [] []]; reflexivity.
Qed.

Lemma fill_unfold : forall c s args,
  fill (String c s) args
  = match strip_prefix "{}" (String c s) with
    | Some rest =>
        match args with
        | a :: args' => (a ++ fill rest args')%string
        | [] => String "{" (String "}" (fill rest []))
        end
    | None => String c (fill s args)
    end.
Proof.
  intros c s args.
  destruct c as [[] [] [] [] [] [] [] []]; try reflexivity.
  destruct s as [|c2 s]; [reflexivity|].
  destruct c2 as [[] [] [] [] [] [] [] []]; reflexivity.
Qed.

Lemma GetSubstitution_unfold : forall matched before after c r,
  Ascii.eqb "$" c = false ->
  GetSubstitution matched before after (String c r)
  = String c (GetSubstitution matched before after r).
Proof.
  intros matched before after c r H.
  destruct c as [[] [] [] [] [] [] [] []]; try reflexivity.
  discriminate H.
Qed.

Lemma GetSubstitution_plain : forall matched before after a,
  all_plain a = true -> GetSubstitution matched before after a = a.
Proof.
  induction a as [|c a IH]; intros H; [reflexivity|].
  simpl in H. apply andb_true_iff in H. destruct H as [Hc Ha].
  unfold plain_char in Hc. apply andb_true_iff in Hc. destruct Hc as [_ Hd].
  apply negb_true_iff in Hd.
  rewrite GetSubstitution_unfold by exact Hd. rewrite IH by exact Ha. reflexivity.
Qed.

Lemma strip_placeholder_cons : forall c w,
  strip_prefix "{}" (String c w)
  = if Ascii.eqb "{" c
    then match w with
         | String b w' => if Ascii.eqb "}" b then Some w' else None
         | EmptyString => None
         end
    else None.
Proof. intros c w. simpl. destruct (Ascii.eqb "{" c); destruct w; reflexivity. Qed.

Lemma split_first_cons : forall c s,
  split_first "{}" (String c s)
  = match strip_prefix "{}" (String c s) with
    | Some post => Some (EmptyString, post)
    | None =>
        match split_first "{}" s with
        | Some (pre, post) => Some (String c pre, post)
        | None => None
        end
    end.
Proof. reflexivity. Qed.

Lemma split_first_nil : split_first "{}" EmptyString = None.
Proof. reflexivity. Qed.

Lemma split_first_sound : forall s x y,
  split_first "{}" s = Some (x, y) ->
  s = (x ++ String "{" (String "}" y))%string.
Proof.
  induction s as [|c s IH]; intros x y H.
  - discriminate.
  - rewrite split_first_cons, strip_placeholder_cons in H.
    destruct (Ascii.eqb_spec "{" c) as [<-|Hc].
    + destruct s as [|b s'].
      * simpl in H. discriminate.
      * destruct (Ascii.eqb_spec "}" b) as [<-|Hb].
        -- injection H as <- <-. reflexivity.
        -- destruct (split_first "{}" (String b s')) as [[pre post]|] eqn:E;
             [|discriminate].
           injection H as <- <-. simpl. f_equal. apply IH. reflexivity.
    + destruct (split_first "{}" s) as [[pre post]|] eqn:E; [|discriminate].
      injection H as <- <-. simpl. f_equal. apply IH. reflexivity.
Qed.

Lemma placeholderCount_split : forall s,
  match split_first "{}" s with
  | Some (x, y) => placeholderCount s = S (placeholderCount y)
  | None => placeholderCount s = O
  end.
Proof.
  induction s as [|c s IH]; [reflexivity|].
  rewrite split_first_cons, placeholderCount_unfold.
  destruct (strip_prefix "{}" (String c s)) as [rest|]; [reflexivity|].
  destruct (split_first "{}" s) as [[pre post]|]; exact IH.
Qed.

Lemma fill_split : forall s x y a args,
  split_first "{}" s = Some (x, y) ->
  fill s (a :: args) = (x ++ a ++ fill y args)%string.
Proof.
  induction s as [|c s IH]; intros x y a args H; [discriminate|].
  rewrite split_first_cons in H. rewrite fill_unfold.
  destruct (strip_prefix "{}" (String c s)) as [rest|].
  - injection H as <- <-. reflexivity.
  - destruct (split_first "{}" s) as [[pre post]|] eqn:E; [|discriminate].
    injection H as <- <-. simpl. f_equal. apply IH. reflexivity.
Qed.

Lemma fill_nil : forall s, fill s [] = s.
Proof.
  assert (H : forall s, fill s [] = s /\ forall c, fill (String c s) [] = String c s).
  { induction s as [|c s [IH1 IH2]].
    - split; [reflexivity|]. intros c. rewrite fill_unfold.
      rewrite strip_placeholder_cons. destruct (Ascii.eqb "{" c); reflexivity.
    - split; [apply IH2|]. intros c'. rewrite fill_unfold, strip_placeholder_cons.
      destruct (Ascii.eqb_spec "{" c') as [<-|Hc'].
      + destruct (Ascii.eqb_spec "}" c) as [<-|Hc].
        * rewrite IH1. reflexivity.
        * rewrite IH2. reflexivity.
      + rewrite IH2. reflexivity. }
  intros s. apply H.
Qed.

Lemma inert_nil : inert EmptyString.
Proof. intros t. simpl. destruct (split_first "{}" t) as [[x y]|]; reflexivity. Qed.

Lemma inert_app : forall P Q, inert P -> inert Q -> inert (P ++ Q).
Proof.
  intros P Q HP HQ t. rewrite append_assoc, HP, HQ.
  destruct (split_first "{}" t) as [[x y]|]; [|reflexivity].
  rewrite append_assoc. reflexivity.
Qed.

Lemma inert_cons : forall c P,
  (forall t, strip_prefix "{}" (String c (P ++ t)) = None) ->
  inert P -> inert (String c P).
Proof.
  intros c P Hc HP t.
  change (String c P ++ t)%string with (String c (P ++ t)).
  rewrite split_first_cons, Hc, HP.
  destruct (split_first "{}" t) as [[x y]|]; reflexivity.
Qed.

Lemma inert_all_plain : forall a, all_plain a = true -> inert a.
Proof.
  induction a as [|c a IH]; intros H.
  - apply inert_nil.
  - simpl in H. apply andb_true_iff in H. destruct H as [Hc Ha].
    apply inert_cons; [|apply IH; exact Ha].
    intros t. rewrite strip_placeholder_cons.
    unfold plain_char in Hc. rewrite !andb_true_iff, !negb_true_iff in Hc.
    destruct Hc as [[-> _] _]. reflexivity.
Qed.

(** The text in front of the first placeholder, followed by a plain
    argument, is inert. *)
Lemma inert_before_placeholder : forall t x y a,
  split_first "{}" t = Some (x, y) -> plain a = true -> inert (x ++ a).
Proof.
  induction t as [|c t IH]; intros x y a H Ha; [discriminate|].
  pose proof Ha as Hplain.
  unfold plain in Ha. apply andb_true_iff in Ha. destruct Ha as [Hne Hall].
  rewrite split_first_cons in H.
  destruct (strip_prefix "{}" (String c t)) as [rest|] eqn:Hstrip.
  - injection H as <- <-. simpl. apply inert_all_plain. exact Hall.
  - destruct (split_first "{}" t) as [[x' y']|] eqn:E; [|discriminate].
    injection H as <- <-.
    change (String c x' ++ a)%string with (String c (x' ++ a)).
    apply inert_cons; [|apply (IH x' y' a); [reflexivity|exact Hplain]].
    intros u. rewrite strip_placeholder_cons in *.
    destruct (Ascii.eqb "{" c); [|reflexivity].
    destruct x' as [|k x''].
    + destruct a as [|k a']; [discriminate Hne|].
      simpl in Hall. unfold plain_char in Hall.
      rewrite !andb_true_iff, !negb_true_iff in Hall.
      destruct Hall as [[[_ Hk] _] _]. cbn [append]. rewrite Hk. reflexivity.
    + apply split_first_sound in E. subst t. cbn [append] in *.
      destruct (Ascii.eqb "}" k); [discriminate|reflexivity].
Qed.

(** An inert prefix is left alone by the loop. *)
Lemma substituteLoop_inert : forall args P t,
  inert P ->
  forallb plain (firstn (placeholderCount t) args) = true ->
  substituteLoop (P ++ t) args = (P ++ substituteLoop t args)%string.
Proof.
  induction args as [|a rest IH]; intros P t HP Hargs; [reflexivity|].
  simpl. unfold includes, replace. rewrite HP.
  pose proof (placeholderCount_split t) as Hcount.
  destruct (split_first "{}" t) as [[x y]|] eqn:E; [|reflexivity].
  rewrite Hcount in Hargs. simpl in Hargs.
  apply andb_true_iff in Hargs. destruct Hargs as [Ha Hrest].
  assert (Hall : all_plain a = true).
  { unfold plain in Ha. apply andb_true_iff in Ha. apply Ha. }
  rewrite !GetSubstitution_plain by exact Hall.
  pose proof (inert_before_placeholder t x y a E Ha) as Hxa.
  replace ((P ++ x) ++ a ++ y)%string with ((P ++ (x ++ a)) ++ y)%string
    by (rewrite !append_assoc; reflexivity).
  replace (x ++ a ++ y)%string with ((x ++ a) ++ y)%string
    by (rewrite !append_assoc; reflexivity).
  rewrite (IH (P ++ (x ++ a))%string y) by (try apply inert_app; assumption).
  rewrite (IH (x ++ a)%string y) by assumption.
  rewrite !append_assoc. reflexivity.
Qed.

(** With plain arguments the loop of the source computes the substitution
    of the specification. *)
Lemma substituteLoop_fill : forall args s,
  forallb plain (firstn (placeholderCount s) args) = true ->
  substituteLoop s args = fill s (firstn (placeholderCount s) args).
Proof.
  induction args as [|a rest IH]; intros s Hargs.
  - rewrite firstn_nil, fill_nil. reflexivity.
  - simpl substituteLoop. unfold includes, replace.
    pose proof (placeholderCount_split s) as Hcount.
    destruct (split_first "{}" s) as [[x y]|] eqn:E.
    + rewrite Hcount in *. simpl in Hargs. simpl firstn.
      apply andb_true_iff in Hargs. destruct Hargs as [Ha Hrest].
      assert (Hall : all_plain a = true).
      { unfold plain in Ha. apply andb_true_iff in Ha. apply Ha. }
      rewrite GetSubstitution_plain by exact Hall.
      rewrite (fill_split s x y a _ E).
      replace (x ++ a ++ y)%string with ((x ++ a) ++ y)%string
        by (rewrite !append_assoc; reflexivity).
      rewrite substituteLoop_inert
        by (try apply (inert_before_placeholder s x y a E Ha); assumption).
      rewrite IH by assumption. rewrite !append_assoc. reflexivity.
    + rewrite Hcount. simpl. rewrite fill_nil. reflexivity.
Qed.

Lemma placeholderCount_inert : forall P t,
  inert P -> placeholderCount (P ++ t) = placeholderCount t.
Proof.
  intros P t HP.
  pose proof (placeholderCount_split (P ++ t)) as H1.
  pose proof (placeholderCount_split t) as H2.
  rewrite HP in H1.
  destruct (split_first "{}" t) as [[x y]|]; congruence.
Qed.

Lemma placeholderCount_fill : forall args s,
  length args = placeholderCount s ->
  forallb plain args = true ->
  placeholderCount (fill s args) = O.
Proof.
  induction args as [|a rest IH]; intros s Hlen Hargs.
  - rewrite fill_nil. symmetry. exact Hlen.
  - simpl in Hlen, Hargs. apply andb_true_iff in Hargs. destruct Hargs as [Ha Hrest].
    pose proof (placeholderCount_split s) as Hcount.
    destruct (split_first "{}" s) as [[x y]|] eqn:E; [|congruence].
    rewrite (fill_split s x y a rest E).
    replace (x ++ a ++ fill y rest)%string with ((x ++ a) ++ fill y rest)%string
      by (rewrite !append_assoc; reflexivity).
    rewrite placeholderCount_inert
      by (apply (inert_before_placeholder s x y a E Ha)).
    apply IH; [congruence|assumption].
Qed.

(** C1, as amended.  When the command holds [n > 0] placeholders, at least
    [n] arguments are given and the first [n] of them are plain (not
    empty, without brace or dollar sign), the placeholder block yields the
    command with its placeholders filled from left to right by exactly the
    first [n] arguments, one each, and no placeholder is left.  Further
    arguments are not substituted; they are reported by a warning that
    carries the number of arguments and the number of placeholders. *)
Theorem handlePlaceholders_fills : forall commandString runtimeArgs,
  (0 < placeholderCount commandString)%nat ->
  (placeholderCount commandString <= length runtimeArgs)%nat ->
  forallb plain (firstn (placeholderCount commandString) runtimeArgs) = true ->
  handlePlaceholders commandString runtimeArgs
  = Ready (fill commandString
             (firstn (placeholderCount commandString) runtimeArgs))
          (if (placeholderCount commandString <? length runtimeArgs)%nat
           then [WarnExtraArguments (length runtimeArgs)
                   (placeholderCount commandString)]
           else [])
  /\ placeholderCount
       (fill commandString (firstn (placeholderCount commandString) runtimeArgs))
     = O.
Proof.
  intros commandString runtimeArgs Hpos Hlen Hplain. split.
  - unfold handlePlaceholders.
    destruct (Nat.ltb_spec 0 (placeholderCount commandString)); [|lia].
    destruct (Nat.ltb_spec (length runtimeArgs) (placeholderCount commandString));
      [lia|].
    rewrite substituteLoop_fill by exact Hplain. reflexivity.
  - apply placeholderCount_fill; [|exact Hplain].
    apply firstn_length_le. exact Hlen.
Qed.

Lemma handlePlaceholders_fills_witness :
  handlePlaceholders "echo {} {}" ["a"; "b"; "c"]
  = Ready "echo a b" [WarnExtraArguments 3 2]
  /\ placeholderCount "echo a b" = O.
Proof.
  apply (handlePlaceholders_fills "echo {} {}" ["a"; "b"; "c"]).
  - simpl. lia.
  - simpl. lia.
  - reflexivity.
Defined.

(** C1 as stated fails on the code.  The loop looks for the first
    placeholder of the text built so far, so a placeholder brought in by
    an argument is filled by the next one, and a third argument is
    substituted although the command has two placeholders; [replace] also
    expands the dollar patterns of an argument.  The warning for a surplus
    argument is the same whatever that argument is. *)
Lemma handlePlaceholders_not_first_arguments :
  handlePlaceholders "echo {} {}" ["{}"; "b"; "c"]
  = Ready "echo b c" [WarnExtraArguments 3 2]
  /\ fill "echo {} {}" (firstn (placeholderCount "echo {} {}") ["{}"; "b"; "c"])
     = "echo {} b"
  /\ ~ (exists warnings,
          handlePlaceholders "echo {} {}" ["{}"; "b"; "c"]
          = Ready (fill "echo {} {}"
                     (firstn (placeholderCount "echo {} {}") ["{}"; "b"; "c"]))
                  warnings)
  /\ handlePlaceholders "echo {}" ["$&"] = Ready "echo {}" []
  /\ handlePlaceholders "echo {} {}" ["a"; "b"; "c"]
     = handlePlaceholders "echo {} {}" ["a"; "b"; "zzz"].
Proof.
  repeat split; try reflexivity.
  intros [warnings H]. vm_compute in H. discriminate H.
Qed.

Section Invocation.

Context {codec : JsonCodec}.

(** C3. When the record found holds [n > 0] placeholders and fewer than
    [n] arguments are given, the placeholder block rejects the run with
    the required and the provided count and builds no command; the run
    prints that error after what reading the store printed, and nothing
    else happens: no confirmation is asked and nothing is executed,
    whatever the answers would have been. *)
Theorem handleRunCommand_insufficient_arguments :
  forall homedir specifier runtimeArgs confirm outcome d cmdToRun index,
  truthy specifier = true ->
  findCommandByIdOrAlias specifier (fst (readCommands d)) = Some (cmdToRun, index) ->
  (0 < placeholderCount (command cmdToRun))%nat ->
  (length runtimeArgs < placeholderCount (command cmdToRun))%nat ->
  handlePlaceholders (command cmdToRun) runtimeArgs
  = Rejected (ErrInsufficientArguments (placeholderCount (command cmdToRun))
                (length runtimeArgs))
  /\ handleRunCommand homedir specifier runtimeArgs confirm outcome d
     = map Say (snd (readCommands d))
       ++ [Say (ErrInsufficientArguments (placeholderCount (command cmdToRun))
                  (length runtimeArgs))]
  /\ (forall finalCommand,
        ~ In (Exec finalCommand)
            (handleRunCommand homedir specifier runtimeArgs confirm outcome d)).
Proof.
  intros homedir specifier runtimeArgs confirm outcome d cmdToRun index
         Hspec Hfound Hpos Hlen.
  assert (Hrej : handlePlaceholders (command cmdToRun) runtimeArgs
                 = Rejected (ErrInsufficientArguments
                               (placeholderCount (command cmdToRun))
                               (length runtimeArgs))).
  { unfold handlePlaceholders.
    destruct (Nat.ltb_spec 0 (placeholderCount (command cmdToRun))); [|lia].
    destruct (Nat.ltb_spec (length runtimeArgs)
                (placeholderCount (command cmdToRun))); [reflexivity|lia]. }
  assert (Hrun : handleRunCommand homedir specifier runtimeArgs confirm outcome d
                 = map Say (snd (readCommands d))
                   ++ [Say (ErrInsufficientArguments
                              (placeholderCount (command cmdToRun))
                              (length runtimeArgs))]).
  { unfold handleRunCommand, runCommand. rewrite Hspec. simpl negb. cbv iota.
    destruct (readCommands d) as [commands m0]. simpl in Hfound |- *.
    rewrite Hfound, Hrej. reflexivity. }
  split; [exact Hrej|]. split; [exact Hrun|].
  intros finalCommand Hin. rewrite Hrun in Hin.
  apply in_app_or in Hin. destruct Hin as [Hin|[Hin|[]]].
  - apply in_map_iff in Hin. destruct Hin as (m & Hm & _). discriminate Hm.
  - discriminate Hin.
Qed.

End Invocation.

Lemma handleRunCommand_insufficient_arguments_witness :
  handlePlaceholders "echo {} {}" ["a"] = Rejected (ErrInsufficientArguments 2 1)
  /\ handleRunCommand (codec := Unary.codec) "/home/u" "say" ["a"] true ExecOk
       (fst (writeCommands (codec := Unary.codec) noFaults
               [mkCommand 1 (Some "say") "echo {} {}" None] (mkDisk None None)))
     = [Say (ErrInsufficientArguments 2 1)]
  /\ (forall finalCommand,
        ~ In (Exec finalCommand)
            (handleRunCommand (codec := Unary.codec) "/home/u" "say" ["a"] true
               ExecOk
               (fst (writeCommands (codec := Unary.codec) noFaults
                       [mkCommand 1 (Some "say") "echo {} {}" None]
                       (mkDisk None None))))).
Proof.
  apply (handleRunCommand_insufficient_arguments (codec := Unary.codec)
           "/home/u" "say" ["a"] true ExecOk
           (fst (writeCommands (codec := Unary.codec) noFaults
                   [mkCommand 1 (Some "say") "echo {} {}" None] (mkDisk None None)))
           (mkCommand 1 (Some "say") "echo {} {}" None) O).
  - reflexivity.
  - reflexivity.
  - simpl. lia.
  - simpl. lia.
Defined.

(* ================================================================= *)
(** ** Decimal ids: [parseInt] reads back what [String] prints *)

Lemma parse_digits_acc : forall d p,
  parse_digits (NilEmpty.string_of_uint d) true (Zpos p)
  = Some (Zpos (Pos.of_uint_acc d p)).
Proof.
  induction d as [|d IH|d IH|d IH|d IH|d IH|d IH|d IH|d IH|d IH|d IH];
    intros p; simpl NilEmpty.string_of_uint; [reflexivity|..];
    cbn [parse_digits Pos.of_uint_acc];
    match goal with
    | |- context [digit_of ?c] =>
        let v := eval vm_compute in (digit_of c) in
        change (digit_of c) with v
    end;
    cbv iota; rewrite <- IH; f_equal; lia.
Qed.

Lemma parse_digits_uint : forall d,
  parse_digits (NilEmpty.string_of_uint d) true 0
  = Some (Z.of_N (Pos.of_uint d)).
Proof.
  induction d as [|d IH|d IH|d IH|d IH|d IH|d IH|d IH|d IH|d IH|d IH];
    simpl NilEmpty.string_of_uint; [reflexivity|..];
    cbn [parse_digits Pos.of_uint];
    match goal with
    | |- context [digit_of ?c] =>
        let v := eval vm_compute in (digit_of c) in
        change (digit_of c) with v
    end;
    cbv iota; [exact IH|..];
    (etransitivity; [|apply parse_digits_acc]); f_equal.
Qed.

Lemma parse_digits_uint_first : forall d,
  d <> Nil ->
  parse_digits (NilEmpty.string_of_uint d) false 0
  = Some (Z.of_N (Pos.of_uint d)).
Proof.
  intros d Hd. rewrite <- parse_digits_uint.
  destruct d; [congruence|..]; reflexivity.
Qed.

(** The decimal text of an id is a specifier that [parseInt] reads as
    that id. *)
Lemma parseInt_String_of_Z : forall z, parseInt (String_of_Z z) = Some z.
Proof.
  intros [|p|p]; [reflexivity|..]; unfold String_of_Z; simpl Z.to_int;
    pose proof (DecimalPos.Unsigned.of_to p) as Hp;
    assert (Hnil : Pos.to_uint p <> Nil)
      by (intros E; rewrite E in Hp; discriminate Hp).
  - simpl NilZero.string_of_int.
    replace (NilZero.string_of_uint (Pos.to_uint p))
      with (NilEmpty.string_of_uint (Pos.to_uint p))
      by (destruct (Pos.to_uint p); [congruence|..]; reflexivity).
    transitivity (parse_digits (NilEmpty.string_of_uint (Pos.to_uint p)) false 0).
    + destruct (Pos.to_uint p); [congruence|..]; reflexivity.
    + rewrite parse_digits_uint_first by exact Hnil. rewrite Hp. reflexivity.
  - simpl NilZero.string_of_int.
    replace (NilZero.string_of_uint (Pos.to_uint p))
      with (NilEmpty.string_of_uint (Pos.to_uint p))
      by (destruct (Pos.to_uint p); [congruence|..]; reflexivity).
    change (parseInt (String "-" (NilEmpty.string_of_uint (Pos.to_uint p))))
      with (option_map Z.opp
              (parse_digits (NilEmpty.string_of_uint (Pos.to_uint p)) false 0)).
    rewrite parse_digits_uint_first by exact Hnil. rewrite Hp. reflexivity.
Qed.

(* ================================================================= *)
(** ** Blank texts *)

Lemma trimEnd_not_ws : forall c s, is_ws c = false -> trimEnd (String c s) <> EmptyString.
Proof.
  intros c s Hc. simpl. rewrite Hc. destruct (trimEnd s); discriminate.
Qed.

Lemma trimStart_cases : forall s,
  (trimStart s = EmptyString /\ all_ws s = true)
  \/ (exists c r, trimStart s = String c r /\ is_ws c = false /\ all_ws s = false).
Proof.
  induction s as [|c s IH]; simpl.
  - left. split; reflexivity.
  - destruct (is_ws c) eqn:Hc; simpl.
    + exact IH.
    + right. exists c, s. repeat split; assumption.
Qed.

(** A text is trimmed to nothing exactly when it holds white space only. *)
Lemma trim_blank_iff : forall s, trim s = EmptyString <-> all_ws s = true.
Proof.
  intros s. unfold trim.
  destruct (trimStart_cases s) as [[-> Hall]|(c & r & -> & Hc & Hall)].
  - split; auto.
  - split; intros H.
    + exfalso. exact (trimEnd_not_ws c r Hc H).
    + congruence.
Qed.

Lemma trim_not_blank : forall c s, is_ws c = false -> trim (String c s) <> EmptyString.
Proof.
  intros c s Hc. unfold trim. simpl trimStart. rewrite Hc.
  apply trimEnd_not_ws. exact Hc.
Qed.

(* ================================================================= *)
(** ** The unary codec obeys the laws *)

Module UnaryFacts.
Import Unary.
#[local] Open Scope string_scope.

Lemma dec_nat_enc : forall n r, dec_nat (enc_nat n ++ r) = Some (n, r).
Proof.
  induction n as [|n IH]; intros r; simpl; [reflexivity|].
  rewrite IH. reflexivity.
Qed.

Lemma dec_Z_enc : forall z r, dec_Z (enc_Z z ++ r) = Some (z, r).
Proof.
  intros z r. unfold enc_Z, dec_Z.
  destruct (Z.ltb_spec z 0); simpl; unfold andThen, yield;
    rewrite dec_nat_enc; do 2 f_equal; rewrite Zabs2Nat.id_abs; lia.
Qed.

Lemma take_app : forall s r, take (String.length s) (s ++ r) = Some (s, r).
Proof.
  induction s as [|c s IH]; intros r; simpl; [reflexivity|].
  rewrite IH. reflexivity.
Qed.

Lemma dec_string_enc : forall s r, dec_string (enc_string s ++ r) = Some (s, r).
Proof.
  intros s r. unfold dec_string, enc_string, andThen.
  rewrite append_assoc, dec_nat_enc. apply take_app.
Qed.

Lemma dec_field_enc : forall f r, dec_field (enc_field f ++ r) = Some (f, r).
Proof.
  intros [| |s] r; simpl; try reflexivity.
  unfold andThen, yield. rewrite dec_string_enc. reflexivity.
Qed.

Lemma dec_id_enc : forall i r, dec_id (enc_id i ++ r) = Some (i, r).
Proof.
  intros [z|] r; simpl; try reflexivity.
  unfold andThen, yield.
  change (String (if (z <? 0)%Z then "-"%char else "+"%char)
            (enc_nat (Z.abs_nat z) ++ r))%string
    with (enc_Z z ++ r)%string.
  rewrite dec_Z_enc. reflexivity.
Qed.

Lemma dec_elem_enc : forall e r, dec_elem (enc_elem e ++ r) = Some (e, r).
Proof.
  intros [[i a c m]|] r; simpl; try reflexivity.
  unfold andThen, yield.
  rewrite !append_assoc, dec_id_enc, dec_field_enc, dec_field_enc, dec_field_enc.
  reflexivity.
Qed.

Lemma dec_elems_enc : forall l r,
  dec_elems (List.length l) (enc_elems l ++ r) = Some (l, r).
Proof.
  induction l as [|e l IH]; intros r; simpl; [reflexivity|].
  rewrite append_assoc, dec_elem_enc, IH. reflexivity.
Qed.

Lemma parse_after_stringify : forall j, parse (stringify j) = Some j.
Proof.
  intros [elems|n|]; cbn [stringify parse].
  - unfold andThen. rewrite dec_nat_enc.
    rewrite <- (append_nil_r (enc_elems elems)), dec_elems_enc. reflexivity.
  - rewrite <- (append_nil_r (enc_Z n)), dec_Z_enc. reflexivity.
  - reflexivity.
Qed.

Lemma stringify_starts_with_tag : forall j, trim (stringify j) <> EmptyString.
Proof.
  intros [elems|n|]; simpl stringify; apply trim_not_blank; reflexivity.
Qed.

#[export] Instance laws : JsonCodecLaws Unary.codec :=
  {| parse_stringify := fun j _ => parse_after_stringify j;
     stringify_not_blank := stringify_starts_with_tag |}.

(** The decoders read the same value from a text that goes on. *)
Lemma dec_nat_more : forall s n r t,
  dec_nat s = Some (n, r) -> dec_nat (s ++ t) = Some (n, r ++ t).
Proof.
  induction s as [|c s IH]; intros n r t H; [discriminate|].
  cbn [append]. simpl in H |- *.
  destruct c as [[] [] [] [] [] [] [] []]; try discriminate.
  - destruct (dec_nat s) as [[m r']|] eqn:E; [|discriminate].
    injection H as <- <-. rewrite (IH _ _ t eq_refl). reflexivity.
  - injection H as <- <-. reflexivity.
Qed.

Lemma take_more : forall n s x r t,
  take n s = Some (x, r) -> take n (s ++ t) = Some (x, r ++ t).
Proof.
  induction n as [|n IH]; intros s x r t H; simpl in *.
  - injection H as <- <-. reflexivity.
  - destruct s as [|c s]; [discriminate|]. cbn [append].
    destruct (take n s) as [[y r']|] eqn:E; [|discriminate].
    injection H as <- <-. rewrite (IH _ _ _ t E). reflexivity.
Qed.

Lemma dec_string_more : forall s x r t,
  dec_string s = Some (x, r) -> dec_string (s ++ t) = Some (x, r ++ t).
Proof.
  intros s x r t H. unfold dec_string, andThen in *.
  destruct (dec_nat s) as [[n r']|] eqn:E; [|discriminate].
  rewrite (dec_nat_more _ _ _ t E). apply take_more. exact H.
Qed.

Lemma dec_Z_more : forall s z r t,
  dec_Z s = Some (z, r) -> dec_Z (s ++ t) = Some (z, r ++ t).
Proof.
  intros [|c s] z r t H; [discriminate|]. cbn [append]. unfold dec_Z in *.
  destruct c as [[] [] [] [] [] [] [] []]; try discriminate;
    unfold andThen, yield in *;
    (destruct (dec_nat s) as [[n r']|] eqn:E; [|discriminate]);
    rewrite (dec_nat_more _ _ _ t E); injection H as <- <-; reflexivity.
Qed.

Lemma dec_field_more : forall s f r t,
  dec_field s = Some (f, r) -> dec_field (s ++ t) = Some (f, r ++ t).
Proof.
  intros [|c s] f r t H; [discriminate|]. cbn [append]. unfold dec_field in *.
  destruct c as [[] [] [] [] [] [] [] []]; try discriminate;
    try (injection H as <- <-; reflexivity).
  unfold andThen, yield in *.
  destruct (dec_string s) as [[x r']|] eqn:E; [|discriminate].
  rewrite (dec_string_more _ _ _ t E). injection H as <- <-. reflexivity.
Qed.

Lemma dec_id_more : forall s i r t,
  dec_id s = Some (i, r) -> dec_id (s ++ t) = Some (i, r ++ t).
Proof.
  intros [|c s] i r t H; [discriminate|]. cbn [append]. unfold dec_id in *.
  destruct c as [[] [] [] [] [] [] [] []]; try discriminate;
    try (injection H as <- <-; reflexivity).
  unfold andThen, yield in *.
  destruct (dec_Z s) as [[x r']|] eqn:E; [|discriminate].
  rewrite (dec_Z_more _ _ _ t E). injection H as <- <-. reflexivity.
Qed.

Lemma dec_elem_more : forall s e r t,
  dec_elem s = Some (e, r) -> dec_elem (s ++ t) = Some (e, r ++ t).
Proof.
  intros [|c s] e r t H; [discriminate|]. cbn [append]. unfold dec_elem in *.
  destruct c as [[] [] [] [] [] [] [] []]; try discriminate;
    try (injection H as <- <-; reflexivity).
  unfold andThen, yield in *.
  destruct (dec_id s) as [[i r1]|] eqn:E1; [|discriminate].
  rewrite (dec_id_more _ _ _ t E1).
  destruct (dec_field r1) as [[a r2]|] eqn:E2; [|discriminate].
  rewrite (dec_field_more _ _ _ t E2).
  destruct (dec_field r2) as [[m r3]|] eqn:E3; [|discriminate].
  rewrite (dec_field_more _ _ _ t E3).
  destruct (dec_field r3) as [[k r4]|] eqn:E4; [|discriminate].
  rewrite (dec_field_more _ _ _ t E4). injection H as <- <-. reflexivity.
Qed.

Lemma dec_elems_more : forall n s l r t,
  dec_elems n s = Some (l, r) -> dec_elems n (s ++ t) = Some (l, r ++ t).
Proof.
  induction n as [|n IH]; intros s l r t H; simpl in *.
  - injection H as <- <-. reflexivity.
  - destruct (dec_elem s) as [[e r1]|] eqn:E1; [|discriminate].
    rewrite (dec_elem_more _ _ _ t E1).
    destruct (dec_elems n r1) as [[l' r2]|] eqn:E2; [|discriminate].
    rewrite (IH _ _ _ t E2). injection H as <- <-. reflexivity.
Qed.

Lemma substring_cut : forall s written,
  (written < String.length s)%nat ->
  exists t, t <> EmptyString /\ s = substring 0 written s ++ t.
Proof.
  induction s as [|c s IH]; intros written H; simpl in H; [lia|].
  destruct written as [|written].
  - exists (String c s). split; [discriminate|reflexivity].
  - destruct (IH written) as (t & Ht & Hs); [lia|].
    exists t. split; [exact Ht|]. simpl. rewrite <- Hs. reflexivity.
Qed.

Lemma parse_of_cut_text : forall elems written elems',
  (written < String.length (stringify (JArray elems)))%nat ->
  parse (substring 0 written (stringify (JArray elems))) <> Some (JArray elems').
Proof.
  intros elems written elems' Hlt Hparse.
  destruct (substring_cut _ _ Hlt) as (t & Ht & Hs).
  pose proof (parse_after_stringify (JArray elems)) as Hfull.
  rewrite Hs in Hfull.
  destruct (substring 0 written (stringify (JArray elems))) as [|c p];
    [discriminate|].
  cbn [append] in Hfull. unfold parse in Hparse, Hfull.
  destruct c as [[] [] [] [] [] [] [] []]; try discriminate.
  unfold andThen in *.
  destruct (dec_nat p) as [[n r1]|] eqn:E1; [|discriminate].
  rewrite (dec_nat_more _ _ _ t E1) in Hfull.
  destruct (dec_elems n r1) as [[l r2]|] eqn:E2; [|discriminate].
  rewrite (dec_elems_more _ _ _ _ t E2) in Hfull.
  destruct r2 as [|? ?]; [|discriminate].
  cbn [append] in Hfull. destruct t as [|? ?]; [contradiction|discriminate].
Qed.

#[export] Instance prefixLaws : JsonPrefixLaws Unary.codec :=
  {| parse_cut_short := parse_of_cut_text |}.

End UnaryFacts.

(* ================================================================= *)
(** ** Loading the store *)

Lemma mapWithDefaults_None_iff : forall elems index,
  mapWithDefaults elems index = None <-> In None elems.
Proof.
  induction elems as [|[cmd|] rest IH]; intros index; simpl.
  - split; [discriminate|intros []].
  - specialize (IH (S index)).
    destruct (mapWithDefaults rest (S index)).
    + split; [discriminate|]. intros [H|H]; [discriminate|].
      apply IH in H. discriminate.
    + split; [|reflexivity]. intros _. right. apply IH. reflexivity.
  - split; [|reflexivity]. intros _. left. reflexivity.
Qed.

Section Loading.

Context {codec : JsonCodec}.

(** C5. [readCommands] returns for every state of the backing file, with
    the empty sequence and without any message when the file is absent or
    holds white space only; with the empty sequence and a diagnostic when
    the text is not JSON, when the document is not an array, and when an
    element of the array is [null].  Whenever a diagnostic is printed the
    sequence returned is empty. *)
Theorem readCommands_defensive : forall d,
  (commandsFile d = None -> readCommands d = ([], []))
  /\ (forall fileContent,
        commandsFile d = Some fileContent -> all_ws fileContent = true ->
        readCommands d = ([], []))
  /\ (forall fileContent,
        commandsFile d = Some fileContent -> all_ws fileContent = false ->
        JSON_parse fileContent = None ->
        readCommands d = ([], [ErrCorruptJson; WarnReturningEmptyDueToError]))
  /\ (forall fileContent document,
        commandsFile d = Some fileContent -> all_ws fileContent = false ->
        JSON_parse fileContent = Some document ->
        (forall elems, document <> JArray elems) ->
        readCommands d = ([], [ErrNotArray; WarnReturningEmpty]))
  /\ (forall fileContent elems,
        commandsFile d = Some fileContent -> all_ws fileContent = false ->
        JSON_parse fileContent = Some (JArray elems) -> In None elems ->
        readCommands d = ([], [ErrReadCommands; WarnReturningEmptyDueToError]))
  /\ (snd (readCommands d) <> [] -> fst (readCommands d) = []).
Proof.
  intros d. unfold readCommands.
  destruct (commandsFile d) as [text|].
  2:{ repeat split; try discriminate; try reflexivity. }
  assert (Hblank : all_ws text = true -> negb (truthy (trim text)) = true).
  { intros H. apply trim_blank_iff in H. rewrite H. reflexivity. }
  assert (Hfull : all_ws text = false -> negb (truthy (trim text)) = false).
  { intros H. destruct (trim text) eqn:E; [|reflexivity].
    apply trim_blank_iff in E. congruence. }
  split; [discriminate|].
  split. { intros ? [= <-] H. rewrite (Hblank H). reflexivity. }
  split. { intros ? [= <-] H Hp. rewrite (Hfull H), Hp. reflexivity. }
  split. { intros ? document [= <-] H Hp Hna. rewrite (Hfull H), Hp.
           destruct document as [elems| |]; try reflexivity.
           exfalso. apply (Hna elems). reflexivity. }
  split. { intros ? elems [= <-] H Hp Hnull. rewrite (Hfull H), Hp.
           apply (mapWithDefaults_None_iff elems 0) in Hnull.
           rewrite Hnull. reflexivity. }
  destruct (negb (truthy (trim text))); [intros H; reflexivity|].
  destruct (JSON_parse text) as [[elems| |]|]; try reflexivity.
  destruct (mapWithDefaults elems 0); [|reflexivity].
  simpl. intros H. contradiction.
Qed.

End Loading.

(** Instances of C5 with the unary codec: a blank file, a text that is
    not a document, a document that is not an array, an array with a
    [null] element. *)
Example readCommands_corrupt_files :
  readCommands (codec := Unary.codec) (mkDisk (Some "  ") None) = ([], [])
  /\ readCommands (codec := Unary.codec) (mkDisk (Some "{oops") None)
     = ([], [ErrCorruptJson; WarnReturningEmptyDueToError])
  /\ readCommands (codec := Unary.codec)
       (mkDisk (Some (Unary.stringify (JConfig 3))) None)
     = ([], [ErrNotArray; WarnReturningEmpty])
  /\ readCommands (codec := Unary.codec)
       (mkDisk (Some (Unary.stringify (JArray [None]))) None)
     = ([], [ErrReadCommands; WarnReturningEmptyDueToError]).
Proof. repeat split. Qed.

(* ================================================================= *)
(** ** Reading back what was written *)

Lemma or_false_idem : forall o, or_false (or_false o) = or_false o.
Proof. intros [[|c s]|]; reflexivity. Qed.

Lemma field_or_false_toField : forall o, field_or_false (toField o) = or_false o.
Proof. intros [s|]; reflexivity. Qed.

Lemma field_or_false_normal : forall f, or_false (field_or_false f) = field_or_false f.
Proof. intros [| |[|c s]]; reflexivity. Qed.

Lemma withDefaults_toRaw : forall c index,
  id c <> 0 -> withDefaults (toRaw c) index = restore c.
Proof.
  intros c index Hid. unfold restore, withDefaults. simpl.
  destruct (Z.eqb_spec (id c) 0); [contradiction|reflexivity].
Qed.

Lemma restore_id : forall c, id c <> 0 -> id (restore c) = id c.
Proof.
  intros c Hid. unfold restore. simpl.
  destruct (Z.eqb_spec (id c) 0); [contradiction|reflexivity].
Qed.

Lemma restore_normal : forall c, normal c -> restore c = c.
Proof.
  intros [i a c m] (Hid & Hc & Ha & Hm). simpl in *.
  unfold restore, withDefaults. simpl.
  rewrite !field_or_false_toField, Ha, Hm.
  destruct (Z.eqb_spec i 0); [contradiction|].
  unfold command_or_invalid. simpl. unfold or_false. simpl. rewrite Hc. reflexivity.
Qed.

Lemma withDefaults_normal : forall cmd index, normal (withDefaults cmd index).
Proof.
  intros [i a c m] index. unfold normal, withDefaults. simpl. repeat split.
  - unfold id_or_index. destruct i as [n|]; [destruct (Z.eqb_spec n 0)|]; lia.
  - unfold command_or_invalid. destruct c as [| |[|x s]]; reflexivity.
  - apply field_or_false_normal.
  - apply field_or_false_normal.
Qed.

Lemma mapWithDefaults_normal : forall elems index commands,
  mapWithDefaults elems index = Some commands -> Forall normal commands.
Proof.
  induction elems as [|[cmd|] rest IH]; intros index commands H; simpl in H.
  - injection H as <-. constructor.
  - destruct (mapWithDefaults rest (S index)) as [l|] eqn:E; [|discriminate].
    injection H as <-. constructor; [apply withDefaults_normal|].
    exact (IH _ _ E).
  - discriminate.
Qed.

Lemma mapWithDefaults_toRaw : forall commands index,
  Forall (fun c => id c <> 0) commands ->
  mapWithDefaults (map (fun c => Some (toRaw c)) commands) index
  = Some (map restore commands).
Proof.
  induction commands as [|c rest IH]; intros index H; simpl; [reflexivity|].
  inversion H as [|? ? Hc Hrest]; subst.
  rewrite IH by exact Hrest. rewrite withDefaults_toRaw by exact Hc. reflexivity.
Qed.

Lemma insertById_perm : forall c l, Permutation (insertById c l) (c :: l).
Proof.
  induction l as [|x l IH]; simpl; [reflexivity|].
  destruct (id c <=? id x); [reflexivity|].
  rewrite IH. apply perm_swap.
Qed.

Lemma sortById_perm : forall l, Permutation (sortById l) l.
Proof.
  induction l as [|c l IH]; simpl; [reflexivity|].
  rewrite insertById_perm. constructor. exact IH.
Qed.

Section StoreFacts.

Context {codec : JsonCodec} {laws : JsonCodecLaws codec}.

Lemma records_normal : forall d, Forall normal (records d).
Proof.
  intros d. unfold records, readCommands.
  destruct (commandsFile d) as [text|]; [|constructor].
  destruct (negb (truthy (trim text))); [constructor|].
  destruct (JSON_parse text) as [[elems| |]|]; try constructor.
  destruct (mapWithDefaults elems 0) eqn:E; [|constructor].
  exact (mapWithDefaults_normal _ _ _ E).
Qed.

Lemma stringify_truthy : forall j, negb (truthy (trim (JSON_stringify j))) = false.
Proof.
  intros j. pose proof (stringify_not_blank j) as H.
  destruct (trim (JSON_stringify j)); [congruence|reflexivity].
Qed.

(** What was written without fault is read back, sorted by id. *)
Lemma readCommands_writeCommands : forall commands d,
  Forall (fun c => id c <> 0) commands ->
  readCommands (fst (writeCommands noFaults commands d))
  = (map restore (sortById commands), []).
Proof.
  intros commands d H. unfold writeCommands, readCommands. simpl.
  rewrite stringify_truthy, parse_stringify by discriminate.
  rewrite mapWithDefaults_toRaw; [reflexivity|].
  apply (Permutation_Forall (x := commands)); [|exact H].
  symmetry. apply sortById_perm.
Qed.

Lemma counter_writeCommands : forall fw commands d,
  counter (fst (writeCommands fw commands d)) = counter d.
Proof.
  intros fw commands d. unfold counter, readConfig, writeCommands.
  destruct (writeFileSync _ _ _). reflexivity.
Qed.

Lemma readCommands_writeConfig : forall fw n d,
  readCommands (fst (writeConfig fw n d)) = readCommands d.
Proof.
  intros fw n d. unfold readCommands, writeConfig.
  destruct (writeFileSync _ _ _). reflexivity.
Qed.

Lemma counter_writeConfig : forall n d,
  counter (fst (writeConfig noFaults n d)) = Some n.
Proof.
  intros n d. unfold counter, readConfig, writeConfig. simpl.
  rewrite parse_stringify by discriminate. reflexivity.
Qed.

End StoreFacts.

(* ================================================================= *)
(** ** Create, then resolve *)

Lemma find_unique_match : forall specifier commands c,
  In c commands -> matches specifier c = true ->
  (forall c', In c' commands -> matches specifier c' = true -> c' = c) ->
  exists i, findCommandByIdOrAlias specifier commands = Some (c, i).
Proof.
  intros specifier commands c Hin Hm Huniq.
  unfold findCommandByIdOrAlias.
  pose proof (find_from_first (parseInt specifier) (toLowerCase specifier)
                commands 0) as H.
  destruct (find_from (parseInt specifier) (toLowerCase specifier) 0 commands)
    as [[cmd k]|].
  - destruct H as (j & _ & Hnth & Hcm & _).
    apply nth_error_In in Hnth.
    rewrite (Huniq cmd Hnth Hcm). eauto.
  - specialize (H c Hin). unfold matches in Hm. congruence.
Qed.

Lemma map_restore_normal : forall l, Forall normal l -> map restore l = l.
Proof.
  induction l as [|c l IH]; intros H; [reflexivity|].
  inversion H as [|? ? Hc Hl]; subst. simpl.
  rewrite restore_normal by exact Hc. rewrite IH by exact Hl. reflexivity.
Qed.

Lemma normal_nonzero : forall l,
  Forall normal l -> Forall (fun c => id c <> 0) l.
Proof. intros l H. eapply Forall_impl; [|exact H]. intros c Hc. apply Hc. Qed.

Lemma alias_matches_carries : forall a c,
  alias_matches (toLowerCase a) c = true -> carries_alias a c.
Proof.
  intros a c H. unfold alias_matches in H.
  destruct (alias c) as [ca|] eqn:E; [|discriminate].
  apply andb_true_iff in H. destruct H as [_ H]. apply String.eqb_eq in H.
  exists ca. split; [exact E|exact H].
Qed.

Section Create.

Context {codec : JsonCodec} {laws : JsonCodecLaws codec}.

(** C8, as amended.  Let the counter of the store be a number [n] other
    than zero that is the id of no stored record, and let the input be
    valid: a command that is not blank and, if an alias is given, one the
    prompt accepts.  Then the record is created with id [n] and the store
    holds it next to the old records.  A specifier that [parseInt] reads
    as [n], such as the decimal text of [n], resolves to the created
    record provided it is not the alias of an old record; the alias of the
    created record resolves to it provided [parseInt] does not read the
    alias as the id of an old record. *)
Theorem handleAddCommand_then_resolve : forall d response entered n,
  resp_command response = Some entered ->
  validateCommand entered = true ->
  (forall value, resp_alias response = Some value ->
     validateAlias (records d) value = true) ->
  counter d = Some n -> n <> 0 ->
  (forall c, In c (records d) -> id c <> n) ->
  let created :=
    {| id := n;
       alias := or_false (option_map trim (resp_alias response));
       command := trim entered;
       comment := or_false (option_map trim (resp_comment response)) |} in
  exists d' out,
    handleAddCommand noFaults response d = Some (d', out)
    /\ In (AddSuccess n (alias created)) out
    /\ (forall c, In c (records d') <-> c = created \/ In c (records d))
    /\ parseInt (String_of_Z n) = Some n
    /\ (forall specifier,
          parseInt specifier = Some n ->
          (forall c, In c (records d) ->
             alias_matches (toLowerCase specifier) c = false) ->
          exists i, findCommandByIdOrAlias specifier (records d') = Some (created, i))
    /\ (forall a,
          alias created = Some a ->
          (forall c, In c (records d) -> id_matches (parseInt a) c = false) ->
          exists i, findCommandByIdOrAlias a (records d') = Some (created, i)).
Proof.
  intros d response entered n Hcmd Hvalid Halias Hcounter Hn Hfresh created.
  pose proof (records_normal d) as Hnormal.
  assert (Hentered : truthy entered = true).
  { unfold validateCommand in Hvalid. destruct entered; [discriminate|reflexivity]. }
  assert (Hunique : truthy_opt (alias created) = true ->
                    isAliasUnique (alias created) (records d) None = true).
  { simpl. destruct (resp_alias response) as [value|] eqn:Hva; [|discriminate].
    simpl. unfold or_false. simpl.
    destruct (truthy (trim value)) eqn:Ht; [|discriminate]. intros _.
    specialize (Halias value eq_refl). unfold validateAlias in Halias.
    destruct value as [|x value]; [discriminate Ht|]. simpl truthy in Halias.
    simpl negb in Halias. cbv iota in Halias.
    destruct (has_space_or_colon (String x value)); [discriminate|exact Halias]. }
  assert (Hcreated : normal created).
  { unfold normal, created. simpl. repeat split; try apply or_false_idem.
    - exact Hn.
    - exact Hvalid. }
  unfold records in *. unfold counter in Hcounter.
  destruct (readCommands d) as [commands m0] eqn:Eread.
  destruct (readConfig d) as [stored m1] eqn:Econf.
  cbn [fst] in *. subst stored.
  destruct (writeConfig noFaults (n + 1) d) as [d1 m2] eqn:Ewc.
  assert (Hnoconflict :
            truthy_opt (alias created)
            && negb (isAliasUnique (alias created) commands None) = false).
  { destruct (truthy_opt (alias created)) eqn:Ht; [|reflexivity].
    rewrite (Hunique eq_refl). reflexivity. }
  assert (Hwritten : Forall normal (commands ++ [created])).
  { apply Forall_app. split; [exact Hnormal|]. constructor; [exact Hcreated|constructor]. }
  pose proof (readCommands_writeCommands (commands ++ [created]) d1
                (normal_nonzero _ Hwritten)) as Hback.
  destruct (writeCommands noFaults (commands ++ [created]) d1) as [d2 m3] eqn:Eww.
  cbn [fst] in Hback.
  assert (Hrecords : fst (readCommands d2) = sortById (commands ++ [created])).
  { rewrite Hback. cbn [fst]. apply map_restore_normal.
    apply (Permutation_Forall (x := commands ++ [created])); [|exact Hwritten].
    symmetry. apply sortById_perm. }
  assert (Hin : forall c, In c (fst (readCommands d2)) <-> c = created \/ In c commands).
  { intros c. rewrite Hrecords. split; intros H.
    - apply (Permutation_in _ (sortById_perm _)) in H.
      apply in_app_or in H. destruct H as [H|[H|[]]]; auto.
    - apply (Permutation_in _ (Permutation_sym (sortById_perm _))).
      apply in_or_app. destruct H as [->|H]; [right; left; reflexivity|left; exact H]. }
  assert (Hrun : handleAddCommand noFaults response d
                 = Some (d2, m0 ++ m1 ++ m2 ++ m3 ++ [AddSuccess n (alias created)])).
  { unfold handleAddCommand, getNextId. rewrite Eread, Econf, Ewc, Hcmd.
    cbn [truthy_opt]. rewrite Hentered. cbn [negb].
    change (or_false (option_map trim (resp_alias response))) with (alias created).
    rewrite Hnoconflict.
    replace (or_empty (Some entered)) with entered
      by (unfold or_empty, or_false; simpl; rewrite Hentered; reflexivity).
    change {| id := n; alias := alias created; command := trim entered;
              comment := or_false (option_map trim (resp_comment response)) |}
      with created.
    rewrite Eww. rewrite <- !app_assoc. reflexivity. }
  exists d2, (m0 ++ m1 ++ m2 ++ m3 ++ [AddSuccess n (alias created)]).
  split; [exact Hrun|].
  split. { rewrite !in_app_iff. do 4 right. left. reflexivity. }
  split; [exact Hin|].
  split; [apply parseInt_String_of_Z|].
  split.
  - intros specifier Hparse Hnoalias.
    apply find_unique_match.
    + apply Hin. left. reflexivity.
    + unfold matches. rewrite Hparse. simpl. rewrite Z.eqb_refl. reflexivity.
    + intros c' Hc' Hm. apply Hin in Hc'. destruct Hc' as [->|Hold]; [reflexivity|].
      exfalso. unfold matches in Hm. rewrite Hparse, (Hnoalias c' Hold) in Hm.
      simpl in Hm. rewrite orb_false_r in Hm. apply Z.eqb_eq in Hm.
      exact (Hfresh c' Hold Hm).
  - intros a Ha Hnoid.
    assert (Hta : truthy a = true).
    { pose proof (proj1 (proj2 (proj2 Hcreated))) as Hor. simpl in Hor, Ha.
      rewrite Ha in Hor. unfold or_false in Hor. simpl in Hor.
      destruct (truthy a); [reflexivity|discriminate]. }
    apply find_unique_match.
    + apply Hin. left. reflexivity.
    + unfold matches, alias_matches. rewrite Ha, Hta, String.eqb_refl.
      apply orb_true_r.
    + intros c' Hc' Hm. apply Hin in Hc'. destruct Hc' as [->|Hold]; [reflexivity|].
      exfalso. unfold matches in Hm. rewrite (Hnoid c' Hold) in Hm. simpl in Hm.
      apply alias_matches_carries in Hm.
      assert (Hu : isAliasUnique (Some a) commands None = true).
      { rewrite <- Ha. apply Hunique. rewrite Ha. exact Hta. }
      pose proof (proj1 (isAliasUnique_true_iff a commands None Hta) Hu c' Hold Hm)
        as Hx.
      discriminate Hx.
Qed.

End Create.

Lemma handleAddCommand_then_resolve_witness :
  exists d' out,
    handleAddCommand (codec := Unary.codec) noFaults
      (mkAddResponse (Some " pwd ") (Some "p") (Some "")) Demo.oneRecord
    = Some (d', out)
    /\ (exists i, findCommandByIdOrAlias "2" (records (codec := Unary.codec) d')
                  = Some (mkCommand 2 (Some "p") "pwd" None, i))
    /\ (exists i, findCommandByIdOrAlias "p" (records (codec := Unary.codec) d')
                  = Some (mkCommand 2 (Some "p") "pwd" None, i)).
Proof.
  destruct (handleAddCommand_then_resolve (codec := Unary.codec)
              (laws := UnaryFacts.laws) Demo.oneRecord
              (mkAddResponse (Some " pwd ") (Some "p") (Some "")) " pwd " 2)
    as (d' & out & Hrun & _ & _ & _ & Hid & Halias).
  - reflexivity.
  - reflexivity.
  - intros value [= <-]. reflexivity.
  - reflexivity.
  - lia.
  - intros c [<-|[]]. simpl. lia.
  - exists d', out. split; [exact Hrun|]. split.
    + apply Hid; [reflexivity|]. intros c [<-|[]]. reflexivity.
    + apply Halias; [reflexivity|]. intros c [<-|[]]. reflexivity.
Defined.

(** C8 as stated fails on the code.  In a store that holds record 1 and
    the counter 2, a record created with the valid alias ["1"] gets id 2,
    and resolving its alias returns record 1, whose id the alias spells.
    In a store whose counter file is missing the new record gets id 1
    again, and resolving that id returns the old record. *)
Lemma handleAddCommand_resolve_other_record :
  (validateCommand "pwd" = true
   /\ validateAlias (records (codec := Unary.codec) Demo.oneRecord) "1" = true
   /\ exists d' out,
        handleAddCommand (codec := Unary.codec) noFaults
          (mkAddResponse (Some "pwd") (Some "1") (Some "")) Demo.oneRecord
        = Some (d', out)
        /\ In (AddSuccess 2 (Some "1")) out
        /\ records (codec := Unary.codec) d'
           = [mkCommand 1 None "ls" None; mkCommand 2 (Some "1") "pwd" None]
        /\ findCommandByIdOrAlias "1" (records (codec := Unary.codec) d')
           = Some (mkCommand 1 None "ls" None, O))
  /\ (exists d' out,
        handleAddCommand (codec := Unary.codec) noFaults
          (mkAddResponse (Some "pwd") (Some "") (Some "")) Demo.counterLost
        = Some (d', out)
        /\ In (AddSuccess 1 None) out
        /\ records (codec := Unary.codec) d'
           = [mkCommand 1 None "ls" None; mkCommand 1 None "pwd" None]
        /\ findCommandByIdOrAlias (String_of_Z 1) (records (codec := Unary.codec) d')
           = Some (mkCommand 1 None "ls" None, O)).
Proof.
  split.
  - split; [reflexivity|]. split; [reflexivity|].
    eexists. eexists. split; [vm_compute; reflexivity|].
    split; [left; reflexivity|]. split; reflexivity.
  - eexists. eexists. split; [vm_compute; reflexivity|].
    split; [left; reflexivity|]. split; reflexivity.
Qed.

(* ================================================================= *)
(** ** Import: what the loops compute *)

Lemma String_eqb_sym : forall a b : string, String.eqb a b = String.eqb b a.
Proof.
  intros a b. destruct (String.eqb_spec a b) as [->|H].
  - symmetry. apply String.eqb_refl.
  - symmetry. apply String.eqb_neq. congruence.
Qed.

(** The scan of the lower-case aliases finds a text exactly when a record
    carries it as alias. *)
Lemma includes_aliasesLower : forall commands l x,
  aliasesLower commands = Some l ->
  includes_str l x = existsb (alias_matches x) commands.
Proof.
  induction commands as [|c rest IH]; intros l x H; simpl in H.
  - injection H as <-. reflexivity.
  - destruct (alias c) as [a|] eqn:Ea; [|discriminate].
    destruct (aliasesLower rest) as [l'|] eqn:El; [|discriminate].
    injection H as <-. simpl. unfold alias_matches at 1. rewrite Ea.
    rewrite <- (IH l' x eq_refl). rewrite truthy_toLowerCase.
    destruct (truthy a); simpl; [|reflexivity].
    rewrite String_eqb_sym. reflexivity.
Qed.

Lemma appendBody_spec : forall present nextId out impCmd present' nextId' out',
  appendBody present nextId out impCmd = Some (present', nextId', out') ->
  present' = present ++ [importedRecord present nextId impCmd]
  /\ nextId' = nextId + 1
  /\ out' = out
            ++ match field_or_false (raw_alias impCmd), keptAlias present impCmd with
               | Some a, None =>
                   [WarnAliasSkipped (trim a)
                      (substring 0 30 (trim (textOf (raw_command impCmd))))]
               | _, _ => []
               end.
Proof.
  intros present nextId out impCmd present' nextId' out' H.
  unfold appendBody in H. unfold importedRecord, keptAlias.
  destruct (raw_comment impCmd) as [| |s] eqn:Ec; simpl in H; try discriminate;
    destruct (field_or_false (raw_alias impCmd)) as [a|] eqn:Ea;
    try (injection H as <- <- <-; rewrite app_nil_r; auto);
    destruct (aliasesLower present) as [l|] eqn:El; try discriminate;
    rewrite (includes_aliasesLower present l _ El) in H;
    destruct (negb (has_space_or_colon (trim a))
              && negb (existsb (alias_matches (toLowerCase (trim a))) present));
    injection H as <- <- <-; rewrite ?app_nil_r; auto.
Qed.

Lemma appendLoop_spec : forall entries present nextId out present' nextId' out',
  appendLoop entries present nextId out = Completed present' nextId' out' ->
  present' = present ++ importedRecords present nextId entries
  /\ nextId' = nextId + Z.of_nat (length entries)
  /\ out' = out ++ importWarnings present nextId entries.
Proof.
  induction entries as [|impCmd rest IH];
    intros present nextId out present' nextId' out' H; simpl in H.
  - injection H as <- <- <-. simpl. rewrite !app_nil_r, Z.add_0_r. auto.
  - destruct (appendBody present nextId out impCmd) as [[[p1 n1] o1]|] eqn:Eb;
      [|discriminate].
    apply appendBody_spec in Eb. destruct Eb as (-> & -> & ->).
    apply IH in H. destruct H as (-> & -> & ->).
    cbn [importedRecords importWarnings length].
    rewrite <- !app_assoc. repeat split; try reflexivity. lia.
Qed.

Lemma importedRecords_length : forall entries present nextId,
  length (importedRecords present nextId entries) = length entries.
Proof.
  induction entries as [|e rest IH]; intros present nextId; simpl; [reflexivity|].
  rewrite IH. reflexivity.
Qed.

Lemma importedRecords_ids : forall entries present nextId k r,
  nth_error (importedRecords present nextId entries) k = Some r ->
  id r = nextId + Z.of_nat k.
Proof.
  induction entries as [|e rest IH]; intros present nextId k r H.
  - destruct k; discriminate.
  - destruct k as [|k]; simpl in H.
    + injection H as <-. simpl. lia.
    + apply IH in H. rewrite H. lia.
Qed.

Lemma importedRecords_id_range : forall entries present nextId r,
  In r (importedRecords present nextId entries) ->
  nextId <= id r < nextId + Z.of_nat (length entries).
Proof.
  intros entries present nextId r H.
  apply In_nth_error in H. destruct H as [k Hk].
  pose proof (importedRecords_ids _ _ _ _ _ Hk) as Hid.
  assert (k < length (importedRecords present nextId entries))%nat
    by (apply nth_error_Some; congruence).
  rewrite importedRecords_length in H. lia.
Qed.

Lemma aliasesLower_Some_iff : forall commands,
  forallb (fun c => not_false (alias c)) commands = true
  <-> exists l, aliasesLower commands = Some l.
Proof.
  induction commands as [|c rest IH]; simpl.
  - split; eauto.
  - destruct (alias c) as [a|]; simpl.
    + rewrite IH. split; intros [l H].
      * rewrite H. eauto.
      * destruct (aliasesLower rest); [eauto|discriminate].
    + split; [discriminate|]. intros [l H]. discriminate.
Qed.

Lemma appendBody_completes : forall present nextId out impCmd,
  entryCompletes present impCmd = true ->
  exists r, appendBody present nextId out impCmd = Some r.
Proof.
  intros present nextId out impCmd H. unfold entryCompletes in H.
  apply andb_true_iff in H. destruct H as [Hc Ha].
  unfold appendBody.
  destruct (raw_comment impCmd); try discriminate; simpl;
    destruct (field_or_false (raw_alias impCmd)); eauto;
    apply aliasesLower_Some_iff in Ha; destruct Ha as [l ->];
    match goal with |- context [if ?b then _ else _] => destruct b end; eauto.
Qed.

Lemma appendLoop_completes : forall entries present nextId out,
  batchCompletes present nextId entries = true ->
  appendLoop entries present nextId out
  = Completed (present ++ importedRecords present nextId entries)
      (nextId + Z.of_nat (length entries))
      (out ++ importWarnings present nextId entries).
Proof.
  induction entries as [|impCmd rest IH]; intros present nextId out H.
  - simpl. rewrite !app_nil_r, Z.add_0_r. reflexivity.
  - cbn [batchCompletes] in H. apply andb_true_iff in H. destruct H as [He Hrest].
    destruct (appendBody_completes present nextId out impCmd He) as [[[p1 n1] o1] Eb].
    cbn [appendLoop]. rewrite Eb.
    apply appendBody_spec in Eb. destruct Eb as (-> & -> & ->).
    rewrite IH by exact Hrest.
    cbn [importedRecords importWarnings length].
    rewrite <- !app_assoc. f_equal. lia.
Qed.

Lemma fold_maxCurrentId : forall commands m,
  m <= fold_left (fun m cmd => if Z.geb (id cmd) m then id cmd else m) commands m
  /\ forall c, In c commands ->
       id c <= fold_left (fun m cmd => if Z.geb (id cmd) m then id cmd else m)
                 commands m.
Proof.
  induction commands as [|x rest IH]; intros m; simpl.
  - split; [lia|]. intros c [].
  - destruct (IH (if Z.geb (id x) m then id x else m)) as [H1 H2].
    assert (Hm : m <= (if Z.geb (id x) m then id x else m)
                 /\ id x <= (if Z.geb (id x) m then id x else m)).
    { rewrite Z.geb_leb. destruct (Z.leb_spec m (id x)); lia. }
    split; [lia|]. intros c [<-|Hc]; [lia|]. apply H2. exact Hc.
Qed.

Lemma maxCurrentId_bound : forall commands,
  0 <= maxCurrentId commands
  /\ forall c, In c commands -> id c <= maxCurrentId commands.
Proof. intros commands. apply fold_maxCurrentId. Qed.

(** The first id an import issues is positive and greater than every id
    present, wherever the stored counter stands. *)
Lemma import_nextId_past_maximum : forall commands stored,
  let nextId :=
    if Z.leb stored (maxCurrentId commands)
    then maxCurrentId commands + 1 else stored in
  1 <= nextId /\ stored <= nextId /\ forall c, In c commands -> id c < nextId.
Proof.
  intros commands stored nextId. subst nextId.
  destruct (maxCurrentId_bound commands) as [H0 Hmax].
  destruct (Z.leb_spec stored (maxCurrentId commands)); repeat split; try lia;
    intros c Hc; specialize (Hmax c Hc); lia.
Qed.

Lemma importedRecords_nth : forall entries present nextId k r,
  nth_error (importedRecords present nextId entries) k = Some r ->
  exists impCmd,
    nth_error entries k = Some impCmd
    /\ r = importedRecord
             (present ++ firstn k (importedRecords present nextId entries))
             (nextId + Z.of_nat k) impCmd.
Proof.
  induction entries as [|e rest IH]; intros present nextId k r H.
  - destruct k; discriminate.
  - destruct k as [|k]; cbn [importedRecords nth_error firstn] in *.
    + injection H as <-. exists e. split; [reflexivity|].
      rewrite app_nil_r, Z.add_0_r. reflexivity.
    + apply IH in H. destruct H as (impCmd & Hn & ->).
      exists impCmd. split; [exact Hn|].
      rewrite <- app_assoc. cbn [app]. f_equal. lia.
Qed.

Lemma appendBody_throws : forall present nextId out impCmd,
  entryCompletes present impCmd = false ->
  appendBody present nextId out impCmd = None.
Proof.
  intros present nextId out impCmd H. unfold entryCompletes in H.
  unfold appendBody.
  destruct (raw_comment impCmd); simpl in *; try reflexivity;
    destruct (field_or_false (raw_alias impCmd)); try discriminate;
    destruct (aliasesLower present) as [l|] eqn:El; try reflexivity;
    assert (Hall : forallb (fun c => not_false (alias c)) present = true)
      by (apply aliasesLower_Some_iff; eauto);
    congruence.
Qed.

(** A batch that does not run through makes the append loop throw. *)
Lemma appendLoop_throws : forall entries present nextId out,
  batchCompletes present nextId entries = false ->
  exists out', appendLoop entries present nextId out = Threw out'.
Proof.
  induction entries as [|impCmd rest IH]; intros present nextId out H.
  - discriminate.
  - cbn [batchCompletes] in H. cbn [appendLoop].
    destruct (entryCompletes present impCmd) eqn:He.
    + destruct (appendBody_completes present nextId out impCmd He)
        as [[[p1 n1] o1] Eb].
      rewrite Eb. apply appendBody_spec in Eb. destruct Eb as (-> & -> & ->).
      apply IH. exact H.
    + rewrite (appendBody_throws _ _ _ _ He). eauto.
Qed.

Section ImportAppend.

Context {codec : JsonCodec} {laws : JsonCodecLaws codec}.

(** C7, as amended.  Take an import in append mode whose file is a JSON
    array with at least one entry that is an object with a string as
    command (the string may be empty), and which runs through: every
    stored record has an alias, no entry has the literal [false] as
    comment, and whenever an entry gives an alias every record present at
    that point has one.  Then every such entry is imported: the store
    afterwards holds the old records and one record per entry, so its size
    grows by the number of these entries; the new ids follow one another
    from a first id beyond every old id, and the counter ends behind the
    last.  The alias of an entry is kept, trimmed, exactly when the
    trimmed alias holds neither white space nor colon and no old record
    and no record imported before it carries it; otherwise the record is
    imported without alias, with a warning if an alias was given. *)
Theorem handleImportCommand_append : forall d fileContent elems stored confirm,
  JSON_parse fileContent = Some (JArray elems) ->
  filterValid elems <> [] ->
  counter d = Some stored ->
  let entries := filterValid elems in
  let current := records d in
  let nextId :=
    if Z.leb stored (maxCurrentId current)
    then maxCurrentId current + 1 else stored in
  let imported := importedRecords current nextId entries in
  forallb (fun c => not_false (alias c)) current = true ->
  batchCompletes current nextId entries = true ->
  exists d' out,
    handleImportCommand noFaults (Some fileContent) true confirm d = Some (d', out)
    /\ Permutation (records d') (current ++ map restore imported)
    /\ length (records d') = (length current + length entries)%nat
    /\ counter d' = Some (nextId + Z.of_nat (length entries))
    /\ (forall k r,
          nth_error imported k = Some r ->
          id r = nextId + Z.of_nat k
          /\ (forall c, In c current -> id c < id r)
          /\ exists impCmd,
               nth_error entries k = Some impCmd
               /\ alias r = keptAlias (current ++ firstn k imported) impCmd)
    /\ (forall w, In w (importWarnings current nextId entries) -> In w out).
Proof.
  intros d fileContent elems stored confirm Hparse Hvalid Hcounter
         entries current nextId imported Hscan Hbatch.
  destruct (import_nextId_past_maximum current stored) as (Hpos & Hmono & Hpast).
  fold nextId in Hpos, Hmono, Hpast.
  pose proof (records_normal d) as Hnormal. fold current in Hnormal.
  unfold records in current. unfold counter in Hcounter.
  destruct (readCommands d) as [commands m1] eqn:Eread.
  destruct (readConfig d) as [storedOpt m2] eqn:Econf.
  cbn [fst] in *. subst storedOpt. subst current.
  apply aliasesLower_Some_iff in Hscan. destruct Hscan as [l Hl].
  destruct (writeConfig noFaults (nextId + Z.of_nat (length entries)) d)
    as [d1 m3] eqn:Ewc.
  assert (Hids : Forall (fun c => id c <> 0) (commands ++ imported)).
  { apply Forall_app. split; [apply normal_nonzero; exact Hnormal|].
    apply Forall_forall. intros r Hr.
    apply importedRecords_id_range in Hr. lia. }
  pose proof (readCommands_writeCommands (commands ++ imported) d1 Hids) as Hback.
  destruct (writeCommands noFaults (commands ++ imported) d1) as [d2 m4] eqn:Eww.
  cbn [fst] in Hback.
  assert (Hrun : handleImportCommand noFaults (Some fileContent) true confirm d
                 = Some (d2, ([FoundPotential (length entries)] ++ m1 ++ m2)
                             ++ [Appending]
                             ++ importWarnings commands nextId entries
                             ++ m3 ++ m4
                             ++ [AppendSuccess (length entries);
                                 TotalNow (length (commands ++ imported))])).
  { assert (Hlen : (length entries =? 0)%nat = false).
    { unfold entries. destruct (filterValid elems); [contradiction|reflexivity]. }
    unfold handleImportCommand. rewrite Hparse. fold entries.
    rewrite Hlen, Eread, Econf. fold nextId. rewrite Hl.
    rewrite appendLoop_completes by exact Hbatch.
    fold imported. rewrite Ewc, Eww. rewrite <- !app_assoc. reflexivity. }
  assert (Hrecords : records d2 = map restore (sortById (commands ++ imported))).
  { unfold records. rewrite Hback. reflexivity. }
  assert (Hperm : Permutation (records d2) (commands ++ map restore imported)).
  { rewrite Hrecords.
    rewrite <- (map_restore_normal commands Hnormal) at 2.
    rewrite <- map_app. apply Permutation_map. apply sortById_perm. }
  eexists. eexists. split; [exact Hrun|].
  split; [exact Hperm|].
  split.
  { rewrite (Permutation_length Hperm), length_app, length_map.
    unfold imported. rewrite importedRecords_length. reflexivity. }
  split.
  { replace d2 with (fst (writeCommands noFaults (commands ++ imported) d1))
      by (rewrite Eww; reflexivity).
    rewrite counter_writeCommands.
    replace d1
      with (fst (writeConfig noFaults (nextId + Z.of_nat (length entries)) d))
      by (rewrite Ewc; reflexivity).
    apply counter_writeConfig. }
  split.
  - intros k r Hk.
    pose proof (importedRecords_ids _ _ _ _ _ Hk) as Hid.
    split; [exact Hid|]. split.
    + intros c Hc. specialize (Hpast c Hc). lia.
    + destruct (importedRecords_nth _ _ _ _ _ Hk) as (impCmd & Hn & ->).
      exists impCmd. split; [exact Hn|reflexivity].
  - intros w Hw. rewrite !in_app_iff. right. right. left. exact Hw.
Qed.

(** Any other import in append mode of at least one entry throws: the
    store is left as it was. *)
Lemma handleImportCommand_append_throws :
  forall fw d fileContent elems stored confirm,
  JSON_parse fileContent = Some (JArray elems) ->
  filterValid elems <> [] ->
  counter d = Some stored ->
  forallb (fun c => not_false (alias c)) (records d)
  && batchCompletes (records d)
       (if Z.leb stored (maxCurrentId (records d))
        then maxCurrentId (records d) + 1 else stored)
       (filterValid elems)
  = false ->
  exists out,
    handleImportCommand fw (Some fileContent) true confirm d = Some (d, out)
    /\ In UncaughtTypeError out.
Proof.
  intros fw d fileContent elems stored confirm Hparse Hvalid Hcounter Hfails.
  unfold handleImportCommand. rewrite Hparse.
  assert (Hlen : (length (filterValid elems) =? 0)%nat = false).
  { destruct (filterValid elems); [contradiction|reflexivity]. }
  rewrite Hlen. unfold records in Hfails. unfold counter in Hcounter.
  destruct (readCommands d) as [commands m1].
  destruct (readConfig d) as [storedOpt m2]. cbn [fst] in *. subst storedOpt.
  destruct (aliasesLower commands) as [l|] eqn:El.
  - assert (Hall : forallb (fun c => not_false (alias c)) commands = true)
      by (apply aliasesLower_Some_iff; eauto).
    rewrite Hall in Hfails. cbn [andb] in Hfails.
    match goal with
    | |- context [appendLoop ?e ?p ?n ?o] =>
        destruct (appendLoop_throws e p n o Hfails) as [out' ->]
    end.
    eexists. split; [reflexivity|]. apply in_or_app. right. left. reflexivity.
  - eexists. split; [reflexivity|]. apply in_or_app. right. right. left. reflexivity.
Qed.

End ImportAppend.

Lemma handleImportCommand_append_witness :
  exists d' out,
    handleImportCommand (codec := Unary.codec) noFaults
      (Some (Unary.stringify
               (JArray [ Some (mkRaw None (Text "deploy") (Text "make deploy") Missing);
                         None;
                         Some (mkRaw None (Text "Deploy") (Text "make all") Missing) ])))
      true false Demo.aliased
    = Some (d', out)
    /\ length (records (codec := Unary.codec) d') = 3%nat
    /\ counter (codec := Unary.codec) d' = Some 4
    /\ In (WarnAliasSkipped "Deploy" "make all") out.
Proof.
  destruct (handleImportCommand_append (codec := Unary.codec)
              (laws := UnaryFacts.laws) Demo.aliased
              (Unary.stringify
                 (JArray [ Some (mkRaw None (Text "deploy") (Text "make deploy") Missing);
                           None;
                           Some (mkRaw None (Text "Deploy") (Text "make all") Missing) ]))
              [ Some (mkRaw None (Text "deploy") (Text "make deploy") Missing);
                None;
                Some (mkRaw None (Text "Deploy") (Text "make all") Missing) ]
              2 false)
    as (d' & out & Hrun & _ & Hlen & Hcounter & _ & Hwarn).
  - reflexivity.
  - discriminate.
  - reflexivity.
  - reflexivity.
  - reflexivity.
  - exists d', out. split; [exact Hrun|]. split; [exact Hlen|].
    split; [exact Hcounter|]. apply Hwarn. left. reflexivity.
Defined.

(** C7 as stated fails on the code.  An entry whose command is the empty
    string is imported, so the store grows by more than the number of
    entries with a command that is not empty; an alias with white space
    around it is kept, trimmed.  And in a store that holds a record
    without alias the import throws before it writes anything. *)
Lemma handleImportCommand_append_not_as_stated :
  (exists d' out,
     handleImportCommand (codec := Unary.codec) noFaults
       (Some (Unary.stringify
                (JArray [ Some (mkRaw None (Text " x ") (Text "") Missing) ])))
       true false Demo.aliased
     = Some (d', out)
     /\ length (filter hasNonEmptyCommand
                  [ Some (mkRaw None (Text " x ") (Text "") Missing) ]) = O
     /\ records (codec := Unary.codec) Demo.aliased
        = [mkCommand 1 (Some "build") "make" None]
     /\ records (codec := Unary.codec) d'
        = [ mkCommand 1 (Some "build") "make" None;
            mkCommand 2 (Some "x") "INVALID_COMMAND" None ])
  /\ handleImportCommand (codec := Unary.codec) noFaults
       (Some (Unary.stringify
                (JArray [ Some (mkRaw None Missing (Text "pwd") Missing) ])))
       true false Demo.oneRecord
     = Some (Demo.oneRecord, [FoundPotential 1; Appending; UncaughtTypeError]).
Proof.
  split.
  - eexists. eexists. split; [vm_compute; reflexivity|]. repeat split.
  - reflexivity.
Qed.

(* ================================================================= *)
(** ** The counter invariant *)

Lemma In_remove_nth : forall index l c, In c (remove_nth index l) -> In c l.
Proof.
  intros index l. revert index.
  induction l as [|x l IH]; intros [|i] c H; simpl in *; auto.
  destruct H as [<-|H]; eauto.
Qed.

Lemma In_set_nth : forall index e l c, In c (set_nth index e l) -> c = e \/ In c l.
Proof.
  intros index e l. revert index.
  induction l as [|x l IH]; intros [|i] c H; simpl in *; auto.
  - destruct H as [<-|H]; auto.
  - destruct H as [<-|H]; auto. destruct (IH i c H); auto.
Qed.

Lemma findCommandByIdOrAlias_In : forall specifier commands cmd index,
  findCommandByIdOrAlias specifier commands = Some (cmd, index) ->
  In cmd commands.
Proof.
  intros specifier commands cmd index H. unfold findCommandByIdOrAlias in H.
  pose proof (find_from_first (parseInt specifier) (toLowerCase specifier)
                commands 0) as Hf.
  rewrite H in Hf. destruct Hf as (j & _ & Hnth & _).
  exact (nth_error_In _ _ Hnth).
Qed.

Lemma replaceLoop_spec :
  forall entries seen present nextId out present' nextId' out',
  replaceLoop entries seen present nextId out = Completed present' nextId' out' ->
  nextId' = nextId + Z.of_nat (length entries)
  /\ exists news,
       present' = present ++ news
       /\ length news = length entries
       /\ forall r, In r news -> nextId <= id r < nextId'.
Proof.
  induction entries as [|impCmd rest IH];
    intros seen present nextId out present' nextId' out' H; simpl in H.
  - injection H as <- <- <-. split; [simpl; lia|].
    exists []. rewrite app_nil_r. split; [reflexivity|]. split; [reflexivity|].
    intros r [].
  - destruct (importedComment (raw_comment impCmd)) as [text|]; [|discriminate].
    assert (Hstep : forall seen' r out1,
              id r = nextId ->
              replaceLoop rest seen' (present ++ [r]) (nextId + 1) out1
              = Completed present' nextId' out' ->
              nextId' = nextId + Z.of_nat (length (impCmd :: rest))
              /\ exists news,
                   present' = present ++ news
                   /\ length news = length (impCmd :: rest)
                   /\ forall r, In r news -> nextId <= id r < nextId').
    { intros seen' r0 out1 Hr Hloop. apply IH in Hloop.
      destruct Hloop as (-> & news & -> & Hlen & Hrange).
      split; [simpl length; lia|].
      exists (r0 :: news). rewrite <- app_assoc. split; [reflexivity|].
      split; [simpl; lia|].
      intros x [<-|Hx]; [simpl length; lia|].
      specialize (Hrange x Hx). simpl length. lia. }
    destruct (field_or_false (raw_alias impCmd)) as [a|].
    + destruct (negb (has_space_or_colon (trim a))
                && negb (includes_str seen (toLowerCase (trim a))));
        eapply Hstep; try exact H; reflexivity.
    + eapply Hstep; try exact H; reflexivity.
Qed.

Section Invariant.

Context {codec : JsonCodec} {laws : JsonCodecLaws codec}.

Lemma counterInvariant_after_write : forall d commands n,
  counter d = Some n -> 1 <= n ->
  (forall c, In c commands -> id c <> 0 /\ id c < n) ->
  counterInvariant (fst (writeCommands noFaults commands d)).
Proof.
  intros d commands n Hcounter Hn Hids.
  exists n. split; [rewrite counter_writeCommands; exact Hcounter|].
  split; [exact Hn|].
  intros c Hc. unfold records in Hc.
  rewrite readCommands_writeCommands in Hc
    by (apply Forall_forall; intros x Hx; apply (Hids x Hx)).
  cbn [fst] in Hc. apply in_map_iff in Hc. destruct Hc as (x & <- & Hx).
  apply (Permutation_in _ (sortById_perm _)) in Hx.
  destruct (Hids x Hx) as [H0 Hlt]. rewrite restore_id by exact H0. exact Hlt.
Qed.

Lemma records_nonzero : forall d c, In c (records d) -> id c <> 0.
Proof.
  intros d c Hc. pose proof (records_normal d) as H.
  rewrite Forall_forall in H. apply (H c Hc).
Qed.

End Invariant.

Section Preservation.

Context {codec : JsonCodec} {laws : JsonCodecLaws codec}.

Lemma counterInvariant_after_both : forall d commands n,
  1 <= n ->
  (forall c, In c commands -> id c <> 0 /\ id c < n) ->
  counterInvariant
    (fst (writeCommands noFaults commands (fst (writeConfig noFaults n d))))
  /\ counter (fst (writeCommands noFaults commands (fst (writeConfig noFaults n d))))
     = Some n.
Proof.
  intros d commands n Hn Hids. split.
  - apply (counterInvariant_after_write _ _ n); try assumption.
    apply counter_writeConfig.
  - rewrite counter_writeCommands. apply counter_writeConfig.
Qed.

Lemma counterInvariant_after_writeConfig : forall d n n',
  counter d = Some n -> 1 <= n -> (forall c, In c (records d) -> id c < n) ->
  n <= n' ->
  counterInvariant (fst (writeConfig noFaults n' d)).
Proof.
  intros d n n' Hc Hn Hids Hle. exists n'.
  split; [apply counter_writeConfig|]. split; [lia|].
  intros c Hin. unfold records in Hin. rewrite readCommands_writeConfig in Hin.
  specialize (Hids c Hin). lia.
Qed.

(** What an import does to the counter, wherever the counter stood: it
    leaves the store as it was, or it leaves a store in which the
    invariant holds and the counter has not gone down. *)
(** The operation returns the store as it found it. *)
Ltac unchanged :=
  solve [eexists; eexists; split; [reflexivity|left; reflexivity]].

Lemma handleImportCommand_effect : forall d stored importFile appendMode confirm,
  counter d = Some stored ->
  exists d' out,
    handleImportCommand noFaults importFile appendMode confirm d = Some (d', out)
    /\ (d' = d
        \/ (counterInvariant d'
            /\ exists n', counter d' = Some n' /\ stored <= n')).
Proof.
  intros d stored importFile appendMode confirm Hcounter.
  unfold handleImportCommand.
  destruct importFile as [fileContent|]; [|unchanged].
  destruct (JSON_parse fileContent) as [[elems| |]|]; try unchanged.
  destruct (length (filterValid elems) =? 0)%nat; [unchanged|].
  pose proof (records_nonzero d) as Hnonzero.
  unfold counter in Hcounter. unfold records in Hnonzero.
  destruct (readCommands d) as [commands m1].
  destruct (readConfig d) as [storedOpt m2]. cbn [fst] in *. subst storedOpt.
  destruct (import_nextId_past_maximum commands stored) as (Hpos & Hmono & Hpast).
  set (nextId := if stored <=? maxCurrentId commands
                 then maxCurrentId commands + 1 else stored) in *.
  destruct appendMode.
  - destruct (aliasesLower commands) as [l|]; [|unchanged].
    destruct (appendLoop (filterValid elems) commands nextId _)
      as [written nextId' out'|out'] eqn:Eloop; [|unchanged].
    apply appendLoop_spec in Eloop. destruct Eloop as (-> & -> & ->).
    pose proof (counterInvariant_after_both d
                  (commands ++ importedRecords commands nextId (filterValid elems))
                  (nextId + Z.of_nat (length (filterValid elems)))) as Hafter.
    destruct (writeConfig noFaults _ d) as [d1 m3]. cbn [fst] in Hafter.
    destruct (writeCommands noFaults _ d1) as [d2 m4]. cbn [fst] in Hafter.
    eexists. eexists. split; [reflexivity|]. right.
    destruct Hafter as [Hinv Hc]; [lia| |].
    + intros c Hc. apply in_app_or in Hc. destruct Hc as [Hc|Hc].
      * split; [apply Hnonzero; exact Hc|]. specialize (Hpast c Hc). lia.
      * apply importedRecords_id_range in Hc. lia.
    + split; [exact Hinv|]. eexists. split; [exact Hc|]. lia.
  - destruct confirm; [|unchanged]. cbn [negb].
    destruct (replaceLoop (filterValid elems) [] [] nextId _)
      as [written nextId' out'|out'] eqn:Eloop; [|unchanged].
    apply replaceLoop_spec in Eloop.
    destruct Eloop as (-> & news & -> & Hlen & Hrange).
    pose proof (counterInvariant_after_both d ([] ++ news)
                  (nextId + Z.of_nat (length (filterValid elems)))) as Hafter.
    destruct (writeConfig noFaults _ d) as [d1 m3]. cbn [fst] in Hafter.
    destruct (writeCommands noFaults _ d1) as [d2 m4]. cbn [fst] in Hafter.
    eexists. eexists. split; [reflexivity|]. right.
    destruct Hafter as [Hinv Hc]; [lia| |].
    + intros c Hc. cbn [app] in Hc. specialize (Hrange c Hc). lia.
    + split; [exact Hinv|]. eexists. split; [exact Hc|]. lia.
Qed.

Lemma handleAddCommand_effect : forall d response,
  counterInvariant d ->
  exists d' out,
    handleAddCommand noFaults response d = Some (d', out)
    /\ counterInvariant d'
    /\ exists n n', counter d = Some n /\ counter d' = Some n' /\ n <= n'.
Proof.
  intros d response Hinv.
  pose proof (records_nonzero d) as Hnonzero.
  pose proof Hinv as (n & Hcounter & Hn & Hids).
  unfold handleAddCommand, getNextId.
  pose proof (counterInvariant_after_writeConfig d n (n + 1) Hcounter Hn Hids)
    as Hconfig.
  pose proof (counter_writeConfig (n + 1) d) as Hc1.
  pose proof Hcounter as Hstored.
  unfold counter in Hstored. unfold records in Hids, Hnonzero.
  destruct (readCommands d) as [commands m0].
  destruct (negb (truthy_opt (resp_command response))).
  { eexists. eexists. split; [reflexivity|]. split; [exact Hinv|].
    exists n, n. repeat split; try assumption. lia. }
  destruct (readConfig d) as [storedOpt m1]. cbn [fst] in *. subst storedOpt.
  pose proof (fun w => counterInvariant_after_write
                         (fst (writeConfig noFaults (n + 1) d)) w (n + 1) Hc1)
    as Hwrite.
  pose proof (fun w => counter_writeCommands noFaults w
                         (fst (writeConfig noFaults (n + 1) d))) as Hc2.
  destruct (writeConfig noFaults (n + 1) d) as [d1 m2]. cbn [fst] in *.
  match goal with
  | |- context [if ?b then _ else _] => destruct b
  end.
  { eexists. eexists. split; [reflexivity|]. split; [apply Hconfig; lia|].
    exists n, (n + 1). repeat split; try assumption. lia. }
  match goal with
  | |- context [writeCommands noFaults ?w d1] =>
      specialize (Hwrite w); specialize (Hc2 w);
      destruct (writeCommands noFaults w d1) as [d2 m3]
  end.
  cbn [fst] in *.
  eexists. eexists. split; [reflexivity|]. split.
  - apply Hwrite; [lia|]. intros c Hc. apply in_app_or in Hc.
    destruct Hc as [Hc|[<-|[]]].
    + split; [apply Hnonzero; exact Hc|]. specialize (Hids c Hc). lia.
    + simpl. lia.
  - exists n, (n + 1). repeat split; try congruence. lia.
Qed.

Lemma handleDeleteCommand_effect : forall d specifier confirm,
  counterInvariant d ->
  counterInvariant (fst (handleDeleteCommand noFaults specifier confirm d))
  /\ counter (fst (handleDeleteCommand noFaults specifier confirm d)) = counter d.
Proof.
  intros d specifier confirm Hinv.
  pose proof (records_nonzero d) as Hnonzero.
  pose proof Hinv as (n & Hcounter & Hn & Hids).
  unfold handleDeleteCommand.
  destruct (negb (truthy specifier)); [auto|].
  unfold records in Hids, Hnonzero.
  destruct (readCommands d) as [commands m0]. cbn [fst] in *.
  destruct (findCommandByIdOrAlias specifier commands) as [[cmd index]|]; [|auto].
  destruct confirm; [|auto].
  pose proof (counterInvariant_after_write d (remove_nth index commands) n
                Hcounter Hn) as Hwrite.
  pose proof (counter_writeCommands noFaults (remove_nth index commands) d) as Hc.
  destruct (writeCommands noFaults _ d) as [d' m1]. cbn [fst] in *.
  split; [|exact Hc]. apply Hwrite. intros c Hin.
  apply In_remove_nth in Hin. split; [apply Hnonzero|apply Hids]; exact Hin.
Qed.

Lemma handleEditCommand_effect : forall d specifier response,
  counterInvariant d ->
  counterInvariant (fst (handleEditCommand noFaults specifier response d))
  /\ counter (fst (handleEditCommand noFaults specifier response d)) = counter d.
Proof.
  intros d specifier response Hinv.
  pose proof (records_nonzero d) as Hnonzero.
  pose proof Hinv as (n & Hcounter & Hn & Hids).
  unfold handleEditCommand.
  destruct (negb (truthy specifier)); [auto|].
  unfold records in Hids, Hnonzero.
  destruct (readCommands d) as [commands m0]. cbn [fst] in *.
  destruct (findCommandByIdOrAlias specifier commands) as [[cmd index]|] eqn:Ef;
    [|auto].
  apply findCommandByIdOrAlias_In in Ef.
  destruct (newCommand response) as [entered|]; [|auto].
  destruct (newAlias response) as [aliasInput|]; [|auto].
  destruct (newComment response) as [commentInput|]; [|auto].
  destruct (editField (alias cmd) aliasInput) as [finalAlias changed2].
  destruct (editField (comment cmd) commentInput) as [finalComment changed3].
  match goal with
  | |- context [if ?b then _ else _] => destruct b; [|auto]
  end.
  match goal with
  | |- context [if ?b then _ else _] => destruct b; [auto|]
  end.
  match goal with
  | |- context [writeCommands noFaults ?w d] =>
      pose proof (counterInvariant_after_write d w n Hcounter Hn) as Hwrite;
      pose proof (counter_writeCommands noFaults w d) as Hc
  end.
  destruct (writeCommands noFaults _ d) as [d' m1]. cbn [fst] in *.
  split; [|exact Hc]. apply Hwrite. intros c Hin.
  apply In_set_nth in Hin. destruct Hin as [->|Hin].
  - simpl. split; [apply Hnonzero|apply Hids]; exact Ef.
  - split; [apply Hnonzero|apply Hids]; exact Hin.
Qed.

End Preservation.

Section CounterInvariant.

Context {codec : JsonCodec} {laws : JsonCodecLaws codec}.

(** Under the invariant the counter is an id that is free, as creating a
    record requires. *)
Lemma counterInvariant_fresh : forall d,
  counterInvariant d ->
  exists n, counter d = Some n /\ n <> 0 /\ forall c, In c (records d) -> id c <> n.
Proof.
  intros d (n & Hc & Hn & Hids). exists n. split; [exact Hc|]. split; [lia|].
  intros c Hin. specialize (Hids c Hin). lia.
Qed.

Lemma perform_preserves : forall d op,
  counterInvariant d ->
  exists d',
    perform op d = Some d'
    /\ counterInvariant d'
    /\ exists n n', counter d = Some n /\ counter d' = Some n' /\ n <= n'.
Proof.
  intros d op Hinv. pose proof Hinv as (n & Hcounter & Hn & Hids).
  destruct op as [response|specifier confirm|specifier response
                 |importFile appendMode confirm]; unfold perform, run;
    cbn [option_map].
  - destruct (handleAddCommand_effect d response Hinv)
      as (d' & out & -> & Hinv' & Hmono).
    exists d'. auto.
  - destruct (handleDeleteCommand_effect d specifier confirm Hinv) as [Hinv' Hc].
    eexists. split; [reflexivity|]. split; [exact Hinv'|].
    exists n, n. rewrite Hc. repeat split; try assumption. lia.
  - destruct (handleEditCommand_effect d specifier response Hinv) as [Hinv' Hc].
    eexists. split; [reflexivity|]. split; [exact Hinv'|].
    exists n, n. rewrite Hc. repeat split; try assumption. lia.
  - destruct (handleImportCommand_effect d n importFile appendMode confirm Hcounter)
      as (d' & out & -> & [->|(Hinv' & n' & Hc' & Hle)]).
    + exists d. split; [reflexivity|]. split; [exact Hinv|].
      exists n, n. repeat split; try assumption. lia.
    + exists d'. split; [reflexivity|]. split; [exact Hinv'|].
      exists n, n'. auto.
Qed.

End CounterInvariant.

Lemma substring_whole : forall s n,
  (String.length s <= n)%nat -> substring 0 n s = s.
Proof.
  induction s as [|c s IH]; intros n H.
  - destruct n; reflexivity.
  - destruct n as [|n]; simpl in H; [lia|].
    simpl. rewrite IH by lia. reflexivity.
Qed.

(** The operation returns the store as it found it. *)
Ltac returns_unchanged :=
  solve [eexists; eexists; split; [reflexivity|left; reflexivity]].

Section FaultyWrites.

Context {codec : JsonCodec} {laws : JsonCodecLaws codec}
        {cut : JsonPrefixLaws codec}.

(** What the store holds after a write of the records file, whatever
    fault the write meets: the records of before, the records written,
    or, after a write cut short, none. *)
Lemma records_after_write : forall fw commands d,
  Forall (fun c => id c <> 0) commands ->
  records (fst (writeCommands fw commands d)) = records d
  \/ records (fst (writeCommands fw commands d)) = map restore (sortById commands)
  \/ records (fst (writeCommands fw commands d)) = [].
Proof.
  intros [cf wf] commands d Hnz.
  assert (Hfull : records (fst (writeCommands noFaults commands d))
                  = map restore (sortById commands)).
  { unfold records. rewrite readCommands_writeCommands by exact Hnz. reflexivity. }
  destruct wf as [| |written].
  - right. left. exact Hfull.
  - left. reflexivity.
  - destruct (Nat.le_gt_cases (String.length (intended commands)) written)
      as [Hle|Hlt].
    + right. left. rewrite <- Hfull.
      unfold records, readCommands, writeCommands, writeFileSync.
      cbn [onCommandsWrite fst commandsFile noFaults].
      fold (intended commands). rewrite (substring_whole _ _ Hle). reflexivity.
    + right. right.
      unfold records, readCommands, writeCommands, writeFileSync.
      cbn [onCommandsWrite fst commandsFile].
      destruct (negb (truthy (trim _))); [reflexivity|].
      fold (intended commands).
      destruct (JSON_parse (substring 0 written (intended commands)))
        as [[elems| |]|] eqn:Eparse; try reflexivity.
      exfalso. exact (parse_cut_short _ _ _ Hlt Eparse).
Qed.

Lemma counterInvariant_after_any_write : forall fw commands d n,
  counter d = Some n -> 1 <= n ->
  (forall c, In c (records d) -> id c < n) ->
  (forall c, In c commands -> id c <> 0 /\ id c < n) ->
  counterInvariant (fst (writeCommands fw commands d)).
Proof.
  intros fw commands d n Hcounter Hn Hold Hids.
  exists n. split; [rewrite counter_writeCommands; exact Hcounter|].
  split; [exact Hn|]. intros c Hc.
  destruct (records_after_write fw commands d) as [H|[H|H]];
    [apply Forall_forall; intros x Hx; apply (Hids x Hx)| | |];
    rewrite H in Hc.
  - exact (Hold c Hc).
  - apply in_map_iff in Hc. destruct Hc as (x & <- & Hx).
    apply (Permutation_in _ (sortById_perm _)) in Hx.
    destruct (Hids x Hx) as [H0 Hlt]. rewrite restore_id by exact H0. exact Hlt.
  - destruct Hc.
Qed.

(** The write of the counter file completes. *)
Lemma writeConfig_completes : forall wf n d,
  writeConfig (mkFaults NoFault wf) n d = writeConfig noFaults n d.
Proof. reflexivity. Qed.

Lemma counterInvariant_after_config_and_write : forall wf d commands n,
  1 <= n ->
  (forall c, In c (records d) -> id c < n) ->
  (forall c, In c commands -> id c <> 0 /\ id c < n) ->
  counterInvariant
    (fst (writeCommands (mkFaults NoFault wf) commands
            (fst (writeConfig noFaults n d))))
  /\ counter (fst (writeCommands (mkFaults NoFault wf) commands
                     (fst (writeConfig noFaults n d))))
     = Some n.
Proof.
  intros wf d commands n Hn Hold Hids. split.
  - apply (counterInvariant_after_any_write _ _ _ n); try assumption.
    apply counter_writeConfig.
  - rewrite counter_writeCommands. apply counter_writeConfig.
Qed.

Lemma handleImportCommand_keeps : forall wf d stored importFile appendMode confirm,
  counter d = Some stored ->
  exists d' out,
    handleImportCommand (mkFaults NoFault wf) importFile appendMode confirm d
    = Some (d', out)
    /\ (d' = d
        \/ (counterInvariant d'
            /\ exists n', counter d' = Some n' /\ stored <= n')).
Proof.
  intros wf d stored importFile appendMode confirm Hcounter.
  unfold handleImportCommand.
  destruct importFile as [fileContent|]; [|returns_unchanged].
  destruct (JSON_parse fileContent) as [[elems| |]|]; try returns_unchanged.
  destruct (length (filterValid elems) =? 0)%nat; [returns_unchanged|].
  pose proof (records_nonzero d) as Hnonzero.
  unfold counter in Hcounter.
  pose proof (fun w n => counterInvariant_after_config_and_write wf d w n) as Hafter.
  unfold records in Hnonzero, Hafter.
  destruct (readCommands d) as [commands m1].
  destruct (readConfig d) as [storedOpt m2]. cbn [fst] in *. subst storedOpt.
  destruct (import_nextId_past_maximum commands stored) as (Hpos & Hmono & Hpast).
  set (nextId := if stored <=? maxCurrentId commands
                 then maxCurrentId commands + 1 else stored) in *.
  destruct appendMode.
  - destruct (aliasesLower commands) as [l|]; [|returns_unchanged].
    destruct (appendLoop (filterValid elems) commands nextId _)
      as [written nextId' out'|out'] eqn:Eloop; [|returns_unchanged].
    apply appendLoop_spec in Eloop. destruct Eloop as (-> & -> & ->).
    rewrite writeConfig_completes.
    specialize (Hafter (commands ++ importedRecords commands nextId (filterValid elems))
                  (nextId + Z.of_nat (length (filterValid elems)))).
    destruct (writeConfig noFaults _ d) as [d1 m3]. cbn [fst] in Hafter.
    destruct (writeCommands (mkFaults NoFault wf) _ d1) as [d2 m4].
    cbn [fst] in Hafter.
    eexists. eexists. split; [reflexivity|]. right.
    destruct Hafter as [Hinv Hc]; [lia| | |].
    + intros c Hc. specialize (Hpast c Hc). lia.
    + intros c Hc. apply in_app_or in Hc. destruct Hc as [Hc|Hc].
      * split; [apply Hnonzero; exact Hc|]. specialize (Hpast c Hc). lia.
      * apply importedRecords_id_range in Hc. lia.
    + split; [exact Hinv|]. eexists. split; [exact Hc|]. lia.
  - destruct confirm; [|returns_unchanged]. cbn [negb].
    destruct (replaceLoop (filterValid elems) [] [] nextId _)
      as [written nextId' out'|out'] eqn:Eloop; [|returns_unchanged].
    apply replaceLoop_spec in Eloop.
    destruct Eloop as (-> & news & -> & Hlen & Hrange).
    rewrite writeConfig_completes.
    specialize (Hafter ([] ++ news)
                  (nextId + Z.of_nat (length (filterValid elems)))).
    destruct (writeConfig noFaults _ d) as [d1 m3]. cbn [fst] in Hafter.
    destruct (writeCommands (mkFaults NoFault wf) _ d1) as [d2 m4].
    cbn [fst] in Hafter.
    eexists. eexists. split; [reflexivity|]. right.
    destruct Hafter as [Hinv Hc]; [lia| | |].
    + intros c Hc. specialize (Hpast c Hc). lia.
    + intros c Hc. cbn [app] in Hc. specialize (Hrange c Hc). lia.
    + split; [exact Hinv|]. eexists. split; [exact Hc|]. lia.
Qed.

Lemma handleAddCommand_keeps : forall wf d response,
  counterInvariant d ->
  exists d' out,
    handleAddCommand (mkFaults NoFault wf) response d = Some (d', out)
    /\ counterInvariant d'
    /\ exists n n', counter d = Some n /\ counter d' = Some n' /\ n <= n'.
Proof.
  intros wf d response Hinv.
  pose proof (records_nonzero d) as Hnonzero.
  pose proof Hinv as (n & Hcounter & Hn & Hids).
  unfold handleAddCommand, getNextId.
  pose proof (counterInvariant_after_writeConfig d n (n + 1) Hcounter Hn Hids)
    as Hconfig.
  pose proof (counter_writeConfig (n + 1) d) as Hc1.
  pose proof (fun w => counterInvariant_after_config_and_write wf d w (n + 1))
    as Hafter.
  pose proof Hcounter as Hstored.
  unfold counter in Hstored. unfold records in Hids, Hnonzero, Hafter.
  destruct (readCommands d) as [commands m0].
  destruct (negb (truthy_opt (resp_command response))).
  { eexists. eexists. split; [reflexivity|]. split; [exact Hinv|].
    exists n, n. repeat split; try assumption. lia. }
  destruct (readConfig d) as [storedOpt m1]. cbn [fst] in *. subst storedOpt.
  rewrite writeConfig_completes.
  destruct (writeConfig noFaults (n + 1) d) as [d1 m2]. cbn [fst] in *.
  match goal with
  | |- context [if ?b then _ else _] => destruct b
  end.
  { eexists. eexists. split; [reflexivity|]. split; [apply Hconfig; lia|].
    exists n, (n + 1). repeat split; try assumption. lia. }
  match goal with
  | |- context [writeCommands (mkFaults NoFault wf) ?w d1] =>
      specialize (Hafter w);
      destruct (writeCommands (mkFaults NoFault wf) w d1) as [d2 m3]
  end.
  cbn [fst] in *.
  destruct Hafter as [Hinv' Hc2]; [lia| | |].
  - intros c Hc. specialize (Hids c Hc). lia.
  - intros c Hc. apply in_app_or in Hc. destruct Hc as [Hc|[<-|[]]].
    + split; [apply Hnonzero; exact Hc|]. specialize (Hids c Hc). lia.
    + simpl. lia.
  - eexists. eexists. split; [reflexivity|]. split; [exact Hinv'|].
    exists n, (n + 1). repeat split; try congruence. lia.
Qed.

Lemma handleDeleteCommand_keeps : forall fw d specifier confirm,
  counterInvariant d ->
  counterInvariant (fst (handleDeleteCommand fw specifier confirm d))
  /\ counter (fst (handleDeleteCommand fw specifier confirm d)) = counter d.
Proof.
  intros fw d specifier confirm Hinv.
  pose proof (records_nonzero d) as Hnonzero.
  pose proof Hinv as (n & Hcounter & Hn & Hids).
  pose proof (fun w => counterInvariant_after_any_write fw w d n Hcounter Hn Hids)
    as Hwrite.
  unfold handleDeleteCommand.
  destruct (negb (truthy specifier)); [auto|].
  unfold records in Hids, Hnonzero.
  destruct (readCommands d) as [commands m0]. cbn [fst] in *.
  destruct (findCommandByIdOrAlias specifier commands) as [[cmd index]|]; [|auto].
  destruct confirm; [|auto].
  specialize (Hwrite (remove_nth index commands)).
  pose proof (counter_writeCommands fw (remove_nth index commands) d) as Hc.
  destruct (writeCommands fw _ d) as [d' m1]. cbn [fst] in *.
  split; [|exact Hc]. apply Hwrite. intros c Hin.
  apply In_remove_nth in Hin. split; [apply Hnonzero|apply Hids]; exact Hin.
Qed.

Lemma handleEditCommand_keeps : forall fw d specifier response,
  counterInvariant d ->
  counterInvariant (fst (handleEditCommand fw specifier response d))
  /\ counter (fst (handleEditCommand fw specifier response d)) = counter d.
Proof.
  intros fw d specifier response Hinv.
  pose proof (records_nonzero d) as Hnonzero.
  pose proof Hinv as (n & Hcounter & Hn & Hids).
  pose proof (fun w => counterInvariant_after_any_write fw w d n Hcounter Hn Hids)
    as Hwrite.
  unfold handleEditCommand.
  destruct (negb (truthy specifier)); [auto|].
  unfold records in Hids, Hnonzero.
  destruct (readCommands d) as [commands m0]. cbn [fst] in *.
  destruct (findCommandByIdOrAlias specifier commands) as [[cmd index]|] eqn:Ef;
    [|auto].
  apply findCommandByIdOrAlias_In in Ef.
  destruct (newCommand response) as [entered|]; [|auto].
  destruct (newAlias response) as [aliasInput|]; [|auto].
  destruct (newComment response) as [commentInput|]; [|auto].
  destruct (editField (alias cmd) aliasInput) as [finalAlias changed2].
  destruct (editField (comment cmd) commentInput) as [finalComment changed3].
  match goal with
  | |- context [if ?b then _ else _] => destruct b; [|auto]
  end.
  match goal with
  | |- context [if ?b then _ else _] => destruct b; [auto|]
  end.
  match goal with
  | |- context [writeCommands fw ?w d] =>
      specialize (Hwrite w);
      pose proof (counter_writeCommands fw w d) as Hc
  end.
  destruct (writeCommands fw _ d) as [d' m1]. cbn [fst] in *.
  split; [|exact Hc]. apply Hwrite. intros c Hin.
  apply In_set_nth in Hin. destruct Hin as [->|Hin].
  - simpl. split; [apply Hnonzero|apply Hids]; exact Ef.
  - split; [apply Hnonzero|apply Hids]; exact Hin.
Qed.

Lemma run_keeps : forall fw op d,
  onConfigWrite fw = NoFault -> counterInvariant d ->
  exists d' out,
    run fw op d = Some (d', out)
    /\ counterInvariant d'
    /\ exists n n', counter d = Some n /\ counter d' = Some n' /\ n <= n'.
Proof.
  intros [cf wf] op d Hcf Hinv. cbn [onConfigWrite] in Hcf. subst cf.
  pose proof Hinv as (n & Hcounter & Hn & Hids).
  destruct op as [response|specifier confirm|specifier response
                 |importFile appendMode confirm]; unfold run.
  - exact (handleAddCommand_keeps wf d response Hinv).
  - destruct (handleDeleteCommand_keeps (mkFaults NoFault wf) d specifier confirm
                Hinv) as [Hinv' Hc].
    destruct (handleDeleteCommand (mkFaults NoFault wf) specifier confirm d)
      as [d' out]. cbn [fst] in *.
    exists d', out. split; [reflexivity|]. split; [exact Hinv'|].
    exists n, n. rewrite Hc. repeat split; try assumption. lia.
  - destruct (handleEditCommand_keeps (mkFaults NoFault wf) d specifier response
                Hinv) as [Hinv' Hc].
    destruct (handleEditCommand (mkFaults NoFault wf) specifier response d)
      as [d' out]. cbn [fst] in *.
    exists d', out. split; [reflexivity|]. split; [exact Hinv'|].
    exists n, n. rewrite Hc. repeat split; try assumption. lia.
  - destruct (handleImportCommand_keeps wf d n importFile appendMode confirm
                Hcounter) as (d' & out & Hrun & [->|(Hinv' & n' & Hc' & Hle)]).
    + exists d, out. split; [exact Hrun|]. split; [exact Hinv|].
      exists n, n. repeat split; try assumption. lia.
    + exists d', out. split; [exact Hrun|]. split; [exact Hinv'|].
      exists n, n'. auto.
Qed.


End FaultyWrites.



(** The invariant can be lost only outside these runs: in the store with
    the counter file missing it does not hold, and an import restores it. *)
Example counter_restored_by_import :
  ~ counterInvariant (codec := Unary.codec) Demo.counterLost
  /\ exists d',
       perform (codec := Unary.codec)
         (Import (Some (Unary.stringify
                          (JArray [Some (mkRaw None Missing (Text "pwd") Missing)])))
                 false true)
         Demo.counterLost = Some d'
       /\ records (codec := Unary.codec) d' = [mkCommand 2 None "pwd" None]
       /\ counter (codec := Unary.codec) d' = Some 3.
Proof.
  split.
  - intros (n & Hc & _ & Hids). vm_compute in Hc. injection Hc as <-.
    specialize (Hids (mkCommand 1 None "ls" None) (or_introl eq_refl)).
    simpl in Hids. lia.
  - eexists. split; [vm_compute; reflexivity|]. split; reflexivity.
Qed.

(* ================================================================= *)
(** ** Writes of the records file *)

Lemma reportsSuccess_app : forall l1 l2,
  reportsSuccess (l1 ++ l2) = reportsSuccess l1 || reportsSuccess l2.
Proof. intros l1 l2. apply existsb_app. Qed.

Lemma appendLoop_quiet : forall entries written nextId out,
  reportsSuccess out = false ->
  match appendLoop entries written nextId out with
  | Completed _ _ out' | Threw out' => reportsSuccess out' = false
  end.
Proof.
  induction entries as [|e rest IH]; intros written nextId out H; simpl.
  - exact H.
  - unfold appendBody.
    destruct (importedComment (raw_comment e)) as [text|]; [|exact H].
    destruct (field_or_false (raw_alias e)) as [a|]; [|apply IH; exact H].
    destruct (aliasesLower written) as [l|]; [|exact H].
    destruct (negb (has_space_or_colon (trim a))
              && negb (includes_str l (toLowerCase (trim a))));
      apply IH; [exact H|].
    rewrite reportsSuccess_app, H. reflexivity.
Qed.

Lemma replaceLoop_quiet : forall entries seen written nextId out,
  reportsSuccess out = false ->
  match replaceLoop entries seen written nextId out with
  | Completed _ _ out' | Threw out' => reportsSuccess out' = false
  end.
Proof.
  induction entries as [|e rest IH]; intros seen written nextId out H; simpl.
  - exact H.
  - destruct (importedComment (raw_comment e)) as [text|]; [|exact H].
    destruct (field_or_false (raw_alias e)) as [a|]; [|apply IH; exact H].
    destruct (negb (has_space_or_colon (trim a))
              && negb (includes_str seen (toLowerCase (trim a))));
      apply IH; [exact H|].
    rewrite reportsSuccess_app, H. reflexivity.
Qed.

(** The output holds a report of success. *)
Ltac success_reported :=
  unfold reportsSuccess; rewrite ?existsb_app; cbn [existsb isSuccess orb];
  rewrite ?orb_true_r; reflexivity.

Section Writes.

Context {codec : JsonCodec}.

Lemma readCommands_quiet : forall d, reportsSuccess (snd (readCommands d)) = false.
Proof.
  intros d. unfold readCommands.
  destruct (commandsFile d) as [fileContent|]; [|reflexivity].
  destruct (negb (truthy (trim fileContent))); [reflexivity|].
  destruct (JSON_parse fileContent) as [[elems| |]|]; try reflexivity.
  destruct (mapWithDefaults elems 0); reflexivity.
Qed.

Lemma readConfig_quiet : forall d, reportsSuccess (snd (readConfig d)) = false.
Proof.
  intros d. unfold readConfig.
  destruct (configFile d) as [data|]; [|reflexivity].
  destruct (JSON_parse data) as [[elems| |]|]; reflexivity.
Qed.

Lemma writeConfig_quiet : forall fw n d,
  reportsSuccess (snd (writeConfig fw n d)) = false.
Proof.
  intros fw n d. unfold writeConfig, writeFileSync.
  destruct (onConfigWrite fw); reflexivity.
Qed.

Lemma writeConfig_commandsFile : forall fw n d,
  commandsFile (fst (writeConfig fw n d)) = commandsFile d.
Proof.
  intros fw n d. unfold writeConfig.
  destruct (writeFileSync _ _ _). reflexivity.
Qed.

(** An operation that returns under the same run whatever the fault of
    the records write, having written nothing. *)
Lemma outcome_unchanged : forall fw d d0 out0,
  reportsSuccess out0 = false ->
  commandsFile d0 = commandsFile d ->
  exists d' out,
    Some (d0, out0) = Some (d', out) /\ writeOutcome fw d d0 out0 d' out.
Proof.
  intros fw d d0 out0 Hq Hsame. exists d0, out0. split; [reflexivity|].
  unfold writeOutcome. rewrite Hq. auto.
Qed.

(** The write of the records file under a fault, set against the write
    that completes; [k] builds the output of the operation from what the
    write prints. *)
Lemma outcome_written : forall cf wf w d d1 (k : list Msg -> list Msg),
  commandsFile d1 = commandsFile d ->
  (forall m, reportsSuccess (k m) = true) ->
  (forall m x, In x m -> In x (k m)) ->
  exists d' out,
    Some (fst (writeCommands (mkFaults cf wf) w d1),
          k (snd (writeCommands (mkFaults cf wf) w d1)))
    = Some (d', out)
    /\ writeOutcome (mkFaults cf wf) d
         (fst (writeCommands (mkFaults cf NoFault) w d1))
         (k (snd (writeCommands (mkFaults cf NoFault) w d1))) d' out.
Proof.
  intros cf wf w d d1 k Hsame Hk Hin.
  eexists. eexists. split; [reflexivity|].
  unfold writeOutcome. rewrite !Hk.
  unfold writeCommands, writeFileSync. cbn [onCommandsWrite fst snd configFile].
  split; [destruct wf; reflexivity|]. split; [reflexivity|].
  exists w. split; [reflexivity|].
  destruct wf as [| |written]; cbn [fst snd commandsFile].
  - split; reflexivity.
  - split; [exact Hsame|]. apply Hin. left. reflexivity.
  - split; [reflexivity|]. apply Hin. left. reflexivity.
Qed.

Lemma handleAddCommand_outcome : forall fw response d,
  match handleAddCommand (completing fw) response d with
  | None => handleAddCommand fw response d = None
  | Some (d0, out0) =>
      exists d' out,
        handleAddCommand fw response d = Some (d', out)
        /\ writeOutcome fw d d0 out0 d' out
  end.
Proof.
  intros [cf wf] response d. unfold completing. cbn [onConfigWrite].
  unfold handleAddCommand, getNextId.
  pose proof (readCommands_quiet d) as Hm0.
  pose proof (readConfig_quiet d) as Hm1.
  destruct (readCommands d) as [commands m0]. cbn [snd] in Hm0.
  destruct (negb (truthy_opt (resp_command response))).
  { apply outcome_unchanged; [|reflexivity].
    rewrite reportsSuccess_app, Hm0. reflexivity. }
  destruct (readConfig d) as [[n|] m1]; [|reflexivity]. cbn [snd] in Hm1.
  change (writeConfig (mkFaults cf NoFault) (n + 1) d)
    with (writeConfig (mkFaults cf wf) (n + 1) d).
  pose proof (writeConfig_quiet (mkFaults cf wf) (n + 1) d) as Hm2.
  pose proof (writeConfig_commandsFile (mkFaults cf wf) (n + 1) d) as Hsame.
  destruct (writeConfig (mkFaults cf wf) (n + 1) d) as [d1 m2].
  cbn [fst snd] in Hm2, Hsame.
  match goal with |- context [if ?b then _ else _] => destruct b end.
  { apply outcome_unchanged; [|exact Hsame].
    rewrite !reportsSuccess_app, Hm0, Hm1, Hm2. reflexivity. }
  match goal with
  | |- context [writeCommands (mkFaults cf wf) ?w d1] =>
      pose proof (outcome_written cf wf w d d1
                    (fun m => m0 ++ (m1 ++ m2) ++ m
                              ++ [AddSuccess n (or_false (option_map trim
                                                            (resp_alias response)))])
                    Hsame) as Hw;
      destruct (writeCommands (mkFaults cf NoFault) w d1) as [d0 w0];
      destruct (writeCommands (mkFaults cf wf) w d1) as [d2 w2]
  end.
  cbn [fst snd] in Hw. apply Hw.
  - intros m. success_reported.
  - intros m x Hx. rewrite !in_app_iff. auto.
Qed.

Lemma handleDeleteCommand_outcome : forall fw specifier confirm d,
  exists d' out,
    Some (handleDeleteCommand fw specifier confirm d) = Some (d', out)
    /\ writeOutcome fw d
         (fst (handleDeleteCommand (completing fw) specifier confirm d))
         (snd (handleDeleteCommand (completing fw) specifier confirm d)) d' out.
Proof.
  intros [cf wf] specifier confirm d. unfold completing. cbn [onConfigWrite].
  unfold handleDeleteCommand.
  destruct (negb (truthy specifier)).
  { apply outcome_unchanged; reflexivity. }
  pose proof (readCommands_quiet d) as Hm0.
  destruct (readCommands d) as [commands m0]. cbn [snd] in Hm0.
  destruct (findCommandByIdOrAlias specifier commands) as [[cmd index]|].
  2:{ apply outcome_unchanged; [|reflexivity].
      cbn [snd]. rewrite reportsSuccess_app, Hm0. reflexivity. }
  destruct confirm.
  2:{ apply outcome_unchanged; [|reflexivity].
      cbn [snd]. rewrite reportsSuccess_app, Hm0. reflexivity. }
  pose proof (outcome_written cf wf (remove_nth index commands) d d
                (fun m => m0 ++ m ++ [DeleteSuccess (id cmd)]) eq_refl) as Hw.
  destruct (writeCommands (mkFaults cf NoFault) _ d) as [d0 w0].
  destruct (writeCommands (mkFaults cf wf) _ d) as [d2 w2].
  cbn [fst snd] in *. apply Hw.
  - intros m. success_reported.
  - intros m x Hx. rewrite !in_app_iff. auto.
Qed.

Lemma handleEditCommand_outcome : forall fw specifier response d,
  exists d' out,
    Some (handleEditCommand fw specifier response d) = Some (d', out)
    /\ writeOutcome fw d
         (fst (handleEditCommand (completing fw) specifier response d))
         (snd (handleEditCommand (completing fw) specifier response d)) d' out.
Proof.
  intros [cf wf] specifier response d. unfold completing. cbn [onConfigWrite].
  unfold handleEditCommand.
  destruct (negb (truthy specifier)).
  { apply outcome_unchanged; reflexivity. }
  pose proof (readCommands_quiet d) as Hm0.
  destruct (readCommands d) as [commands m0]. cbn [snd] in Hm0.
  assert (Hquiet : forall x y,
            isSuccess x = false -> isSuccess y = false ->
            exists d' out,
              Some (d, m0 ++ [x; y]) = Some (d', out)
              /\ writeOutcome (mkFaults cf wf) d
                   (fst (d, m0 ++ [x; y])) (snd (d, m0 ++ [x; y])) d' out).
  { intros x y Hx Hy. apply outcome_unchanged; [|reflexivity].
    cbn [snd]. rewrite reportsSuccess_app, Hm0. unfold reportsSuccess.
    cbn [existsb]. rewrite Hx, Hy. reflexivity. }
  destruct (findCommandByIdOrAlias specifier commands) as [[cmd index]|].
  2:{ apply outcome_unchanged; [|reflexivity].
      cbn [snd]. rewrite reportsSuccess_app, Hm0. reflexivity. }
  destruct (newCommand response) as [entered|]; [|apply Hquiet; reflexivity].
  destruct (newAlias response) as [aliasInput|]; [|apply Hquiet; reflexivity].
  destruct (newComment response) as [commentInput|]; [|apply Hquiet; reflexivity].
  destruct (editField (alias cmd) aliasInput) as [finalAlias changed2].
  destruct (editField (comment cmd) commentInput) as [finalComment changed3].
  match goal with
  | |- context [if ?b then _ else _] => destruct b; [|apply Hquiet; reflexivity]
  end.
  match goal with
  | |- context [if ?b then _ else _] => destruct b; [apply Hquiet; reflexivity|]
  end.
  match goal with
  | |- context [writeCommands (mkFaults cf wf) ?w d] =>
      pose proof (outcome_written cf wf w d d
                    (fun m => m0 ++ [EditHeader cmd] ++ m ++ [EditSuccess (id cmd)])
                    eq_refl) as Hw;
      destruct (writeCommands (mkFaults cf NoFault) w d) as [d0 w0];
      destruct (writeCommands (mkFaults cf wf) w d) as [d2 w2]
  end.
  cbn [fst snd] in *. apply Hw.
  - intros m. success_reported.
  - intros m x Hx. rewrite !in_app_iff. auto.
Qed.

Lemma handleImportCommand_outcome : forall fw importFile appendMode confirm d,
  match handleImportCommand (completing fw) importFile appendMode confirm d with
  | None => handleImportCommand fw importFile appendMode confirm d = None
  | Some (d0, out0) =>
      exists d' out,
        handleImportCommand fw importFile appendMode confirm d = Some (d', out)
        /\ writeOutcome fw d d0 out0 d' out
  end.
Proof.
  intros [cf wf] importFile appendMode confirm d. unfold completing.
  cbn [onConfigWrite]. unfold handleImportCommand.
  destruct importFile as [fileContent|];
    [|apply outcome_unchanged; reflexivity].
  destruct (JSON_parse fileContent) as [[elems| |]|];
    try (apply outcome_unchanged; reflexivity).
  destruct (length (filterValid elems) =? 0)%nat;
    [apply outcome_unchanged; reflexivity|].
  pose proof (readCommands_quiet d) as Hm1.
  pose proof (readConfig_quiet d) as Hm2.
  destruct (readCommands d) as [commands m1]. cbn [snd] in Hm1.
  destruct (readConfig d) as [[stored|] m2]; [|reflexivity]. cbn [snd] in Hm2.
  set (nextId := if stored <=? maxCurrentId commands
                 then maxCurrentId commands + 1 else stored).
  assert (Hout : reportsSuccess
                   ([FoundPotential (length (filterValid elems))] ++ m1 ++ m2)
                 = false).
  { rewrite !reportsSuccess_app, Hm1, Hm2. reflexivity. }
  assert (Hboth : forall n w pre (k : list Msg -> list Msg),
            (forall m, reportsSuccess (k m) = true) ->
            (forall m x, In x m -> In x (k m)) ->
            exists d' out,
              (let '(d1, m3) := writeConfig (mkFaults cf wf) n d in
               let '(d2, m4) := writeCommands (mkFaults cf wf) w d1 in
               Some (d2, pre ++ m3 ++ k m4)) = Some (d', out)
              /\ writeOutcome (mkFaults cf wf) d
                   (fst (writeCommands (mkFaults cf NoFault) w
                           (fst (writeConfig (mkFaults cf wf) n d))))
                   (pre ++ snd (writeConfig (mkFaults cf wf) n d)
                        ++ k (snd (writeCommands (mkFaults cf NoFault) w
                                     (fst (writeConfig (mkFaults cf wf) n d)))))
                   d' out).
  { intros n w pre k Hk Hin.
    pose proof (writeConfig_commandsFile (mkFaults cf wf) n d) as Hsame.
    destruct (writeConfig (mkFaults cf wf) n d) as [d1 m3]. cbn [fst snd] in *.
    pose proof (outcome_written cf wf w d d1 (fun m => pre ++ m3 ++ k m) Hsame)
      as Hw.
    destruct (writeCommands (mkFaults cf NoFault) w d1) as [d0 w0].
    destruct (writeCommands (mkFaults cf wf) w d1) as [d2 w2].
    cbn [fst snd] in *. apply Hw.
    - intros m. rewrite !reportsSuccess_app, Hk, !orb_true_r. reflexivity.
    - intros m x Hx. rewrite !in_app_iff. right. right. apply Hin. exact Hx. }
  destruct appendMode.
  - destruct (aliasesLower commands) as [l|].
    2:{ apply outcome_unchanged; [|reflexivity].
        rewrite reportsSuccess_app, Hout. reflexivity. }
    pose proof (appendLoop_quiet (filterValid elems) commands nextId
                  (([FoundPotential (length (filterValid elems))] ++ m1 ++ m2)
                   ++ [Appending])) as Hloop.
    destruct (appendLoop (filterValid elems) commands nextId _)
      as [written nextId' out'|out'].
    + change (writeConfig (mkFaults cf NoFault) nextId' d)
        with (writeConfig (mkFaults cf wf) nextId' d).
      pose proof (Hboth nextId' written out'
                    (fun m => m ++ [AppendSuccess (length (filterValid elems));
                                    TotalNow (length written)])) as Hw.
      destruct (writeConfig (mkFaults cf wf) nextId' d) as [d1 m3].
      cbn [fst snd] in Hw.
      destruct (writeCommands (mkFaults cf NoFault) written d1) as [d0 w0].
      cbn [fst snd] in Hw. apply Hw.
      * intros m. success_reported.
      * intros m x Hx. rewrite !in_app_iff. auto.
    + apply outcome_unchanged; [|reflexivity].
      rewrite reportsSuccess_app, Hloop; [reflexivity|].
      rewrite reportsSuccess_app, Hout. reflexivity.
  - destruct confirm; cbn [negb].
    2:{ apply outcome_unchanged; [|reflexivity].
        rewrite reportsSuccess_app, Hout. reflexivity. }
    pose proof (replaceLoop_quiet (filterValid elems) [] [] nextId
                  (([FoundPotential (length (filterValid elems))] ++ m1 ++ m2)
                   ++ [Replacing])) as Hloop.
    destruct (replaceLoop (filterValid elems) [] [] nextId _)
      as [written nextId' out'|out'].
    + change (writeConfig (mkFaults cf NoFault) nextId' d)
        with (writeConfig (mkFaults cf wf) nextId' d).
      pose proof (Hboth nextId' written out'
                    (fun m => m ++ [ImportSuccess (length written)])) as Hw.
      destruct (writeConfig (mkFaults cf wf) nextId' d) as [d1 m3].
      cbn [fst snd] in Hw.
      destruct (writeCommands (mkFaults cf NoFault) written d1) as [d0 w0].
      cbn [fst snd] in Hw. apply Hw.
      * intros m. success_reported.
      * intros m x Hx. rewrite !in_app_iff. auto.
    + apply outcome_unchanged; [|reflexivity].
      rewrite reportsSuccess_app, Hloop; [reflexivity|].
      rewrite reportsSuccess_app, Hout. reflexivity.
Qed.

Lemma run_returns : forall fw op d,
  counter d <> None -> exists d' out, run fw op d = Some (d', out).
Proof.
  intros fw op d Hc. unfold counter in Hc.
  destruct op as [response|specifier confirm|specifier response
                 |importFile appendMode confirm]; unfold run.
  - unfold handleAddCommand, getNextId.
    destruct (readCommands d) as [commands m0].
    destruct (negb (truthy_opt (resp_command response))); [eauto|].
    destruct (readConfig d) as [[n|] m1]; [|cbn [fst] in Hc; congruence].
    destruct (writeConfig fw (n + 1) d) as [d1 m2].
    match goal with |- context [if ?b then _ else _] => destruct b end; [eauto|].
    destruct (writeCommands fw _ d1) as [d2 m3]. eauto.
  - destruct (handleDeleteCommand fw specifier confirm d) as [d' out]. eauto.
  - destruct (handleEditCommand fw specifier response d) as [d' out]. eauto.
  - unfold handleImportCommand.
    destruct importFile as [fileContent|]; [|eauto].
    destruct (JSON_parse fileContent) as [[elems| |]|]; eauto.
    destruct (length (filterValid elems) =? 0)%nat; [eauto|].
    destruct (readCommands d) as [commands m1].
    destruct (readConfig d) as [[stored|] m2]; [|cbn [fst] in Hc; congruence].
    destruct appendMode.
    + destruct (aliasesLower commands); [|eauto].
      destruct (appendLoop _ _ _ _); [|eauto].
      destruct (writeConfig fw _ d) as [d1 m3].
      destruct (writeCommands fw _ d1) as [d2 m4]. eauto.
    + destruct confirm; cbn [negb]; [|eauto].
      destruct (replaceLoop _ _ _ _ _); [|eauto].
      destruct (writeConfig fw _ d) as [d1 m3].
      destruct (writeCommands fw _ d1) as [d2 m4]. eauto.
Qed.

End Writes.

Section DirectWrites.

Context {codec : JsonCodec}.

(** C9, as amended.  Every operation that changes the store returns,
    whatever faults its writes meet, provided the counter can be read.
    Set against the run of the same operation in which the write of the
    records file completes, the run under a fault leaves the same counter
    file and reports success exactly when that run does.  An operation
    that reports no success has left the records file as it was, and its
    run does not depend on the fault.  An operation that reports success
    has written the records file directly, with the whole text intended
    for the records it leaves: when the write completes the file holds
    that text in full; when the write fails before the file is opened the
    error is printed, the file is as it was and success is reported all
    the same; when it fails later the error is printed and the file holds
    only the characters written so far. *)
Theorem operations_write_directly : forall fw op d,
  (counter d <> None -> exists d' out, run fw op d = Some (d', out))
  /\ match run (completing fw) op d with
     | None => run fw op d = None
     | Some (d0, out0) =>
         exists d' out,
           run fw op d = Some (d', out)
           /\ configFile d' = configFile d0
           /\ reportsSuccess out = reportsSuccess out0
           /\ if reportsSuccess out0
              then exists commands,
                     commandsFile d0 = Some (intended commands)
                     /\ match onCommandsWrite fw with
                        | NoFault => d' = d0 /\ out = out0
                        | FailsBeforeOpen =>
                            commandsFile d' = commandsFile d
                            /\ In ErrWriteCommands out
                        | FailsAfter written =>
                            commandsFile d'
                            = Some (substring 0 written (intended commands))
                            /\ In ErrWriteCommands out
                        end
              else d' = d0 /\ out = out0 /\ commandsFile d' = commandsFile d
     end.
Proof.
  intros fw op d. split; [apply run_returns|].
  destruct op as [response|specifier confirm|specifier response
                 |importFile appendMode confirm]; unfold run.
  - exact (handleAddCommand_outcome fw response d).
  - pose proof (handleDeleteCommand_outcome fw specifier confirm d) as H.
    destruct (handleDeleteCommand (completing fw) specifier confirm d)
      as [d0 out0]. exact H.
  - pose proof (handleEditCommand_outcome fw specifier response d) as H.
    destruct (handleEditCommand (completing fw) specifier response d)
      as [d0 out0]. exact H.
  - exact (handleImportCommand_outcome fw importFile appendMode confirm d).
Qed.

End DirectWrites.

(** An instance of C9: a delete whose write fails before the file is
    opened prints the error, leaves the file as it was and reports
    success. *)
Lemma operations_write_directly_witness :
  exists d' out,
    run (codec := Unary.codec) (mkFaults NoFault FailsBeforeOpen)
      (Delete "1" true) Demo.twoRecords = Some (d', out)
    /\ commandsFile d' = commandsFile Demo.twoRecords
    /\ In ErrWriteCommands out
    /\ reportsSuccess out = true.
Proof.
  destruct (proj2 (operations_write_directly (codec := Unary.codec)
                     (mkFaults NoFault FailsBeforeOpen) (Delete "1" true)
                     Demo.twoRecords))
    as (d' & out & Hrun & _ & Hsuccess & commands & _ & Hfile & Herr).
  exists d', out. split; [exact Hrun|]. split; [exact Hfile|].
  split; [exact Herr|exact Hsuccess].
Defined.

(** C9 as stated fails on the code.  A delete whose write of the records
    file is cut short after one character prints the error, reports
    success, and leaves a file that is neither the old text nor the text
    intended: the next read finds it corrupt and returns no record. *)
Lemma handleDeleteCommand_truncates :
  snd (handleDeleteCommand (codec := Unary.codec)
         (mkFaults NoFault (FailsAfter 1)) "1" true Demo.twoRecords)
  = [ErrWriteCommands; DeleteSuccess 1]
  /\ commandsFile
       (fst (handleDeleteCommand (codec := Unary.codec)
               (mkFaults NoFault (FailsAfter 1)) "1" true Demo.twoRecords))
     = Some "A"
  /\ commandsFile Demo.twoRecords <> Some "A"
  /\ intended (codec := Unary.codec) [mkCommand 2 (Some "build") "make" None]
     <> "A"
  /\ records (codec := Unary.codec) Demo.twoRecords
     = [mkCommand 1 None "ls" None; mkCommand 2 (Some "build") "make" None]
  /\ readCommands (codec := Unary.codec)
       (fst (handleDeleteCommand (codec := Unary.codec)
               (mkFaults NoFault (FailsAfter 1)) "1" true Demo.twoRecords))
     = ([], [ErrCorruptJson; WarnReturningEmptyDueToError]).
Proof.
  repeat split; try reflexivity; vm_compute; discriminate.
Qed.

(* ================================================================= *)
(** ** Further properties: the order of the store *)

Lemma insertById_sorted : forall c l, sortedById l -> sortedById (insertById c l).
Proof.
  intros c l H. induction H as [|x rest Hrest IH Hx]; simpl.
  - repeat constructor.
  - destruct (Z.leb_spec (id c) (id x)) as [Hle|Hgt].
    + constructor; [constructor; assumption|].
      constructor; [exact Hle|].
      eapply Forall_impl; [|exact Hx]. simpl. intros a Ha. lia.
    + constructor; [exact IH|].
      apply (Permutation_Forall (x := c :: rest)).
      * symmetry. apply insertById_perm.
      * constructor; [lia|exact Hx].
Qed.

Lemma sortById_sorted : forall l, sortedById (sortById l).
Proof.
  induction l as [|c l IH]; simpl; [constructor|].
  apply insertById_sorted. exact IH.
Qed.

Lemma insertById_stable : forall n c l,
  filter (fun x => Z.eqb (id x) n) (insertById c l)
  = filter (fun x => Z.eqb (id x) n) (c :: l).
Proof.
  intros n c l. induction l as [|x rest IH]; [reflexivity|].
  cbn [insertById]. destruct (Z.leb_spec (id c) (id x)) as [Hle|Hgt]; [reflexivity|].
  cbn [filter] in *. rewrite IH.
  destruct (Z.eqb_spec (id x) n), (Z.eqb_spec (id c) n); try reflexivity. lia.
Qed.

Lemma sortById_stable : forall n l,
  filter (fun x => Z.eqb (id x) n) (sortById l)
  = filter (fun x => Z.eqb (id x) n) l.
Proof.
  intros n l. induction l as [|c l IH]; [reflexivity|].
  cbn [sortById]. rewrite insertById_stable. cbn [filter]. rewrite IH. reflexivity.
Qed.

Lemma sortedById_map_restore : forall l,
  Forall (fun c => id c <> 0) l -> sortedById l -> sortedById (map restore l).
Proof.
  intros l Hnz H. induction H as [|x rest Hrest IH Hx]; simpl; [constructor|].
  inversion Hnz as [|? ? Hx0 Hrest0]; subst.
  constructor; [apply IH; exact Hrest0|].
  rewrite Forall_map. rewrite Forall_forall in *. intros a Ha.
  rewrite !restore_id by auto. apply Hx. exact Ha.
Qed.

Lemma filter_id_map_restore : forall n l,
  Forall (fun c => id c <> 0) l ->
  filter (fun x => Z.eqb (id x) n) (map restore l)
  = map restore (filter (fun x => Z.eqb (id x) n) l).
Proof.
  intros n l H. induction H as [|c l Hc Hl IH]; [reflexivity|].
  cbn [map filter]. rewrite restore_id by exact Hc. rewrite IH.
  destruct (id c =? n); reflexivity.
Qed.

Section PersistedOrder.

Context {codec : JsonCodec} {laws : JsonCodecLaws codec}.

(** X1. After a write that completes of records none of which has the
    id 0, the store reads back in ascending order of id, whatever the
    order of the records handed over; it holds each of them once, as it
    reads back; and records with the same id keep the order they had.
    (A record written with the id 0 reads back with its position as id.) *)
Theorem writeCommands_persists_sorted : forall commands d,
  Forall (fun c => id c <> 0) commands ->
  sortedById (records (fst (writeCommands noFaults commands d)))
  /\ Permutation (records (fst (writeCommands noFaults commands d)))
       (map restore commands)
  /\ forall n,
       filter (fun x => Z.eqb (id x) n)
         (records (fst (writeCommands noFaults commands d)))
       = map restore (filter (fun x => Z.eqb (id x) n) commands).
Proof.
  intros commands d H. unfold records.
  rewrite readCommands_writeCommands by exact H. cbn [fst].
  assert (Hs : Forall (fun c => id c <> 0) (sortById commands)).
  { apply (Permutation_Forall (x := commands)); [|exact H].
    symmetry. apply sortById_perm. }
  split; [|split].
  - apply sortedById_map_restore; [exact Hs|apply sortById_sorted].
  - apply Permutation_map. apply sortById_perm.
  - intros n. rewrite filter_id_map_restore by exact Hs.
    rewrite sortById_stable. reflexivity.
Qed.

End PersistedOrder.

Lemma writeCommands_persists_sorted_witness :
  records (codec := Unary.codec)
    (fst (writeCommands (codec := Unary.codec) noFaults
            [ mkCommand 3 None "c" None; mkCommand 1 (Some "a") "first" None;
              mkCommand 1 None "second" None ]
            (mkDisk None None)))
  = [ mkCommand 1 (Some "a") "first" None; mkCommand 1 None "second" None;
      mkCommand 3 None "c" None ]
  /\ sortedById
       (records (codec := Unary.codec)
          (fst (writeCommands (codec := Unary.codec) noFaults
                  [ mkCommand 3 None "c" None; mkCommand 1 (Some "a") "first" None;
                    mkCommand 1 None "second" None ]
                  (mkDisk None None)))).
Proof.
  split; [reflexivity|].
  apply (writeCommands_persists_sorted (codec := Unary.codec)
           (laws := UnaryFacts.laws)).
  repeat constructor; discriminate.
Defined.

(* ================================================================= *)
(** ** Further properties: what a read returns *)

Lemma mapWithDefaults_nth : forall elems index commands k raw,
  mapWithDefaults elems index = Some commands ->
  nth_error elems k = Some (Some raw) ->
  nth_error commands k = Some (withDefaults raw (index + k)).
Proof.
  induction elems as [|[cmd|] rest IH]; intros index commands k raw H Hk.
  - destruct k; discriminate.
  - simpl in H. destruct (mapWithDefaults rest (S index)) as [l|] eqn:E; [|discriminate].
    injection H as <-. destruct k as [|k]; simpl in *.
    + injection Hk as <-. rewrite Nat.add_0_r. reflexivity.
    + rewrite (IH _ _ _ _ E Hk). do 2 f_equal. lia.
  - discriminate.
Qed.

Lemma mapWithDefaults_length : forall elems index commands,
  mapWithDefaults elems index = Some commands -> length commands = length elems.
Proof.
  induction elems as [|[cmd|] rest IH]; intros index commands H; simpl in H.
  - injection H as <-. reflexivity.
  - destruct (mapWithDefaults rest (S index)) as [l|] eqn:E; [|discriminate].
    injection H as <-. simpl. f_equal. exact (IH _ _ E).
  - discriminate.
Qed.

Section ReadDefaults.

Context {codec : JsonCodec}.

(** X2. Take a records file that is a JSON array of objects in which
    alias, command and comment are each a string, the literal [false] or
    missing, and the id is an integer or missing.  [readCommands] returns
    one record per element, in the order of the array.  An element
    without id, or with id 0, gets its position counted from 1 as id, and
    any other id is kept; an empty or missing command becomes
    ['INVALID_COMMAND']; an empty or missing alias or comment becomes
    [false].  So every record returned has an id other than zero, a
    command that is not empty, and an alias and a comment that are
    [false] or not empty. *)
Theorem readCommands_defaults : forall d fileContent elems,
  commandsFile d = Some fileContent ->
  all_ws fileContent = false ->
  JSON_parse fileContent = Some (JArray elems) ->
  ~ In None elems ->
  length (records d) = length elems
  /\ (forall k raw,
        nth_error elems k = Some (Some raw) ->
        exists c,
          nth_error (records d) k = Some c
          /\ id c = match raw_id raw with
                    | Some n => if Z.eqb n 0 then Z.of_nat k + 1 else n
                    | None => Z.of_nat k + 1
                    end
          /\ command c = match raw_command raw with
                         | Text (String x s) => String x s
                         | _ => "INVALID_COMMAND"
                         end
          /\ alias c = match raw_alias raw with
                       | Text (String x s) => Some (String x s)
                       | _ => None
                       end
          /\ comment c = match raw_comment raw with
                         | Text (String x s) => Some (String x s)
                         | _ => None
                         end)
  /\ (forall c, In c (records d) ->
        id c <> 0 /\ command c <> EmptyString
        /\ alias c <> Some EmptyString /\ comment c <> Some EmptyString).
Proof.
  intros d fileContent elems Hfile Hws Hparse Hnull.
  unfold records, readCommands. rewrite Hfile.
  assert (Hfull : negb (truthy (trim fileContent)) = false).
  { destruct (trim fileContent) eqn:E; [|reflexivity].
    apply trim_blank_iff in E. congruence. }
  rewrite Hfull, Hparse.
  destruct (mapWithDefaults elems 0) as [commands|] eqn:E.
  2:{ apply mapWithDefaults_None_iff in E. contradiction. }
  cbn [fst]. split; [exact (mapWithDefaults_length _ _ _ E)|]. split.
  - intros k raw Hk. exists (withDefaults raw k).
    split; [exact (mapWithDefaults_nth _ _ _ _ _ E Hk)|].
    unfold withDefaults, command_or_invalid. cbn [id command alias comment].
    split; [reflexivity|].
    split; [destruct (raw_command raw) as [| |[|x t]]; reflexivity|].
    split; [destruct (raw_alias raw) as [| |[|x t]]; reflexivity|].
    destruct (raw_comment raw) as [| |[|x t]]; reflexivity.
  - intros c Hc.
    pose proof (mapWithDefaults_normal _ _ _ E) as Hn.
    rewrite Forall_forall in Hn. destruct (Hn c Hc) as (H0 & Hcmd & Ha & Hm).
    split; [exact H0|]. split; [|split].
    + intros Ec. rewrite Ec in Hcmd. discriminate.
    + intros Ec. rewrite Ec in Ha. discriminate.
    + intros Ec. rewrite Ec in Hm. discriminate.
Qed.

End ReadDefaults.

(** An instance of X2: a file of the older format, without ids. *)
Example readCommands_legacy_file :
  records (codec := Unary.codec)
    (mkDisk (Some (Unary.stringify
                     (JArray [ Some (mkRaw None Missing (Text "ls") FalseLit);
                               Some (mkRaw None Missing (Text EmptyString) (Text EmptyString));
                               Some (mkRaw (Some 7) (Text EmptyString) (Text "pwd") Missing) ])))
            None)
  = [ mkCommand 1 None "ls" None; mkCommand 2 None "INVALID_COMMAND" None;
      mkCommand 7 None "pwd" None ].
Proof. reflexivity. Qed.

(** Outside X1: records written with the id 0 come first in the file and
    read back with their positions as ids, so that the store is not in
    ascending order of id. *)
Example writeCommands_zero_ids :
  map id
    (records (codec := Unary.codec)
       (fst (writeCommands (codec := Unary.codec) noFaults
               [ mkCommand 0 None "a" None; mkCommand 1 None "b" None;
                 mkCommand 0 None "c" None ]
               (mkDisk None None))))
  = [1; 2; 1].
Proof. reflexivity. Qed.

(* ================================================================= *)
(** ** Further properties: running a command *)

Section RunSafety.

Context {codec : JsonCodec}.

(** X3. Whatever the store, the specifier, the arguments and the answers:
    [handleRunCommand] executes a command only after the user confirmed,
    and then exactly the command the prompt showed, which is the prepared
    command of the record the specifier resolves to, with the tilde
    expanded; it executes at most one command. *)
Theorem handleRunCommand_executes_confirmed :
  forall homedir specifier runtimeArgs confirm outcome d,
  (forall finalCommand,
     In (Exec finalCommand)
        (handleRunCommand homedir specifier runtimeArgs confirm outcome d) ->
     confirm = true
     /\ exists cmdToRun index commandString warnings,
          findCommandByIdOrAlias specifier (records d) = Some (cmdToRun, index)
          /\ handlePlaceholders (command cmdToRun) runtimeArgs
             = Ready commandString warnings
          /\ finalCommand = expandTilde homedir commandString
          /\ In (AskRun (id cmdToRun) finalCommand)
                (handleRunCommand homedir specifier runtimeArgs confirm outcome d))
  /\ (length (filter (fun e => match e with Exec _ => true | _ => false end)
                (handleRunCommand homedir specifier runtimeArgs confirm outcome d))
      <= 1)%nat.
Proof.
  intros homedir specifier runtimeArgs confirm outcome d.
  unfold handleRunCommand, runCommand, records.
  destruct (negb (truthy specifier)) eqn:Hs.
  { split; [intros c [H|[]]; discriminate H|simpl; lia]. }
  destruct (readCommands d) as [commands m0]. cbn [fst].
  assert (Hsay : forall (l : list Msg) c, ~ In (Exec c) (map Say l)).
  { intros l c H. apply in_map_iff in H. destruct H as (m & Hm & _). discriminate. }
  assert (Hcount : forall l : list Msg,
            filter (fun e => match e with Exec _ => true | _ => false end)
              (map Say l) = []).
  { induction l as [|m l IH]; [reflexivity|exact IH]. }
  destruct (findCommandByIdOrAlias specifier commands) as [[cmdToRun index]|].
  2:{ split.
      - intros c H. apply in_app_or in H. destruct H as [H|[H|[]]].
        + exfalso. exact (Hsay _ _ H).
        + discriminate H.
      - rewrite filter_app, Hcount. simpl. lia. }
  destruct (handlePlaceholders (command cmdToRun) runtimeArgs)
    as [m|commandString warnings] eqn:Hp.
  { split.
    - intros c H. apply in_app_or in H. destruct H as [H|[H|[]]].
      + exfalso. exact (Hsay _ _ H).
      + discriminate H.
    - rewrite filter_app, Hcount. simpl. lia. }
  destruct confirm; cbn [negb].
  - split.
    + intros c H. split; [reflexivity|].
      exists cmdToRun, index, commandString, warnings.
      split; [reflexivity|]. split; [exact Hp|].
      apply in_app_or in H. destruct H as [H|H]; [exfalso; exact (Hsay _ _ H)|].
      apply in_app_or in H. destruct H as [H|H]; [exfalso; exact (Hsay _ _ H)|].
      destruct H as [H|[H|[H|H]]]; try discriminate H.
      * injection H as <-. split; [reflexivity|].
        apply in_or_app. right. apply in_or_app. right. left. reflexivity.
      * exfalso. destruct outcome as [|[n|]]; simpl in H;
          repeat (destruct H as [H|H]; [discriminate H|]); exact H.
    + rewrite !filter_app, !Hcount.
      destruct outcome as [|[n|]]; simpl; lia.
  - split.
    + intros c H.
      apply in_app_or in H. destruct H as [H|H]; [exfalso; exact (Hsay _ _ H)|].
      apply in_app_or in H. destruct H as [H|H]; [exfalso; exact (Hsay _ _ H)|].
      destruct H as [H|[H|[]]]; discriminate H.
    + rewrite !filter_app, !Hcount. simpl. lia.
Qed.

End RunSafety.

(* ================================================================= *)
(** ** Further properties: the counter, delete and edit *)

Lemma remove_nth_perm : forall index (l : list Command) c,
  nth_error l index = Some c -> Permutation (c :: remove_nth index l) l.
Proof.
  intros index l. revert index.
  induction l as [|x l IH]; intros [|i] c H; simpl in *; try discriminate.
  - injection H as <-. reflexivity.
  - rewrite perm_swap. constructor. apply IH. exact H.
Qed.

Lemma findCommandByIdOrAlias_nth : forall specifier commands cmd index,
  findCommandByIdOrAlias specifier commands = Some (cmd, index) ->
  nth_error commands index = Some cmd.
Proof.
  intros specifier commands cmd index H. unfold findCommandByIdOrAlias in H.
  pose proof (find_from_first (parseInt specifier) (toLowerCase specifier)
                commands 0) as Hf.
  rewrite H in Hf. destruct Hf as (j & -> & Hnth & _). exact Hnth.
Qed.

Lemma map_id_set_nth : forall index e (l : list Command) c,
  nth_error l index = Some c -> id e = id c ->
  map id (set_nth index e l) = map id l.
Proof.
  intros index e l. revert index.
  induction l as [|x l IH]; intros [|i] c H He; simpl in *; try discriminate.
  - injection H as <-. rewrite He. reflexivity.
  - f_equal. exact (IH i c H He).
Qed.

Lemma editField_keeps : forall current input,
  or_false current = current ->
  (input = " " /\ current = None)
  \/ (input <> " "
      /\ (trim input = EmptyString \/ trim input = or_empty current)) ->
  editField current input = (current, false).
Proof.
  intros current input Hn [[-> ->]|[Hne [Hb|Hs]]]; unfold editField.
  - reflexivity.
  - destruct (String.eqb_spec input " "); [contradiction|].
    rewrite Hb. reflexivity.
  - destruct (String.eqb_spec input " "); [contradiction|].
    rewrite Hs, String.eqb_refl, andb_false_r. reflexivity.
Qed.

Section CounterAndEdits.

Context {codec : JsonCodec} {laws : JsonCodecLaws codec}.

(** X4. For a counter below [2 ^ 53] (and not below [- 2 ^ 53]), where
    adding one is exact: [getNextId] issues the number the counter holds
    and leaves the counter one higher and the records as they were, so
    that ids issued one after the other are consecutive.  When the write
    of the counter file fails before the file is opened, the id is issued
    all the same, the error is printed, and the store is as before: the
    next call issues the same id again. *)
Theorem getNextId_issues_counter : forall d n,
  counter d = Some n -> - maxExact <= n < maxExact ->
  (exists d1 m1,
     getNextId noFaults d = Some (n, d1, m1)
     /\ counter d1 = Some (n + 1)
     /\ readCommands d1 = readCommands d
     /\ exists d2 m2, getNextId noFaults d1 = Some (n + 1, d2, m2))
  /\ (forall fw,
        onConfigWrite fw = FailsBeforeOpen ->
        exists m, getNextId fw d = Some (n, d, m) /\ In ErrConfigWrite m).
Proof.
  intros d n Hc _. split.
  - pose proof (counter_writeConfig (n + 1) d) as Hc1.
    pose proof (readCommands_writeConfig noFaults (n + 1) d) as Hr.
    unfold getNextId. unfold counter in Hc.
    destruct (readConfig d) as [stored m0]. cbn [fst] in Hc. subst stored.
    destruct (writeConfig noFaults (n + 1) d) as [d1 m1]. cbn [fst] in *.
    eexists. eexists. split; [reflexivity|]. split; [exact Hc1|].
    split; [exact Hr|].
    unfold counter in Hc1.
    destruct (readConfig d1) as [stored1 m2]. cbn [fst] in Hc1. subst stored1.
    destruct (writeConfig noFaults (n + 1 + 1) d1) as [d2 m3]. eauto.
  - intros fw Hfw. unfold getNextId, writeConfig, writeFileSync. rewrite Hfw.
    unfold counter in Hc.
    destruct (readConfig d) as [stored m0]. cbn [fst] in Hc. subst stored.
    destruct d as [cf nf]. eexists. split; [reflexivity|].
    apply in_or_app. right. left. reflexivity.
Qed.

(** X5. A delete for a specifier that resolves to nothing, or that the
    user does not confirm, leaves both files as they are.  A confirmed
    delete whose write completes removes the record the specifier
    resolves to and no other: the store afterwards holds the remaining
    records, in ascending order of id, and the counter is untouched. *)
Theorem handleDeleteCommand_removes_one : forall specifier confirm d,
  match findCommandByIdOrAlias specifier (records d) with
  | None =>
      forall fw, fst (handleDeleteCommand fw specifier confirm d) = d
  | Some (cmdToDelete, index) =>
      (forall fw, fst (handleDeleteCommand fw specifier false d) = d)
      /\ (truthy specifier = true ->
          Permutation
            (cmdToDelete
             :: records (fst (handleDeleteCommand noFaults specifier true d)))
            (records d)
          /\ sortedById (records (fst (handleDeleteCommand noFaults specifier true d)))
          /\ configFile (fst (handleDeleteCommand noFaults specifier true d))
             = configFile d
          /\ In (DeleteSuccess (id cmdToDelete))
                (snd (handleDeleteCommand noFaults specifier true d)))
  end.
Proof.
  intros specifier confirm d.
  pose proof (records_normal d) as Hnormal.
  pose proof (fun l => readCommands_writeCommands l d) as Hback.
  unfold records in *. unfold handleDeleteCommand.
  destruct (readCommands d) as [commands m0]. cbn [fst] in *.
  destruct (findCommandByIdOrAlias specifier commands) as [[cmd index]|] eqn:Ef.
  - split.
    + intros fw. destruct (negb (truthy specifier)); reflexivity.
    + intros Hs. rewrite Hs. cbn [negb].
      apply findCommandByIdOrAlias_nth in Ef.
      pose proof (remove_nth_perm index commands cmd Ef) as Hperm.
      assert (Hrest : Forall normal (remove_nth index commands)).
      { rewrite Forall_forall in *. intros c Hc. apply Hnormal.
        exact (In_remove_nth _ _ _ Hc). }
      specialize (Hback (remove_nth index commands) (normal_nonzero _ Hrest)).
      assert (Hcfg : configFile (fst (writeCommands noFaults
                                        (remove_nth index commands) d))
                     = configFile d) by reflexivity.
      destruct (writeCommands noFaults (remove_nth index commands) d) as [d' m1].
      cbn [fst snd] in *. rewrite Hback. cbn [fst].
      assert (Hsorted : Forall normal (sortById (remove_nth index commands))).
      { apply (Permutation_Forall (x := remove_nth index commands));
          [symmetry; apply sortById_perm|exact Hrest]. }
      rewrite (map_restore_normal _ Hsorted).
      split; [|split; [apply sortById_sorted|split; [exact Hcfg|]]].
      * transitivity (cmd :: remove_nth index commands);
          [constructor; apply sortById_perm|exact Hperm].
      * rewrite !in_app_iff. right. right. left. reflexivity.
  - intros fw. destruct (negb (truthy specifier)); reflexivity.
Qed.

(** X6. An edit in which every answer is blank or repeats the current
    value, with the clear marker given only for a field that is already
    [false], changes nothing: it reports that no changes were detected
    and writes no file, whatever faults a write would have met. *)
Theorem handleEditCommand_no_changes :
  forall fw specifier d cmdToEdit index entered aliasInput commentInput,
  truthy specifier = true ->
  findCommandByIdOrAlias specifier (records d) = Some (cmdToEdit, index) ->
  trim entered = EmptyString \/ trim entered = command cmdToEdit ->
  (aliasInput = " " /\ alias cmdToEdit = None)
  \/ (aliasInput <> " "
      /\ (trim aliasInput = EmptyString
          \/ trim aliasInput = or_empty (alias cmdToEdit))) ->
  (commentInput = " " /\ comment cmdToEdit = None)
  \/ (commentInput <> " "
      /\ (trim commentInput = EmptyString
          \/ trim commentInput = or_empty (comment cmdToEdit))) ->
  handleEditCommand fw specifier
    (mkEditResponse (Some entered) (Some aliasInput) (Some commentInput)) d
  = (d, snd (readCommands d) ++ [EditHeader cmdToEdit; NoChanges]).
Proof.
  intros fw specifier d cmdToEdit index entered aliasInput commentInput
         Hs Hfound Hcmd Halias Hcomment.
  pose proof (records_normal d) as Hnormal.
  unfold records in *. unfold handleEditCommand. rewrite Hs. cbn [negb].
  destruct (readCommands d) as [commands m0]. cbn [fst snd] in *.
  rewrite Hfound. cbn [newCommand newAlias newComment].
  assert (Hn : normal cmdToEdit).
  { rewrite Forall_forall in Hnormal. apply Hnormal.
    exact (findCommandByIdOrAlias_In _ _ _ _ Hfound). }
  destruct Hn as (_ & _ & Ha & Hm).
  rewrite (editField_keeps _ _ Ha Halias), (editField_keeps _ _ Hm Hcomment).
  assert (Hc1 : truthy (trim entered)
                && negb (String.eqb (trim entered) (command cmdToEdit)) = false).
  { destruct Hcmd as [->| ->]; [reflexivity|].
    rewrite String.eqb_refl. apply andb_false_r. }
  rewrite Hc1. reflexivity.
Qed.

(** X7. Whatever is entered, an edit whose write completes keeps the
    number of records and their ids: the ids of the store afterwards are
    those of the store before, and every record afterwards is a record of
    before or carries the id of the record the specifier resolved to. *)
Theorem handleEditCommand_keeps_ids : forall specifier response d,
  Permutation
    (map id (records (fst (handleEditCommand noFaults specifier response d))))
    (map id (records d))
  /\ configFile (fst (handleEditCommand noFaults specifier response d))
     = configFile d
  /\ forall c,
       In c (records (fst (handleEditCommand noFaults specifier response d))) ->
       In c (records d)
       \/ exists cmdToEdit index,
            findCommandByIdOrAlias specifier (records d) = Some (cmdToEdit, index)
            /\ id c = id cmdToEdit.
Proof.
  intros specifier response d.
  pose proof (records_normal d) as Hnormal.
  pose proof (fun l => readCommands_writeCommands l d) as Hback.
  unfold handleEditCommand.
  destruct (negb (truthy specifier)); [cbn [fst]; auto|].
  unfold records in *.
  destruct (readCommands d) as [commands m0] eqn:Eread. cbn [fst] in *.
  assert (Hsame : forall out : list Msg,
            Permutation (map id (fst (readCommands (fst (d, out))))) (map id commands)
            /\ configFile (fst (d, out)) = configFile d
            /\ forall c, In c (fst (readCommands (fst (d, out)))) ->
                 In c commands
                 \/ exists cmdToEdit index,
                      findCommandByIdOrAlias specifier commands
                      = Some (cmdToEdit, index)
                      /\ id c = id cmdToEdit).
  { intros out. cbn [fst]. rewrite Eread. cbn [fst]. auto. }
  destruct (findCommandByIdOrAlias specifier commands) as [[cmd index]|] eqn:Ef;
    [|apply Hsame].
  destruct (newCommand response) as [entered|]; [|apply Hsame].
  destruct (newAlias response) as [aliasInput|]; [|apply Hsame].
  destruct (newComment response) as [commentInput|]; [|apply Hsame].
  destruct (editField (alias cmd) aliasInput) as [finalAlias changed2].
  destruct (editField (comment cmd) commentInput) as [finalComment changed3].
  match goal with
  | |- context [if ?b then _ else _] => destruct b; [|apply Hsame]
  end.
  match goal with
  | |- context [if ?b then _ else _] => destruct b; [apply Hsame|]
  end.
  pose proof (findCommandByIdOrAlias_nth _ _ _ _ Ef) as Hnth.
  pose proof (findCommandByIdOrAlias_In _ _ _ _ Ef) as Hin.
  match goal with
  | |- context [writeCommands noFaults (set_nth index ?e commands) d] =>
      set (edited := e) in *
  end.
  assert (Hids : map id (set_nth index edited commands) = map id commands).
  { apply (map_id_set_nth _ _ _ cmd Hnth). reflexivity. }
  assert (Hnz : Forall (fun c => id c <> 0) (set_nth index edited commands)).
  { apply Forall_forall. intros c Hc. apply In_set_nth in Hc.
    rewrite Forall_forall in Hnormal.
    destruct Hc as [->|Hc]; [apply (Hnormal cmd Hin)|apply (Hnormal c Hc)]. }
  specialize (Hback _ Hnz).
  assert (Hcfg : configFile (fst (writeCommands noFaults
                                    (set_nth index edited commands) d))
                 = configFile d) by reflexivity.
  destruct (writeCommands noFaults (set_nth index edited commands) d) as [d' m1].
  cbn [fst] in *. rewrite Hback. cbn [fst].
  assert (Hnzs : Forall (fun c => id c <> 0)
                   (sortById (set_nth index edited commands))).
  { apply (Permutation_Forall (x := set_nth index edited commands));
      [symmetry; apply sortById_perm|exact Hnz]. }
  split; [|split; [exact Hcfg|]].
  - rewrite map_map.
    rewrite (map_ext_in _ id (sortById (set_nth index edited commands))).
    + rewrite <- Hids. apply Permutation_map. apply sortById_perm.
    + intros a Ha. rewrite Forall_forall in Hnzs. apply restore_id. exact (Hnzs a Ha).
  - intros c Hc. apply in_map_iff in Hc. destruct Hc as (x & <- & Hx).
    apply (Permutation_in _ (sortById_perm _)) in Hx.
    apply In_set_nth in Hx. destruct Hx as [->|Hx].
    + right. exists cmd, index. split; [reflexivity|].
      transitivity (id edited); [|reflexivity].
      apply restore_id. change (id cmd <> 0).
      rewrite Forall_forall in Hnormal. apply (Hnormal cmd Hin).
    + left. rewrite Forall_forall in Hnormal.
      rewrite restore_normal by exact (Hnormal x Hx). exact Hx.
Qed.

End CounterAndEdits.

Lemma getNextId_issues_counter_witness :
  exists d1 m1,
    getNextId (codec := Unary.codec) noFaults Demo.oneRecord = Some (2, d1, m1)
    /\ counter (codec := Unary.codec) d1 = Some 3.
Proof.
  destruct (getNextId_issues_counter (codec := Unary.codec)
              (laws := UnaryFacts.laws) Demo.oneRecord 2)
    as [(d1 & m1 & Hrun & Hc & _) _].
  - reflexivity.
  - vm_compute. split; [discriminate|reflexivity].
  - exists d1, m1. split; assumption.
Defined.

Lemma handleDeleteCommand_removes_one_witness :
  Permutation
    (mkCommand 2 (Some "build") "make" None
     :: records (codec := Unary.codec)
          (fst (handleDeleteCommand (codec := Unary.codec) noFaults "BUILD" true
                  Demo.twoRecords)))
    (records (codec := Unary.codec) Demo.twoRecords).
Proof.
  pose proof (handleDeleteCommand_removes_one (codec := Unary.codec)
                (laws := UnaryFacts.laws) "BUILD" true Demo.twoRecords) as H.
  change (findCommandByIdOrAlias "BUILD" (records (codec := Unary.codec) Demo.twoRecords))
    with (Some (mkCommand 2 (Some "build") "make" None, 1%nat)) in H.
  cbv beta iota in H. destruct H as [_ H]. destruct (H eq_refl) as [Hperm _].
  exact Hperm.
Defined.

Lemma handleEditCommand_no_changes_witness :
  handleEditCommand (codec := Unary.codec) noFaults "2"
    (mkEditResponse (Some "make") (Some EmptyString) (Some EmptyString))
    Demo.twoRecords
  = (Demo.twoRecords,
     [EditHeader (mkCommand 2 (Some "build") "make" None); NoChanges]).
Proof.
  apply (handleEditCommand_no_changes (codec := Unary.codec) noFaults "2"
           Demo.twoRecords (mkCommand 2 (Some "build") "make" None) 1
           "make" EmptyString EmptyString).
  - reflexivity.
  - reflexivity.
  - right. reflexivity.
  - right. split; [discriminate|left; reflexivity].
  - right. split; [discriminate|left; reflexivity].
Defined.

Lemma handleEditCommand_keeps_ids_witness :
  Permutation
    (map id (records (codec := Unary.codec)
               (fst (handleEditCommand (codec := Unary.codec) noFaults "1"
                       (mkEditResponse (Some "ls -la") (Some "list") (Some " "))
                       Demo.twoRecords))))
    (map id (records (codec := Unary.codec) Demo.twoRecords)).
Proof.
  apply (handleEditCommand_keeps_ids (codec := Unary.codec)
           (laws := UnaryFacts.laws)).
Defined.

(** The edit of the last witness evaluated. *)
Example handleEditCommand_sets_fields :
  records (codec := Unary.codec)
    (fst (handleEditCommand (codec := Unary.codec) noFaults "1"
            (mkEditResponse (Some "ls -la") (Some "list") (Some " "))
            Demo.twoRecords))
  = [ mkCommand 1 (Some "list") "ls -la" None;
      mkCommand 2 (Some "build") "make" None ].
Proof. reflexivity. Qed.

(* ================================================================= *)
(** ** Further properties: aliases in use, and searching *)

Lemma carries_alias_matches : forall a c,
  truthy a = true -> carries_alias a c ->
  alias_matches (toLowerCase a) c = true.
Proof.
  intros a c Ha (ca & Hca & Hlow). unfold alias_matches. rewrite Hca, Hlow.
  rewrite String.eqb_refl, andb_true_r.
  rewrite <- truthy_toLowerCase, Hlow, truthy_toLowerCase. exact Ha.
Qed.

Lemma find_from_None_iff : forall idSearch searchLower commands i,
  find_from idSearch searchLower i commands = None
  <-> forall c, In c commands ->
        (id_matches idSearch c || alias_matches searchLower c) = false.
Proof.
  intros idSearch searchLower commands i. split.
  - intros H. pose proof (find_from_first idSearch searchLower commands i) as Hf.
    rewrite H in Hf. exact Hf.
  - intros H. pose proof (find_from_first idSearch searchLower commands i) as Hf.
    destruct (find_from idSearch searchLower i commands) as [[cmd k]|];
      [|reflexivity].
    destruct Hf as (j & _ & Hnth & Hm & _).
    rewrite (H cmd (nth_error_In _ _ Hnth)) in Hm. discriminate.
Qed.

(** X8. The uniqueness test and the resolver agree on what an alias in
    use is: for an alias that is not empty, [isAliasUnique] without
    excluded id answers [false] exactly when some record matches the alias
    in the resolver's comparison, and then the alias resolves to a record.
    If [parseInt] does not read the alias as a number, the alias is
    unique exactly when it resolves to nothing. *)
Theorem isAliasUnique_agrees_with_resolver : forall a commands,
  truthy a = true ->
  (isAliasUnique (Some a) commands None = false
   <-> exists c, In c commands /\ alias_matches (toLowerCase a) c = true)
  /\ (isAliasUnique (Some a) commands None = false ->
      exists c index, findCommandByIdOrAlias a commands = Some (c, index))
  /\ (parseInt a = None ->
      (isAliasUnique (Some a) commands None = true
       <-> findCommandByIdOrAlias a commands = None)).
Proof.
  intros a commands Ha.
  assert (Hiff : isAliasUnique (Some a) commands None = false
                 <-> exists c, In c commands
                               /\ alias_matches (toLowerCase a) c = true).
  { split.
    - intros Hu. unfold isAliasUnique in Hu. rewrite Ha in Hu. simpl in Hu.
      apply negb_false_iff in Hu. apply existsb_exists in Hu.
      destruct Hu as (c & Hin & Hc). exists c. split; [exact Hin|].
      unfold alias_matches. destruct (alias c) as [ca|]; [|discriminate].
      rewrite andb_true_r in Hc. exact Hc.
    - intros (c & Hin & Hm). apply not_true_iff_false. intros Hu.
      pose proof (proj1 (isAliasUnique_true_iff a commands None Ha) Hu c Hin
                    (alias_matches_carries _ _ Hm)) as Hx.
      discriminate Hx. }
  split; [exact Hiff|]. split.
  - intros Hu. apply Hiff in Hu. destruct Hu as (c & Hin & Hm).
    destruct (findCommandByIdOrAlias a commands) as [[c' i]|] eqn:Ef; [eauto|].
    unfold findCommandByIdOrAlias in Ef.
    rewrite find_from_None_iff in Ef. specialize (Ef c Hin).
    rewrite Hm, orb_true_r in Ef. discriminate.
  - intros Hp. unfold findCommandByIdOrAlias. rewrite Hp, find_from_None_iff.
    split.
    + intros Hu c Hin. simpl. apply not_true_iff_false. intros Hm.
      assert (Hf : isAliasUnique (Some a) commands None = false)
        by (apply Hiff; eauto).
      congruence.
    + intros Hnone. apply not_false_iff_true. intros Hf. apply Hiff in Hf.
      destruct Hf as (c & Hin & Hm). specialize (Hnone c Hin).
      simpl in Hnone. congruence.
Qed.

Lemma isAliasUnique_agrees_with_resolver_witness :
  isAliasUnique (Some "Build")
    [mkCommand 1 None "ls" None; mkCommand 2 (Some "build") "make" None] None
  = false
  <-> exists c,
        In c [mkCommand 1 None "ls" None; mkCommand 2 (Some "build") "make" None]
        /\ alias_matches (toLowerCase "Build") c = true.
Proof.
  apply (isAliasUnique_agrees_with_resolver "Build"
           [mkCommand 1 None "ls" None; mkCommand 2 (Some "build") "make" None]).
  reflexivity.
Defined.

Lemma strip_prefix_refl : forall s, strip_prefix s s = Some EmptyString.
Proof.
  induction s as [|c s IH]; simpl; [reflexivity|].
  rewrite Ascii.eqb_refl. exact IH.
Qed.

Lemma includes_refl : forall s, includes s s = true.
Proof.
  intros s. unfold includes.
  destruct s as [|c s]; [reflexivity|].
  cbn [split_first]. rewrite strip_prefix_refl. reflexivity.
Qed.

Section Searching.

Context {codec : JsonCodec}.


End Searching.


(* ================================================================= *)
(** ** Further properties: the power syntax *)

Section PowerSyntaxFacts.

#[local] Open Scope string_scope.

Lemma split_colon_not_nil : forall s, split_colon s <> [].
Proof.
  induction s as [|c s IH]; simpl; [discriminate|].
  destruct (Ascii.eqb c ":"); [discriminate|].
  destruct (split_colon s); discriminate.
Qed.

Lemma split_colon_free : forall s, colon_free s = true -> split_colon s = [s].
Proof.
  induction s as [|c s IH]; intros H; simpl in *; [reflexivity|].
  apply andb_true_iff in H. destruct H as [Hc Hs].
  apply negb_true_iff in Hc. rewrite Hc, (IH Hs). reflexivity.
Qed.

Lemma split_colon_app : forall s rest,
  colon_free s = true ->
  split_colon (s ++ String ":" rest) = s :: split_colon rest.
Proof.
  induction s as [|c s IH]; intros rest H; simpl in *; [reflexivity|].
  apply andb_true_iff in H. destruct H as [Hc Hs].
  apply negb_true_iff in Hc. rewrite Hc, (IH rest Hs). reflexivity.
Qed.

Lemma join_cons_char : forall sep c p ps,
  join sep (String c p :: ps) = String c (join sep (p :: ps)).
Proof. intros sep c p [|q ps]; reflexivity. Qed.

Lemma join_split_colon : forall s, join ":" (split_colon s) = s.
Proof.
  induction s as [|c s IH]; simpl; [reflexivity|].
  destruct (Ascii.eqb_spec c ":") as [->|Hc].
  - destruct (split_colon s) as [|p ps] eqn:E.
    + exfalso. exact (split_colon_not_nil s E).
    + change (join ":" (EmptyString :: p :: ps))
        with (String ":" (join ":" (p :: ps))).
      rewrite IH. reflexivity.
  - destruct (split_colon s) as [|p ps] eqn:E.
    + exfalso. exact (split_colon_not_nil s E).
    + rewrite join_cons_char, IH. reflexivity.
Qed.

Lemma split_colon_parts_free : forall s, Forall (fun p => colon_free p = true) (split_colon s).
Proof.
  induction s as [|c s IH]; simpl; [repeat constructor|].
  destruct (Ascii.eqb c ":") eqn:Hc; [constructor; [reflexivity|exact IH]|].
  destruct (split_colon s) as [|p ps]; [repeat constructor; simpl; rewrite Hc; reflexivity|].
  inversion IH as [|? ? Hp Hps]; subst.
  constructor; [simpl; rewrite Hc, Hp; reflexivity|exact Hps].
Qed.

Lemma trimStart_colon_free : forall s, colon_free s = true -> colon_free (trimStart s) = true.
Proof.
  induction s as [|c s IH]; intros H; simpl in *; [reflexivity|].
  apply andb_true_iff in H. destruct H as [Hc Hs].
  destruct (is_ws c); [exact (IH Hs)|]. simpl. rewrite Hc, Hs. reflexivity.
Qed.

Lemma trimEnd_colon_free : forall s, colon_free s = true -> colon_free (trimEnd s) = true.
Proof.
  induction s as [|c s IH]; intros H; simpl in *; [reflexivity|].
  apply andb_true_iff in H. destruct H as [Hc Hs]. specialize (IH Hs).
  destruct (trimEnd s) as [|x t].
  - destruct (is_ws c); [reflexivity|]. simpl. rewrite Hc. reflexivity.
  - change (colon_free (String c (String x t)) = true).
    cbn [colon_free] in *. rewrite Hc. exact IH.
Qed.

Lemma trim_colon_free : forall s, colon_free s = true -> colon_free (trim s) = true.
Proof.
  intros s H. unfold trim. apply trimEnd_colon_free, trimStart_colon_free, H.
Qed.

Lemma all_dot_app : forall a b, all_dot (a ++ b) = all_dot a && all_dot b.
Proof.
  induction a as [|c a IH]; intros b; simpl; [reflexivity|].
  rewrite IH, andb_assoc. reflexivity.
Qed.

(** X10. On a command line of ASCII characters, the power syntax
    [d:a:<command>:<alias>:<comment>] hands the three parts over, trimmed,
    when the command is not blank, command and alias hold no colon and
    the text holds no line break (LF or CR); the comment may hold colons.
    Alias and comment may be left out.  Whatever such a command line is, a
    command that is handed over is not empty and holds no colon, and
    neither does the alias: a command with a colon in it cannot be given
    this way. *)
Theorem powerSyntax_parts : forall input,
  ascii_only (join " " input) = true ->
  (forall c a m,
     join " " input = "d:a:" ++ c ++ String ":" (a ++ String ":" m) ->
     colon_free c = true -> colon_free a = true ->
     all_dot c = true -> all_dot a = true -> all_dot m = true ->
     truthy (trim c) = true ->
     powerSyntax input = Some (trim c, trim a, trim m))
  /\ (forall c a,
        join " " input = "d:a:" ++ c ++ String ":" a ->
        colon_free c = true -> colon_free a = true ->
        all_dot c = true -> all_dot a = true ->
        truthy (trim c) = true ->
        powerSyntax input = Some (trim c, trim a, EmptyString))
  /\ (forall c,
        join " " input = "d:a:" ++ c ->
        colon_free c = true -> all_dot c = true -> truthy (trim c) = true ->
        powerSyntax input = Some (trim c, EmptyString, EmptyString))
  /\ (forall command alias comment,
        powerSyntax input = Some (command, alias, comment) ->
        truthy command = true
        /\ colon_free command = true /\ colon_free alias = true).
Proof.
  intros input _. unfold powerSyntax. split; [|split; [|split]].
  - intros c a m -> Hc Ha Hdc Hda Hdm Ht.
    change (strip_prefix "d:a:" ("d:a:" ++ c ++ String ":" (a ++ String ":" m)))
      with (Some (c ++ String ":" (a ++ String ":" m))%string).
    cbv iota.
    assert (Hrest : truthy (c ++ String ":" (a ++ String ":" m))
                    && all_dot (c ++ String ":" (a ++ String ":" m)) = true).
    { rewrite all_dot_app. cbn [all_dot]. rewrite all_dot_app. cbn [all_dot].
      rewrite Hdc, Hda, Hdm. destruct c; reflexivity. }
    rewrite Hrest.
    rewrite (split_colon_app c _ Hc), (split_colon_app a _ Ha).
    cbn [nth nth_error skipn]. rewrite join_split_colon, Ht. reflexivity.
  - intros c a -> Hc Ha Hdc Hda Ht.
    change (strip_prefix "d:a:" ("d:a:" ++ c ++ String ":" a))
      with (Some (c ++ String ":" a)%string).
    cbv iota.
    assert (Hrest : truthy (c ++ String ":" a) && all_dot (c ++ String ":" a) = true).
    { rewrite all_dot_app. cbn [all_dot]. rewrite Hdc, Hda. destruct c; reflexivity. }
    rewrite Hrest.
    rewrite (split_colon_app c _ Hc), (split_colon_free a Ha).
    cbn [nth nth_error skipn join]. rewrite Ht. reflexivity.
  - intros c -> Hc Hdc Ht.
    change (strip_prefix "d:a:" ("d:a:" ++ c)) with (Some c).
    cbv iota.
    assert (Hrest : truthy c && all_dot c = true).
    { rewrite Hdc. destruct c; [discriminate Ht|reflexivity]. }
    rewrite Hrest, (split_colon_free c Hc).
    cbn [nth nth_error skipn join]. rewrite Ht. reflexivity.
  - intros command alias comment H.
    destruct (strip_prefix "d:a:" (join " " input)) as [rest|]; [|discriminate].
    destruct (truthy rest && all_dot rest); [|discriminate].
    pose proof (split_colon_parts_free rest) as Hparts.
    destruct (split_colon rest) as [|p0 ps] eqn:E.
    { exfalso. exact (split_colon_not_nil rest E). }
    cbn [nth] in H. destruct (truthy (trim p0)) eqn:Ht; [|discriminate].
    injection H as <- <- <-.
    inversion Hparts as [|? ? Hp0 Hps]; subst.
    split; [exact Ht|]. split; [apply trim_colon_free; exact Hp0|].
    destruct ps as [|p1 ps']; cbn [nth_error]; [reflexivity|].
    inversion Hps; subst. apply trim_colon_free. assumption.
Qed.

End PowerSyntaxFacts.

Lemma powerSyntax_parts_witness :
  powerSyntax ["d:a:echo"; "Hello"; "World:hello:Simple"; "echo,"; "see"; "RFC:1"]
  = Some ("echo Hello World", "hello", "Simple echo, see RFC:1").
Proof.
  apply (proj1 (powerSyntax_parts
                  ["d:a:echo"; "Hello"; "World:hello:Simple"; "echo,"; "see"; "RFC:1"]
                  eq_refl)
           "echo Hello World" "hello" "Simple echo, see RFC:1");
    reflexivity.
Defined.

(** A command with a colon in it is cut at the colon. *)
Example powerSyntax_cuts_at_colon :
  powerSyntax ["d:a:curl"; "http://example.org:web"]
  = Some ("curl http", "//example.org", "web").
Proof. reflexivity. Qed.

(* ================================================================= *)
(** ** Further properties: ids and aliases stay distinct *)

Lemma aliasKeys_app : forall l1 l2, aliasKeys (l1 ++ l2) = aliasKeys l1 ++ aliasKeys l2.
Proof.
  induction l1 as [|c l1 IH]; intros l2; simpl; [reflexivity|].
  destruct (alias c) as [a|]; [destruct (truthy a)|]; rewrite IH; reflexivity.
Qed.

Lemma aliasKeys_perm : forall l l',
  Permutation l l' -> Permutation (aliasKeys l) (aliasKeys l').
Proof.
  intros l l' H. induction H as [|x l l' H IH|x y l|l l' l'' H1 IH1 H2 IH2].
  - reflexivity.
  - change (x :: l) with ([x] ++ l). change (x :: l') with ([x] ++ l').
    rewrite !aliasKeys_app. apply Permutation_app_head. exact IH.
  - change (y :: x :: l) with ([y] ++ [x] ++ l).
    change (x :: y :: l) with ([x] ++ [y] ++ l).
    rewrite !aliasKeys_app, !app_assoc.
    apply Permutation_app_tail. apply Permutation_app_comm.
  - etransitivity; eassumption.
Qed.

Lemma aliasKeys_map_restore : forall l, aliasKeys (map restore l) = aliasKeys l.
Proof.
  induction l as [|c l IH]; simpl; [reflexivity|].
  rewrite IH, field_or_false_toField.
  destruct (alias c) as [[|x a]|]; reflexivity.
Qed.

Lemma In_aliasKeys : forall k l,
  In k (aliasKeys l) <-> exists c, In c l /\ alias_matches k c = true.
Proof.
  intros k l. induction l as [|c l IH]; simpl.
  - split; [intros []|intros (c & [] & _)].
  - unfold alias_matches at 1.
    destruct (alias c) as [a|] eqn:Ea.
    + destruct (truthy a) eqn:Ht; simpl.
      * rewrite IH. split.
        -- intros [<-|(x & Hx & Hm)].
           ++ exists c. split; [left; reflexivity|].
              unfold alias_matches. rewrite Ea, Ht, String.eqb_refl. reflexivity.
           ++ exists x. split; [right; exact Hx|exact Hm].
        -- intros (x & [<-|Hx] & Hm).
           ++ left. unfold alias_matches in Hm. rewrite Ea, Ht in Hm.
              apply String.eqb_eq in Hm. exact Hm.
           ++ right. exists x. split; assumption.
      * rewrite IH. split.
        -- intros (x & Hx & Hm). exists x. split; [right; exact Hx|exact Hm].
        -- intros (x & [<-|Hx] & Hm).
           ++ unfold alias_matches in Hm. rewrite Ea, Ht in Hm. discriminate.
           ++ exists x. split; assumption.
    + rewrite IH. split.
      * intros (x & Hx & Hm). exists x. split; [right; exact Hx|exact Hm].
      * intros (x & [<-|Hx] & Hm).
        -- unfold alias_matches in Hm. rewrite Ea in Hm. discriminate.
        -- exists x. split; assumption.
Qed.

Lemma existsb_alias_matches_keys : forall k l,
  existsb (alias_matches k) l = false -> ~ In k (aliasKeys l).
Proof.
  intros k l H Hin. apply In_aliasKeys in Hin. destruct Hin as (c & Hc & Hm).
  assert (Ht : existsb (alias_matches k) l = true)
    by (apply existsb_exists; eauto).
  congruence.
Qed.

Lemma NoDup_snoc : forall (A : Type) (l : list A) x,
  NoDup l -> ~ In x l -> NoDup (l ++ [x]).
Proof.
  intros A l x Hl Hx.
  apply (Permutation_NoDup (l := x :: l)).
  - apply Permutation_cons_append.
  - constructor; assumption.
Qed.

Lemma nth_error_decompose : forall index (l : list Command) c e,
  nth_error l index = Some c ->
  exists pre post,
    l = pre ++ c :: post
    /\ set_nth index e l = pre ++ e :: post
    /\ remove_nth index l = pre ++ post.
Proof.
  intros index l. revert index.
  induction l as [|x l IH]; intros [|i] c e H; simpl in *; try discriminate.
  - injection H as <-. exists [], l. auto.
  - destruct (IH i c e H) as (pre & post & -> & -> & ->).
    exists (x :: pre), post. auto.
Qed.

Section Distinct.

Context {codec : JsonCodec} {laws : JsonCodecLaws codec}.

Lemma distinctRecords_after_write : forall written d,
  Forall (fun c => id c <> 0) written ->
  distinctRecords written ->
  distinctRecords (records (fst (writeCommands noFaults written d))).
Proof.
  intros written d Hnz [Hids Hkeys]. unfold records.
  rewrite readCommands_writeCommands by exact Hnz. cbn [fst].
  assert (Hs : Forall (fun c => id c <> 0) (sortById written)).
  { apply (Permutation_Forall (x := written)); [|exact Hnz].
    symmetry. apply sortById_perm. }
  split.
  - rewrite map_map.
    rewrite (map_ext_in _ id (sortById written)).
    + apply (Permutation_NoDup (l := map id written)); [|exact Hids].
      apply Permutation_map. symmetry. apply sortById_perm.
    + intros a Ha. rewrite Forall_forall in Hs. apply restore_id. exact (Hs a Ha).
  - rewrite aliasKeys_map_restore.
    apply (Permutation_NoDup (l := aliasKeys written)); [|exact Hkeys].
    apply aliasKeys_perm. symmetry. apply sortById_perm.
Qed.

End Distinct.

Lemma keys_not_in_when_unique : forall a commands excludeId,
  truthy a = true ->
  isAliasUnique (Some a) commands excludeId = true ->
  forall c, In c commands -> alias_matches (toLowerCase a) c = true ->
    excludeId = Some (id c).
Proof.
  intros a commands excludeId Ha Hu c Hc Hm.
  exact (proj1 (isAliasUnique_true_iff a commands excludeId Ha) Hu c Hc
           (alias_matches_carries _ _ Hm)).
Qed.

Lemma importedRecords_distinct : forall entries present nextId,
  NoDup (map id present) -> (forall c, In c present -> id c < nextId) ->
  NoDup (aliasKeys present) ->
  distinctRecords (present ++ importedRecords present nextId entries).
Proof.
  induction entries as [|e rest IH]; intros present nextId Hids Hlt Hkeys.
  - simpl. rewrite app_nil_r. split; assumption.
  - cbn [importedRecords].
    set (r := importedRecord present nextId e).
    replace (present ++ r :: importedRecords (present ++ [r]) (nextId + 1) rest)
      with ((present ++ [r]) ++ importedRecords (present ++ [r]) (nextId + 1) rest)
      by (rewrite <- app_assoc; reflexivity).
    apply IH.
    + rewrite map_app. apply NoDup_snoc; [exact Hids|].
      intros Hin. apply in_map_iff in Hin. destruct Hin as (c & Hc & Hin).
      specialize (Hlt c Hin). simpl in Hc. lia.
    + intros c Hc. apply in_app_or in Hc. destruct Hc as [Hc|[<-|[]]].
      * specialize (Hlt c Hc). lia.
      * simpl. lia.
    + rewrite aliasKeys_app. cbn [aliasKeys r importedRecord alias].
      unfold keptAlias.
      destruct (field_or_false (raw_alias e)) as [a|];
        [|rewrite app_nil_r; exact Hkeys].
      destruct (has_space_or_colon (trim a)); cbn [negb andb];
        [rewrite app_nil_r; exact Hkeys|].
      destruct (existsb (alias_matches (toLowerCase (trim a))) present) eqn:Ex;
        cbn [negb]; [rewrite app_nil_r; exact Hkeys|].
      destruct (truthy (trim a)); [|rewrite app_nil_r; exact Hkeys].
      apply NoDup_snoc; [exact Hkeys|].
      apply existsb_alias_matches_keys. exact Ex.
Qed.

Lemma replaceLoop_distinct :
  forall entries seen present nextId out present' nextId' out',
  replaceLoop entries seen present nextId out = Completed present' nextId' out' ->
  NoDup (map id present) -> (forall c, In c present -> id c < nextId) ->
  NoDup (aliasKeys present) -> (forall k, In k (aliasKeys present) -> In k seen) ->
  distinctRecords present'.
Proof.
  induction entries as [|e rest IH];
    intros seen present nextId out present' nextId' out' H Hids Hlt Hkeys Hseen;
    simpl in H.
  - injection H as <- <- <-. split; assumption.
  - destruct (importedComment (raw_comment e)) as [text|]; [|discriminate].
    assert (Hids' : forall r, id r = nextId -> NoDup (map id (present ++ [r]))).
    { intros r Hr. rewrite map_app. apply NoDup_snoc; [exact Hids|].
      intros Hin. apply in_map_iff in Hin. destruct Hin as (c & Hc & Hin).
      specialize (Hlt c Hin). simpl in Hc. lia. }
    assert (Hlt' : forall r, id r = nextId ->
                     forall c, In c (present ++ [r]) -> id c < nextId + 1).
    { intros r Hr c Hc. apply in_app_or in Hc. destruct Hc as [Hc|[<-|[]]].
      - specialize (Hlt c Hc). lia.
      - lia. }
    assert (Hplain : forall r, alias r = None ->
                       aliasKeys (present ++ [r]) = aliasKeys present).
    { intros r Hr. rewrite aliasKeys_app. simpl. rewrite Hr. apply app_nil_r. }
    destruct (field_or_false (raw_alias e)) as [a|].
    + destruct (negb (has_space_or_colon (trim a))
                && negb (includes_str seen (toLowerCase (trim a)))) eqn:Hkeep.
      * eapply IH; [exact H|apply Hids'; reflexivity|apply Hlt'; reflexivity| |].
        -- rewrite aliasKeys_app. cbn [aliasKeys alias].
           destruct (truthy (trim a)); [|rewrite app_nil_r; exact Hkeys].
           apply NoDup_snoc; [exact Hkeys|].
           intros Hin. apply Hseen in Hin.
           apply andb_true_iff in Hkeep. destruct Hkeep as [_ Hnot].
           apply negb_true_iff in Hnot.
           assert (Ht : includes_str seen (toLowerCase (trim a)) = true).
           { unfold includes_str. apply existsb_exists.
             exists (toLowerCase (trim a)). split; [exact Hin|].
             apply String.eqb_refl. }
           congruence.
        -- intros k Hk. rewrite aliasKeys_app in Hk. cbn [aliasKeys alias] in Hk.
           apply in_app_or in Hk. destruct Hk as [Hk|Hk].
           ++ right. apply Hseen. exact Hk.
           ++ destruct (truthy (trim a)); [|destruct Hk].
              destruct Hk as [<-|[]]. left. reflexivity.
      * eapply IH; [exact H|apply Hids'; reflexivity|apply Hlt'; reflexivity| |];
          rewrite Hplain by reflexivity; assumption.
    + eapply IH; [exact H|apply Hids'; reflexivity|apply Hlt'; reflexivity| |];
        rewrite Hplain by reflexivity; assumption.
Qed.

Lemma aliasKeys_single : forall c,
  aliasKeys [c] = [] \/ exists a, alias c = Some a /\ truthy a = true
                                  /\ aliasKeys [c] = [toLowerCase a].
Proof.
  intros c. simpl. destruct (alias c) as [a|]; [|left; reflexivity].
  destruct (truthy a) eqn:Ht; [|left; reflexivity].
  right. exists a. auto.
Qed.

Lemma distinctRecords_remove : forall pre c post,
  distinctRecords (pre ++ c :: post) -> distinctRecords (pre ++ post).
Proof.
  intros pre c post [Hids Hkeys]. split.
  - rewrite map_app in *. simpl in Hids. exact (NoDup_remove_1 _ _ _ Hids).
  - change (c :: post) with ([c] ++ post) in Hkeys.
    rewrite !aliasKeys_app in *.
    destruct (aliasKeys_single c) as [E|(a & _ & _ & E)]; rewrite E in Hkeys.
    + exact Hkeys.
    + exact (NoDup_remove_1 _ _ _ Hkeys).
Qed.

Lemma distinctRecords_snoc : forall commands r n,
  distinctRecords commands ->
  (forall c, In c commands -> id c < n) -> id r = n ->
  (truthy_opt (alias r) && negb (isAliasUnique (alias r) commands None)) = false ->
  distinctRecords (commands ++ [r]).
Proof.
  intros commands r n [Hids Hkeys] Hlt Hr Hu. split.
  - rewrite map_app. apply NoDup_snoc; [exact Hids|].
    intros Hin. apply in_map_iff in Hin. destruct Hin as (c & Hc & Hin).
    specialize (Hlt c Hin). simpl in Hc. lia.
  - rewrite aliasKeys_app.
    destruct (aliasKeys_single r) as [->|(a & Ha & Ht & ->)].
    + rewrite app_nil_r. exact Hkeys.
    + apply NoDup_snoc; [exact Hkeys|].
      rewrite Ha in Hu. cbn [truthy_opt] in Hu. rewrite Ht in Hu.
      cbn [andb] in Hu. apply negb_false_iff in Hu.
      intros Hin. apply In_aliasKeys in Hin. destruct Hin as (c & Hc & Hm).
      pose proof (keys_not_in_when_unique a commands None Ht Hu c Hc Hm).
      discriminate.
Qed.

Lemma distinctRecords_replace : forall pre c e post,
  distinctRecords (pre ++ c :: post) -> id e = id c ->
  (truthy_opt (alias e)
   && negb (isAliasUnique (alias e) (pre ++ e :: post) (Some (id c)))) = false ->
  distinctRecords (pre ++ e :: post).
Proof.
  intros pre c e post Hd He Hu.
  pose proof (distinctRecords_remove pre c post Hd) as [_ Hrest].
  destruct Hd as [Hids Hkeys]. split.
  - rewrite map_app in *. simpl in *. rewrite He. exact Hids.
  - change (e :: post) with ([e] ++ post).
    rewrite !aliasKeys_app in *.
    destruct (aliasKeys_single e) as [->|(a & Ha & Ht & ->)].
    + exact Hrest.
    + apply (Permutation_NoDup
               (l := toLowerCase a :: aliasKeys pre ++ aliasKeys post)).
      { apply Permutation_middle. }
      constructor; [|exact Hrest].
      rewrite Ha in Hu. cbn [truthy_opt] in Hu. rewrite Ht in Hu.
      cbn [andb] in Hu. apply negb_false_iff in Hu.
      rewrite <- aliasKeys_app. intros Hin.
      apply In_aliasKeys in Hin. destruct Hin as (x & Hx & Hm).
      assert (Hx' : In x (pre ++ e :: post)).
      { apply in_app_or in Hx. apply in_or_app.
        destruct Hx as [Hx|Hx]; [left; exact Hx|right; right; exact Hx]. }
      pose proof (keys_not_in_when_unique a _ _ Ht Hu x Hx' Hm) as Hid.
      injection Hid as Hid.
      rewrite map_app in Hids. simpl in Hids.
      apply NoDup_remove_2 in Hids. apply Hids.
      rewrite <- map_app. rewrite Hid. apply in_map. exact Hx.
Qed.

Section DistinctPreserved.

Context {codec : JsonCodec} {laws : JsonCodecLaws codec}.

Lemma handleAddCommand_distinct : forall d response d' out,
  counterInvariant d -> distinctRecords (records d) ->
  handleAddCommand noFaults response d = Some (d', out) ->
  distinctRecords (records d').
Proof.
  intros d response d' out Hinv Hd Hrun.
  pose proof (records_nonzero d) as Hnonzero.
  destruct Hinv as (n & Hcounter & Hn & Hids).
  unfold handleAddCommand, getNextId in Hrun.
  pose proof (readCommands_writeConfig noFaults (n + 1) d) as Hsame.
  unfold counter in Hcounter. unfold records in Hids, Hnonzero, Hd.
  destruct (readCommands d) as [commands m0] eqn:Eread. cbn [fst] in *.
  destruct (negb (truthy_opt (resp_command response))).
  { injection Hrun as <- _. unfold records. rewrite Eread. exact Hd. }
  destruct (readConfig d) as [storedOpt m1]. cbn [fst] in *. subst storedOpt.
  destruct (writeConfig noFaults (n + 1) d) as [d1 m2]. cbn [fst] in *.
  match type of Hrun with
  | context [if ?b then _ else _] => destruct b eqn:Econflict
  end.
  { injection Hrun as <- _. unfold records. rewrite Hsame. exact Hd. }
  match type of Hrun with
  | context [writeCommands noFaults ?w d1] =>
      pose proof (distinctRecords_after_write w d1) as Hwrite;
      destruct (writeCommands noFaults w d1) as [d2 m3]
  end.
  cbn [fst] in Hwrite. injection Hrun as <- _. apply Hwrite.
  - apply Forall_app. split.
    + apply Forall_forall. exact Hnonzero.
    + constructor; [simpl; lia|constructor].
  - apply (distinctRecords_snoc commands _ n Hd Hids); [reflexivity|].
    exact Econflict.
Qed.

Lemma handleDeleteCommand_distinct : forall d specifier confirm,
  distinctRecords (records d) ->
  distinctRecords (records (fst (handleDeleteCommand noFaults specifier confirm d))).
Proof.
  intros d specifier confirm Hd.
  pose proof (records_nonzero d) as Hnonzero.
  unfold handleDeleteCommand.
  destruct (negb (truthy specifier)); [exact Hd|].
  pose proof Hd as Hd0.
  unfold records in Hd, Hnonzero.
  destruct (readCommands d) as [commands m0]. cbn [fst] in *.
  destruct (findCommandByIdOrAlias specifier commands) as [[cmd index]|] eqn:Ef;
    [|exact Hd0].
  destruct confirm; [|exact Hd0].
  apply findCommandByIdOrAlias_nth in Ef.
  destruct (nth_error_decompose index commands cmd cmd Ef)
    as (pre & post & Hl & _ & Hrem).
  pose proof (distinctRecords_after_write (remove_nth index commands) d) as Hwrite.
  destruct (writeCommands noFaults _ d) as [d' m1]. cbn [fst] in *.
  apply Hwrite.
  - apply Forall_forall. intros c Hc. apply In_remove_nth in Hc.
    apply Hnonzero. exact Hc.
  - rewrite Hrem. rewrite Hl in Hd. exact (distinctRecords_remove _ _ _ Hd).
Qed.

Lemma handleEditCommand_distinct : forall d specifier response,
  distinctRecords (records d) ->
  distinctRecords (records (fst (handleEditCommand noFaults specifier response d))).
Proof.
  intros d specifier response Hd.
  pose proof (records_nonzero d) as Hnonzero.
  unfold handleEditCommand.
  destruct (negb (truthy specifier)); [exact Hd|].
  pose proof Hd as Hd0.
  unfold records in Hd, Hnonzero.
  destruct (readCommands d) as [commands m0]. cbn [fst] in *.
  destruct (findCommandByIdOrAlias specifier commands) as [[cmd index]|] eqn:Ef;
    [|exact Hd0].
  pose proof (findCommandByIdOrAlias_In _ _ _ _ Ef) as Hin.
  apply findCommandByIdOrAlias_nth in Ef.
  destruct (newCommand response) as [entered|]; [|exact Hd0].
  destruct (newAlias response) as [aliasInput|]; [|exact Hd0].
  destruct (newComment response) as [commentInput|]; [|exact Hd0].
  destruct (editField (alias cmd) aliasInput) as [finalAlias changed2].
  destruct (editField (comment cmd) commentInput) as [finalComment changed3].
  match goal with
  | |- context [if ?b then _ else _] => destruct b; [|exact Hd0]
  end.
  match goal with
  | |- context [if ?b then _ else _] => destruct b eqn:Econflict; [exact Hd0|]
  end.
  match goal with
  | |- context [writeCommands noFaults (set_nth index ?e commands) d] =>
      set (edited := e) in *
  end.
  destruct (nth_error_decompose index commands cmd edited Ef)
    as (pre & post & Hl & Hset & _).
  pose proof (distinctRecords_after_write (set_nth index edited commands) d)
    as Hwrite.
  destruct (writeCommands noFaults _ d) as [d' m1]. cbn [fst] in *.
  apply Hwrite.
  - apply Forall_forall. intros c Hc. apply In_set_nth in Hc.
    destruct Hc as [->|Hc]; [simpl; apply Hnonzero; exact Hin|].
    apply Hnonzero. exact Hc.
  - rewrite Hset in *. rewrite Hl in Hd.
    apply (distinctRecords_replace pre cmd edited post Hd); [reflexivity|].
    exact Econflict.
Qed.

Lemma handleImportCommand_distinct : forall d importFile appendMode confirm d' out,
  distinctRecords (records d) ->
  handleImportCommand noFaults importFile appendMode confirm d = Some (d', out) ->
  distinctRecords (records d').
Proof.
  intros d importFile appendMode confirm d' out Hd Hrun.
  pose proof (records_nonzero d) as Hnonzero.
  pose proof Hd as Hd0.
  unfold handleImportCommand in Hrun.
  assert (Hsame : forall o, Some (d, o) = Some (d', out) ->
                    distinctRecords (records d')).
  { intros o H. injection H as <- _. exact Hd0. }
  destruct importFile as [fileContent|]; [|exact (Hsame _ Hrun)].
  destruct (JSON_parse fileContent) as [[elems| |]|]; try exact (Hsame _ Hrun).
  destruct (length (filterValid elems) =? 0)%nat; [exact (Hsame _ Hrun)|].
  unfold records in Hnonzero, Hd.
  destruct (readCommands d) as [commands m1]. cbn [fst] in *.
  destruct (readConfig d) as [[stored|] m2]; [|discriminate].
  destruct (import_nextId_past_maximum commands stored) as (Hpos & Hmono & Hpast).
  set (nextId := if stored <=? maxCurrentId commands
                 then maxCurrentId commands + 1 else stored) in *.
  destruct appendMode.
  - destruct (aliasesLower commands) as [l|]; [|exact (Hsame _ Hrun)].
    destruct (appendLoop (filterValid elems) commands nextId _)
      as [written nextId' out'|out'] eqn:Eloop; [|exact (Hsame _ Hrun)].
    apply appendLoop_spec in Eloop. destruct Eloop as (-> & -> & ->).
    destruct (writeConfig noFaults _ d) as [d1 m3].
    match type of Hrun with
    | context [writeCommands noFaults ?w d1] =>
        pose proof (distinctRecords_after_write w d1) as Hwrite;
        destruct (writeCommands noFaults w d1) as [d2 m4]
    end.
    cbn [fst] in Hwrite. injection Hrun as <- _. apply Hwrite.
    + apply Forall_app. split; [apply Forall_forall; exact Hnonzero|].
      apply Forall_forall. intros c Hc.
      apply importedRecords_id_range in Hc. lia.
    + destruct Hd as [Hids Hkeys].
      apply importedRecords_distinct; assumption.
  - destruct confirm; [|exact (Hsame _ Hrun)]. cbn [negb] in Hrun.
    destruct (replaceLoop (filterValid elems) [] [] nextId _)
      as [written nextId' out'|out'] eqn:Eloop; [|exact (Hsame _ Hrun)].
    pose proof (replaceLoop_spec _ _ _ _ _ _ _ _ Eloop)
      as (_ & news & Hnews & _ & Hrange).
    apply replaceLoop_distinct in Eloop;
      [|constructor|intros c []|constructor|intros k []].
    destruct (writeConfig noFaults _ d) as [d1 m3].
    match type of Hrun with
    | context [writeCommands noFaults ?w d1] =>
        pose proof (distinctRecords_after_write w d1) as Hwrite;
        destruct (writeCommands noFaults w d1) as [d2 m4]
    end.
    cbn [fst] in Hwrite. injection Hrun as <- _. apply Hwrite; [|exact Eloop].
    apply Forall_forall. intros c Hc. rewrite Hnews in Hc. cbn [app] in Hc.
    specialize (Hrange c Hc). lia.
Qed.

End DistinctPreserved.

Section DistinctReachable.

Context {codec : JsonCodec} {laws : JsonCodecLaws codec}.

Lemma perform_keeps_distinct : forall d op d',
  counterInvariant d -> distinctRecords (records d) ->
  perform op d = Some d' -> distinctRecords (records d').
Proof.
  intros d op d' Hinv Hd Hstep. unfold perform, run in Hstep.
  destruct op as [response|specifier confirm|specifier response
                 |importFile appendMode confirm].
  - destruct (handleAddCommand noFaults response d) as [[d1 out]|] eqn:Erun;
      [|discriminate].
    injection Hstep as <-. exact (handleAddCommand_distinct _ _ _ _ Hinv Hd Erun).
  - injection Hstep as <-. apply handleDeleteCommand_distinct. exact Hd.
  - injection Hstep as <-. apply handleEditCommand_distinct. exact Hd.
  - destruct (handleImportCommand noFaults importFile appendMode confirm d)
      as [[d1 out]|] eqn:Erun; [|discriminate].
    injection Hstep as <-. exact (handleImportCommand_distinct _ _ _ _ _ _ Hd Erun).
Qed.

(** X11. In every store the program reaches from the empty configuration
    directory by operations whose writes complete (add, delete, edit,
    import in either mode), no two records have the same id and no two
    records carry the same alias, compared without regard to case. *)
Theorem reachable_records_distinct : forall d,
  reachable d -> distinctRecords (records d).
Proof.
  intros d H.
  assert (Hboth : counterInvariant d /\ distinctRecords (records d)).
  { induction H as [|d op d' Hreach [IHc IHd] Hstep].
    - split.
      + exists 1. split; [reflexivity|]. split; [lia|]. intros c [].
      + split; constructor.
    - split.
      + destruct (perform_preserves d op IHc) as (d'' & Hd'' & Hinv & _).
        congruence.
      + exact (perform_keeps_distinct d op d' IHc IHd Hstep). }
  exact (proj2 Hboth).
Qed.

End DistinctReachable.

Lemma reachable_records_distinct_witness :
  distinctRecords (records (codec := Unary.codec) Demo.aliased).
Proof.
  apply (reachable_records_distinct (codec := Unary.codec) (laws := UnaryFacts.laws)).
  apply (reachable_step (mkDisk None None)
           (Add (mkAddResponse (Some "make") (Some "build") (Some "")))).
  - apply reachable_empty.
  - reflexivity.
Defined.

(* ================================================================= *)
(** ** Further properties: import in overwrite mode *)

Lemma sortById_of_sorted : forall l, sortedById l -> sortById l = l.
Proof.
  intros l H. induction H as [|x rest Hrest IH Hx]; simpl; [reflexivity|].
  rewrite IH. destruct rest as [|y rest']; [reflexivity|]. simpl.
  inversion Hx as [|? ? Hy _]; subst.
  destruct (Z.leb_spec (id x) (id y)); [reflexivity|lia].
Qed.

Lemma sortedById_ids : forall l l',
  map id l = map id l' -> sortedById l -> sortedById l'.
Proof.
  intros l l' Hmap H. revert l' Hmap.
  induction H as [|x rest Hrest IH Hx]; intros [|y l'] Hmap; simpl in Hmap;
    try discriminate; [constructor|].
  injection Hmap as Hxy Hmap. constructor; [apply IH; exact Hmap|].
  assert (Hids : Forall (fun i => id x <= i) (map id rest))
    by (rewrite Forall_map; exact Hx).
  rewrite Hmap, Forall_map, Hxy in Hids. exact Hids.
Qed.

Lemma importedRecords_sorted : forall entries present nextId,
  sortedById (importedRecords present nextId entries).
Proof.
  induction entries as [|e rest IH]; intros present nextId; simpl; constructor.
  - apply IH.
  - apply Forall_forall. intros r Hr. apply importedRecords_id_range in Hr.
    simpl. lia.
Qed.

Lemma restore_ext : forall r s,
  id r = id s -> command r = command s -> comment r = comment s ->
  or_false (alias r) = or_false (alias s) ->
  restore r = restore s.
Proof.
  intros [i a c m] [i' a' c' m']. simpl. intros -> -> -> Ha.
  unfold restore, withDefaults. simpl.
  rewrite !field_or_false_toField, Ha. reflexivity.
Qed.

Lemma alias_matches_empty : forall c, alias_matches EmptyString c = false.
Proof.
  intros c. unfold alias_matches. destruct (alias c) as [[|x a]|]; reflexivity.
Qed.

Lemma existsb_alias_matches_empty : forall l,
  existsb (alias_matches EmptyString) l = false.
Proof.
  induction l as [|c l IH]; simpl; [reflexivity|].
  rewrite alias_matches_empty. exact IH.
Qed.

Lemma importedComment_Some : forall f text,
  importedComment f = Some text ->
  text = match f with Text s => or_false (Some (trim s)) | _ => None end.
Proof. intros [| |s] text H; simpl in H; congruence. Qed.

(** The overwrite loop computes, up to what is lost in the file, the
    records that the append loop computes from an empty store. *)
(** One turn of the overwrite loop, in a proof about the loop. *)
Ltac use_step Hstep H :=
  apply (fun p1 p2 p3 p4 p5 => Hstep _ _ _ p1 p2 p3 p4 p5 H);
  [reflexivity|reflexivity|reflexivity| |].

Lemma replaceLoop_imported :
  forall entries seen written nextId out written' nextId' out' present,
  replaceLoop entries seen written nextId out = Completed written' nextId' out' ->
  (forall k, truthy k = true ->
     includes_str seen k = existsb (alias_matches k) present) ->
  exists news,
    written' = written ++ news
    /\ map id news = map id (importedRecords present nextId entries)
    /\ map restore news = map restore (importedRecords present nextId entries).
Proof.
  induction entries as [|e rest IH];
    intros seen written nextId out written' nextId' out' present H Hagree;
    simpl in H.
  - injection H as <- <- <-. exists []. rewrite app_nil_r. auto.
  - destruct (importedComment (raw_comment e)) as [text|] eqn:Ecomment;
      [|discriminate].
    apply importedComment_Some in Ecomment.
    pose proof (eq_refl : alias (importedRecord present nextId e)
                          = keptAlias present e) as Hal.
    remember (keptAlias present e) as kept eqn:Ekept.
    assert (Hstep : forall seen' r out1,
              id r = nextId -> command r = trim (textOf (raw_command e)) ->
              comment r = text ->
              or_false (alias r) = or_false kept ->
              (forall k, truthy k = true ->
                 includes_str seen' k
                 = existsb (alias_matches k) (present ++ [importedRecord present nextId e])) ->
              replaceLoop rest seen' (written ++ [r]) (nextId + 1) out1
              = Completed written' nextId' out' ->
              exists news,
                written' = written ++ news
                /\ map id news
                   = map id (importedRecords present nextId (e :: rest))
                /\ map restore news
                   = map restore (importedRecords present nextId (e :: rest))).
    { intros seen' r out1 Hid Hcommand Hcomment Halias Hagree' Hloop.
      destruct (IH _ _ _ _ _ _ _ _ Hloop Hagree') as (news & -> & Hids & Hres).
      exists (r :: news). rewrite <- app_assoc. split; [reflexivity|].
      cbn [importedRecords map]. rewrite Hids, Hres. split.
      - rewrite Hid. reflexivity.
      - f_equal. apply restore_ext; simpl; congruence. }
    assert (Hplain : forall k,
              kept = None \/ kept = Some EmptyString ->
              existsb (alias_matches k) (present ++ [importedRecord present nextId e])
              = existsb (alias_matches k) present).
    { intros k Hk. rewrite existsb_app. cbn [existsb].
      unfold alias_matches at 2. rewrite Hal.
      destruct Hk as [-> | ->]; cbn [truthy andb]; rewrite !orb_false_r;
        reflexivity. }
    unfold keptAlias in Ekept.
    destruct (field_or_false (raw_alias e)) as [a|].
    + destruct (has_space_or_colon (trim a)) eqn:Hsp; cbn [negb andb] in *.
      { use_step Hstep H; [rewrite Ekept; reflexivity|]. intros k Hk.
        rewrite Hplain by (left; exact Ekept). apply Hagree. exact Hk. }
      destruct (truthy (trim a)) eqn:Ht.
      * assert (Htl : truthy (toLowerCase (trim a)) = true)
          by (rewrite truthy_toLowerCase; exact Ht).
        rewrite (Hagree _ Htl) in H.
        destruct (existsb (alias_matches (toLowerCase (trim a))) present) eqn:Eseen;
          cbn [negb] in *.
        -- use_step Hstep H; [rewrite Ekept; reflexivity|]. intros k Hk.
           rewrite Hplain by (left; exact Ekept). apply Hagree. exact Hk.
        -- use_step Hstep H; [rewrite Ekept; reflexivity|]. intros k Hk.
           unfold includes_str. cbn [existsb]. fold (includes_str seen k).
           rewrite (Hagree k Hk), existsb_app. cbn [existsb].
           unfold alias_matches at 3. rewrite Hal, Ekept, Ht. cbn [andb].
           rewrite orb_false_r, (String.eqb_sym k). apply orb_comm.
      * apply truthy_false_iff in Ht.
        rewrite Ht in *. cbn [toLowerCase] in *.
        rewrite existsb_alias_matches_empty in Ekept. cbn [negb] in Ekept.
        destruct (includes_str seen EmptyString); cbn [negb] in H.
        -- use_step Hstep H; [rewrite Ekept; reflexivity|]. intros k Hk.
           rewrite Hplain by (right; exact Ekept). apply Hagree. exact Hk.
        -- use_step Hstep H; [rewrite Ekept; reflexivity|]. intros k Hk.
           rewrite Hplain by (right; exact Ekept).
           unfold includes_str. cbn [existsb]. destruct k; [discriminate|].
           cbn [String.eqb orb]. apply (Hagree _ Hk).
    + use_step Hstep H; [rewrite Ekept; reflexivity|]. intros k Hk.
      rewrite Hplain by (left; exact Ekept). apply Hagree. exact Hk.
Qed.

Lemma replaceLoop_completes : forall entries seen written nextId out,
  Forall (fun e => raw_comment e <> FalseLit) entries ->
  exists written' nextId' out',
    replaceLoop entries seen written nextId out = Completed written' nextId' out'.
Proof.
  induction entries as [|e rest IH]; intros seen written nextId out H; simpl.
  - eauto.
  - inversion H as [|? ? He Hrest]; subst.
    destruct (raw_comment e) as [| |s]; [|contradiction|]; cbn [importedComment];
      destruct (field_or_false (raw_alias e)) as [a|];
      try (destruct (negb (has_space_or_colon (trim a))
                     && negb (includes_str seen (toLowerCase (trim a)))));
      apply IH; exact Hrest.
Qed.

Lemma replaceLoop_throws : forall entries seen written nextId out,
  Exists (fun e => raw_comment e = FalseLit) entries ->
  exists out', replaceLoop entries seen written nextId out = Threw out'.
Proof.
  induction entries as [|e rest IH]; intros seen written nextId out H.
  - inversion H.
  - cbn [replaceLoop].
    destruct (importedComment (raw_comment e)) as [text|] eqn:Ecomment; [|eauto].
    assert (Hrest : Exists (fun e => raw_comment e = FalseLit) rest).
    { inversion H as [? ? He|? ? Hr]; subst; [|exact Hr].
      rewrite He in Ecomment. discriminate. }
    destruct (field_or_false (raw_alias e)) as [a|];
      try (destruct (negb (has_space_or_colon (trim a))
                     && negb (includes_str seen (toLowerCase (trim a)))));
      apply IH; exact Hrest.
Qed.

Section ImportOverwrite.

Context {codec : JsonCodec} {laws : JsonCodecLaws codec}.

(** X12. An import in overwrite mode of a file that is a JSON array, into
    a store whose counter can be read.  If no entry is an object with a
    string as command, nothing changes and the import reports that it
    found no valid command.  If there is such an entry: when the user
    declines the confirmation nothing changes; when some such entry has
    the literal [false] as comment the loop throws a [TypeError] and
    nothing changes; otherwise the store afterwards holds exactly the
    records an append import of the same entries into an empty store
    computes, with ids issued from the greater of the counter and the
    greatest stored id plus one: one record per such entry, in the order
    of the file, the old records gone and their aliases not compared;
    every id is greater than every id stored before, and the counter
    stands right after the last id issued. *)
Theorem handleImportCommand_overwrite :
  forall fw d fileContent elems stored,
  JSON_parse fileContent = Some (JArray elems) ->
  counter d = Some stored ->
  let entries := filterValid elems in
  let nextId :=
    if Z.leb stored (maxCurrentId (records d))
    then maxCurrentId (records d) + 1 else stored in
  (entries = [] ->
   forall confirm,
     handleImportCommand fw (Some fileContent) false confirm d
     = Some (d, [NoValidCommands]))
  /\ (entries <> [] ->
      (exists out,
         handleImportCommand fw (Some fileContent) false false d = Some (d, out)
         /\ In OverwriteCanceled out)
      /\ (Exists (fun e => raw_comment e = FalseLit) entries ->
          exists out,
            handleImportCommand fw (Some fileContent) false true d = Some (d, out)
            /\ In UncaughtTypeError out)
      /\ (Forall (fun e => raw_comment e <> FalseLit) entries ->
          exists d' out,
            handleImportCommand noFaults (Some fileContent) false true d
            = Some (d', out)
            /\ records d' = map restore (importedRecords [] nextId entries)
            /\ length (records d') = length entries
            /\ (forall k r, nth_error (records d') k = Some r ->
                  id r = nextId + Z.of_nat k)
            /\ (forall r old, In r (records d') -> In old (records d) ->
                  id old < id r)
            /\ counter d' = Some (nextId + Z.of_nat (length entries)))).
Proof.
  intros fw d fileContent elems stored Hparse Hcounter entries nextId.
  split.
  { intros Hnone confirm. unfold handleImportCommand. rewrite Hparse.
    fold entries. rewrite Hnone. reflexivity. }
  intros Hvalid.
  assert (Hlen : (length (filterValid elems) =? 0)%nat = false).
  { fold entries. destruct entries; [contradiction|reflexivity]. }
  destruct (import_nextId_past_maximum (records d) stored) as (Hpos & _ & Hpast).
  fold nextId in Hpos, Hpast.
  unfold handleImportCommand. rewrite Hparse, Hlen.
  unfold records in nextId, Hpast |- *. unfold counter in Hcounter |- *.
  destruct (readCommands d) as [commands m1].
  destruct (readConfig d) as [storedOpt m2]. cbn [fst] in *. subst storedOpt.
  fold entries. fold nextId. cbn [negb].
  split; [|split].
  - eexists. split; [reflexivity|]. apply in_or_app. right. left. reflexivity.
  - intros Hfalse.
    destruct (replaceLoop_throws entries [] [] nextId
                (([FoundPotential (length entries)] ++ m1 ++ m2) ++ [Replacing])
                Hfalse) as [out' ->].
    eexists. split; [reflexivity|]. apply in_or_app. right. left. reflexivity.
  - intros Hall.
    destruct (replaceLoop_completes entries [] [] nextId
                (([FoundPotential (length entries)] ++ m1 ++ m2) ++ [Replacing])
                Hall) as (written & nextId' & out' & Eloop).
    rewrite Eloop.
    destruct (replaceLoop_spec _ _ _ _ _ _ _ _ Eloop) as (-> & _).
    destruct (replaceLoop_imported _ _ _ _ _ _ _ _ [] Eloop)
      as (news & Hnews & Hids & Hres); [intros k _; reflexivity|].
    simpl in Hnews. subst written. rename news into written.
    assert (Hsorted : sortedById written).
    { apply (sortedById_ids (importedRecords [] nextId entries));
        [symmetry; exact Hids|apply importedRecords_sorted]. }
    assert (Hnz : Forall (fun c => id c <> 0) written).
    { apply Forall_forall. intros c Hc.
      assert (Hin : In (id c) (map id (importedRecords [] nextId entries)))
        by (rewrite <- Hids; apply in_map; exact Hc).
      apply in_map_iff in Hin. destruct Hin as (r & Hr & Hin).
      apply importedRecords_id_range in Hin. lia. }
    pose proof (readCommands_writeCommands written
                  (fst (writeConfig noFaults
                          (nextId + Z.of_nat (length entries)) d)) Hnz) as Hread.
    pose proof (counter_writeCommands noFaults written
                  (fst (writeConfig noFaults
                          (nextId + Z.of_nat (length entries)) d))) as Hc.
    rewrite counter_writeConfig in Hc. unfold counter in Hc.
    destruct (writeConfig noFaults _ d) as [d1 m3]. cbn [fst] in *.
    destruct (writeCommands noFaults written d1) as [d2 m4]. cbn [fst] in *.
    rewrite (sortById_of_sorted _ Hsorted) in Hread.
    eexists. eexists. split; [reflexivity|].
    rewrite Hread. cbn [fst]. rewrite Hres.
    assert (Hid : forall k r,
              nth_error (map restore (importedRecords [] nextId entries)) k = Some r ->
              id r = nextId + Z.of_nat k).
    { intros k r Hk. rewrite nth_error_map in Hk.
      destruct (nth_error (importedRecords [] nextId entries) k) as [s|] eqn:Es;
        [|discriminate].
      injection Hk as <-. pose proof (importedRecords_ids _ _ _ _ _ Es) as Hs.
      rewrite restore_id by lia. exact Hs. }
    split; [reflexivity|]. split; [|split; [exact Hid|split; [|exact Hc]]].
    + rewrite length_map. apply importedRecords_length.
    + intros r old Hr Hold. apply In_nth_error in Hr. destruct Hr as [k Hk].
      rewrite (Hid k r Hk). specialize (Hpast old Hold). lia.
Qed.

End ImportOverwrite.

Lemma handleImportCommand_overwrite_witness :
  exists d' out,
    handleImportCommand (codec := Unary.codec) noFaults
      (Some (Unary.stringify
               (JArray [ Some (mkRaw None (Text "build") (Text "make all") Missing);
                         Some (mkRaw None (Text "Build") (Text "make") Missing) ])))
      false true Demo.aliased
    = Some (d', out)
    /\ map alias (records (codec := Unary.codec) d') = [Some "build"; None]
    /\ map id (records (codec := Unary.codec) d') = [2; 3]
    /\ counter (codec := Unary.codec) d' = Some 4.
Proof.
  destruct (handleImportCommand_overwrite (codec := Unary.codec)
              (laws := UnaryFacts.laws) noFaults Demo.aliased
              (Unary.stringify
                 (JArray [ Some (mkRaw None (Text "build") (Text "make all") Missing);
                           Some (mkRaw None (Text "Build") (Text "make") Missing) ]))
              [ Some (mkRaw None (Text "build") (Text "make all") Missing);
                Some (mkRaw None (Text "Build") (Text "make") Missing) ]
              2)
    as (_ & Hvalid).
  - reflexivity.
  - reflexivity.
  - destruct Hvalid as (_ & _ & Hruns); [discriminate|].
    destruct Hruns as (d' & out & Hrun & Hrecords & _ & _ & _ & Hcounter).
    + repeat constructor; discriminate.
    + exists d', out. split; [exact Hrun|].
      split; [rewrite Hrecords; reflexivity|].
      split; [rewrite Hrecords; reflexivity|exact Hcounter].
Defined.

(* ================================================================= *)
(** ** Further properties: export *)

Lemma filterValid_toRaw : forall commands,
  filterValid (map (fun c => Some (toRaw c)) commands) = map toRaw commands.
Proof.
  induction commands as [|c rest IH]; simpl; [reflexivity|].
  rewrite IH. reflexivity.
Qed.

Lemma batchCompletes_false_comment : forall entries present nextId,
  Exists (fun e => raw_comment e = FalseLit) entries ->
  batchCompletes present nextId entries = false.
Proof.
  induction entries as [|e rest IH]; intros present nextId H.
  - inversion H.
  - cbn [batchCompletes]. inversion H as [? ? He|? ? Hrest]; subst.
    + unfold entryCompletes. rewrite He. reflexivity.
    + rewrite IH by exact Hrest. apply andb_false_r.
Qed.

Section ExportImport.

Context {codec : JsonCodec} {laws : JsonCodecLaws codec}.

(** X13. The export of a store writes the records as they are read, a
    missing comment as the literal [false].  When some record of the store
    has no comment, the file exported cannot be imported again: into any
    store with a counter, an import in append mode, and an import in
    overwrite mode that the user confirms, throw a [TypeError] at that
    entry and leave the store as it was.  (An import in overwrite mode
    that the user declines is canceled before the entries are looked
    at, and leaves the store as it was too.) *)
Theorem handleExportCommand_not_importable :
  forall fw d target stored,
  Exists (fun c => comment c = None) (records d) ->
  counter target = Some stored ->
  exists file,
    handleExportCommand true NoFault d
    = (Some file, snd (readCommands d), Exported (length (records d)))
    /\ JSON_parse file = Some (JArray (map (fun c => Some (toRaw c)) (records d)))
    /\ (forall appendMode confirm,
          appendMode = true \/ confirm = true ->
          exists out,
            handleImportCommand fw (Some file) appendMode confirm target
            = Some (target, out)
            /\ In UncaughtTypeError out)
    /\ (exists out,
          handleImportCommand fw (Some file) false false target
          = Some (target, out)
          /\ In OverwriteCanceled out /\ ~ In UncaughtTypeError out).
Proof.
  intros fw d target stored Hsome Hcounter.
  exists (JSON_stringify (JArray (map (fun c => Some (toRaw c)) (records d)))).
  assert (Hparse : JSON_parse
                     (JSON_stringify
                        (JArray (map (fun c => Some (toRaw c)) (records d))))
                   = Some (JArray (map (fun c => Some (toRaw c)) (records d))))
    by (apply parse_stringify; discriminate).
  assert (Hentries : Exists (fun e => raw_comment e = FalseLit)
                       (filterValid (map (fun c => Some (toRaw c)) (records d)))).
  { rewrite filterValid_toRaw. apply Exists_map.
    eapply Exists_impl; [|exact Hsome]. intros c Hc. simpl. rewrite Hc. reflexivity. }
  assert (Hlen : (length (filterValid
                            (map (fun c => Some (toRaw c)) (records d))) =? 0)%nat
                 = false).
  { destruct (filterValid _); [inversion Hentries|reflexivity]. }
  split; [|split; [exact Hparse|split]].
  - unfold handleExportCommand. unfold records in *.
    destruct (readCommands d) as [commands m0]. cbn [fst snd] in *.
    destruct commands as [|c rest]; [inversion Hsome|]. reflexivity.
  - intros appendMode confirm Hmode. destruct appendMode.
    + apply (handleImportCommand_append_throws fw target _ _ stored confirm Hparse);
        [|exact Hcounter|].
      * intros Hnil. rewrite Hnil in Hentries. inversion Hentries.
      * rewrite batchCompletes_false_comment by exact Hentries.
        apply andb_false_r.
    + destruct Hmode as [Hmode| ->]; [discriminate|].
      unfold handleImportCommand. rewrite Hparse, Hlen.
      unfold counter in Hcounter.
      destruct (readCommands target) as [commands m1].
      destruct (readConfig target) as [storedOpt m2]. cbn [fst] in *.
      subst storedOpt. cbn [negb].
      match goal with
      | |- context [replaceLoop ?es ?seen ?w ?n ?o] =>
          destruct (replaceLoop_throws es seen w n o Hentries) as [out' ->]
      end.
      eexists. split; [reflexivity|]. apply in_or_app. right. left. reflexivity.
  - unfold handleImportCommand. rewrite Hparse, Hlen.
    unfold counter in Hcounter.
    destruct (readCommands target) as [commands m1] eqn:Eread.
    destruct (readConfig target) as [storedOpt m2] eqn:Econfig. cbn [fst] in *.
    subst storedOpt. cbn [negb].
    eexists. split; [reflexivity|]. split.
    + apply in_or_app. right. left. reflexivity.
    + intros Hin. rewrite !in_app_iff in Hin.
      assert (Hm1 : ~ In UncaughtTypeError m1).
      { replace m1 with (snd (readCommands target)) by (rewrite Eread; reflexivity).
        unfold readCommands.
        destruct (commandsFile target) as [text|]; [|intros []].
        destruct (negb (truthy (trim text))); [intros []|].
        destruct (JSON_parse text) as [[elems| |]|];
          try (simpl; intuition discriminate).
        destruct (mapWithDefaults elems 0); simpl; intuition discriminate. }
      assert (Hm2 : ~ In UncaughtTypeError m2).
      { replace m2 with (snd (readConfig target)) by (rewrite Econfig; reflexivity).
        unfold readConfig.
        destruct (configFile target) as [data|]; [|intros []].
        destruct (JSON_parse data) as [[elems| |]|]; simpl; intuition discriminate. }
      destruct Hin as [[[H1|[]]|[H2|H3]]|[H4|[]]];
        [discriminate H1|exact (Hm1 H2)|exact (Hm2 H3)|discriminate H4].
Qed.

End ExportImport.

Lemma handleExportCommand_not_importable_witness :
  exists file out,
    handleExportCommand (codec := Unary.codec) true NoFault Demo.oneRecord
    = (Some file, [], Exported 1)
    /\ handleImportCommand (codec := Unary.codec) noFaults (Some file) true true
         Demo.aliased
       = Some (Demo.aliased, out)
    /\ In UncaughtTypeError out.
Proof.
  destruct (handleExportCommand_not_importable (codec := Unary.codec)
              (laws := UnaryFacts.laws) noFaults Demo.oneRecord Demo.aliased 2)
    as (file & Hexport & _ & Hthrows & _).
  - left. reflexivity.
  - reflexivity.
  - destruct (Hthrows true true (or_introl eq_refl)) as (out & Himport & Hthrew).
    exists file, out. split; [exact Hexport|]. split; [exact Himport|exact Hthrew].
Defined.

(* ================================================================= *)
(** ** Further properties: the order of the stored records *)

Section StoredOrder.

Context {codec : JsonCodec} {laws : JsonCodecLaws codec}.

(** What an operation whose writes complete leaves in the records file:
    the records it found, or the records it wrote, sorted. *)
Lemma perform_records : forall d op d',
  counterInvariant d -> perform op d = Some d' ->
  records d' = records d
  \/ exists written,
       Forall (fun c => id c <> 0) written
       /\ records d' = map restore (sortById written).
Proof.
  intros d op d' Hinv Hstep.
  pose proof (records_nonzero d) as Hnonzero.
  destruct Hinv as (n & Hcounter & Hn & Hids).
  assert (Hwrite : forall written d0,
            Forall (fun c => id c <> 0) written ->
            exists w,
              Forall (fun c => id c <> 0) w
              /\ records (fst (writeCommands noFaults written d0))
                 = map restore (sortById w)).
  { intros written d0 Hnz. exists written. split; [exact Hnz|].
    unfold records. rewrite readCommands_writeCommands by exact Hnz. reflexivity. }
  unfold perform, run in Hstep.
  destruct op as [response|specifier confirm|specifier response
                 |importFile appendMode confirm].
  - unfold handleAddCommand, getNextId in Hstep.
    pose proof (readCommands_writeConfig noFaults (n + 1) d) as Hsame.
    unfold counter in Hcounter. unfold records in Hids, Hnonzero |- *.
    destruct (readCommands d) as [commands m0] eqn:Eread. cbn [fst] in *.
    destruct (negb (truthy_opt (resp_command response))).
    { injection Hstep as <-. left. rewrite Eread. reflexivity. }
    destruct (readConfig d) as [storedOpt m1]. cbn [fst] in *. subst storedOpt.
    destruct (writeConfig noFaults (n + 1) d) as [d1 m2]. cbn [fst] in *.
    match type of Hstep with
    | context [if ?b then _ else _] => destruct b
    end.
    { injection Hstep as <-. left. rewrite Hsame. reflexivity. }
    match type of Hstep with
    | context [writeCommands noFaults ?w d1] =>
        pose proof (Hwrite w d1) as Hw;
        destruct (writeCommands noFaults w d1) as [d2 m3]
    end.
    cbn [fst] in *. injection Hstep as <-. unfold records in Hw. right. apply Hw.
    apply Forall_app. split; [apply Forall_forall; exact Hnonzero|].
    constructor; [simpl; lia|constructor].
  - injection Hstep as <-. unfold handleDeleteCommand.
    destruct (negb (truthy specifier)); [left; reflexivity|].
    unfold records in Hnonzero, Hwrite |- *.
    destruct (readCommands d) as [commands m0] eqn:Eread. cbn [fst] in *.
    destruct (findCommandByIdOrAlias specifier commands) as [[cmd index]|];
      [|left; cbn [fst]; rewrite Eread; reflexivity].
    destruct confirm; [|left; cbn [fst]; rewrite Eread; reflexivity].
    pose proof (Hwrite (remove_nth index commands) d) as Hw.
    destruct (writeCommands noFaults _ d) as [d1 m1]. cbn [fst] in *.
    right. apply Hw. apply Forall_forall. intros c Hc. apply In_remove_nth in Hc.
    apply Hnonzero. exact Hc.
  - injection Hstep as <-. unfold handleEditCommand.
    destruct (negb (truthy specifier)); [left; reflexivity|].
    unfold records in Hnonzero, Hwrite |- *.
    destruct (readCommands d) as [commands m0] eqn:Eread. cbn [fst] in *.
    destruct (findCommandByIdOrAlias specifier commands) as [[cmd index]|] eqn:Ef;
      [|left; cbn [fst]; rewrite Eread; reflexivity].
    apply findCommandByIdOrAlias_In in Ef.
    destruct (newCommand response) as [entered|];
      [|left; cbn [fst]; rewrite Eread; reflexivity].
    destruct (newAlias response) as [aliasInput|];
      [|left; cbn [fst]; rewrite Eread; reflexivity].
    destruct (newComment response) as [commentInput|];
      [|left; cbn [fst]; rewrite Eread; reflexivity].
    destruct (editField (alias cmd) aliasInput) as [finalAlias changed2].
    destruct (editField (comment cmd) commentInput) as [finalComment changed3].
    match goal with
    | |- context [if ?b then _ else _] =>
        destruct b; [|left; cbn [fst]; rewrite Eread; reflexivity]
    end.
    match goal with
    | |- context [if ?b then _ else _] =>
        destruct b; [left; cbn [fst]; rewrite Eread; reflexivity|]
    end.
    match goal with
    | |- context [writeCommands noFaults ?w d] => pose proof (Hwrite w d) as Hw
    end.
    destruct (writeCommands noFaults _ d) as [d1 m1]. cbn [fst] in *.
    right. apply Hw. apply Forall_forall. intros c Hc. apply In_set_nth in Hc.
    destruct Hc as [->|Hc]; [simpl|]; apply Hnonzero; assumption.
  - unfold handleImportCommand in Hstep.
    assert (Hsame : forall o : list Msg,
                      option_map fst (Some (d, o)) = Some d' ->
                      records d' = records d
                      \/ exists w, Forall (fun c => id c <> 0) w
                                   /\ records d' = map restore (sortById w)).
    { intros o H. injection H as <-. left. reflexivity. }
    destruct importFile as [fileContent|]; [|exact (Hsame _ Hstep)].
    destruct (JSON_parse fileContent) as [[elems| |]|]; try exact (Hsame _ Hstep).
    destruct (length (filterValid elems) =? 0)%nat; [exact (Hsame _ Hstep)|].
    unfold records in Hnonzero.
    destruct (readCommands d) as [commands m1] eqn:Eread. cbn [fst] in *.
    destruct (readConfig d) as [[stored|] m2]; [|discriminate].
    destruct (import_nextId_past_maximum commands stored) as (Hpos & _ & _).
    set (nextId := if stored <=? maxCurrentId commands
                   then maxCurrentId commands + 1 else stored) in *.
    destruct appendMode.
    + destruct (aliasesLower commands) as [l|]; [|exact (Hsame _ Hstep)].
      destruct (appendLoop (filterValid elems) commands nextId _)
        as [written nextId' out'|out'] eqn:Eloop; [|exact (Hsame _ Hstep)].
      apply appendLoop_spec in Eloop. destruct Eloop as (-> & -> & ->).
      destruct (writeConfig noFaults _ d) as [d1 m3].
      match type of Hstep with
      | context [writeCommands noFaults ?w d1] =>
          pose proof (Hwrite w d1) as Hw;
          destruct (writeCommands noFaults w d1) as [d2 m4]
      end.
      cbn [fst option_map] in *. injection Hstep as <-. right. apply Hw.
      apply Forall_app. split; [apply Forall_forall; exact Hnonzero|].
      apply Forall_forall. intros c Hc.
      apply importedRecords_id_range in Hc. lia.
    + destruct confirm; [|exact (Hsame _ Hstep)]. cbn [negb] in Hstep.
      destruct (replaceLoop (filterValid elems) [] [] nextId _)
        as [written nextId' out'|out'] eqn:Eloop; [|exact (Hsame _ Hstep)].
      apply replaceLoop_spec in Eloop.
      destruct Eloop as (-> & news & -> & _ & Hrange).
      destruct (writeConfig noFaults _ d) as [d1 m3].
      match type of Hstep with
      | context [writeCommands noFaults ?w d1] =>
          pose proof (Hwrite w d1) as Hw;
          destruct (writeCommands noFaults w d1) as [d2 m4]
      end.
      cbn [fst option_map] in *. injection Hstep as <-. right. apply Hw.
      apply Forall_forall. intros c Hc. cbn [app] in Hc.
      specialize (Hrange c Hc). lia.
Qed.

End StoredOrder.

Section Listing.

Context {codec : JsonCodec} {laws : JsonCodecLaws codec}.

Lemma reachable_sorted : forall d,
  reachable d -> counterInvariant d /\ sortedById (records d).
Proof.
  intros d H. induction H as [|d op d' Hreach [IHc IHs] Hstep].
  - split.
    + exists 1. split; [reflexivity|]. split; [lia|]. intros c [].
    + constructor.
  - split.
    + destruct (perform_preserves d op IHc) as (d'' & Hd'' & Hinv & _).
      congruence.
    + destruct (perform_records d op d' IHc Hstep)
        as [->|(written & Hnz & ->)]; [exact IHs|].
      apply sortedById_map_restore; [|apply sortById_sorted].
      apply (Permutation_Forall (x := written)); [|exact Hnz].
      symmetry. apply sortById_perm.
Qed.

(** X14. [handleListCommands] reports that nothing is saved exactly when
    the store has no record; otherwise the table has one row per record,
    in ascending order of id.  In every store the program reaches from the
    empty configuration directory by operations whose writes complete the
    records are already stored in that order, so that the rows are the
    records as stored. *)
Theorem handleListCommands_rows : forall d,
  match snd (handleListCommands d) with
  | NoCommandsYet => records d = []
  | TableRows rows =>
      rows <> []
      /\ Permutation rows (records d)
      /\ sortedById rows
      /\ (reachable d -> rows = records d)
  end.
Proof.
  intros d.
  assert (Hreach : reachable d -> sortById (records d) = records d).
  { intros H. apply sortById_of_sorted. apply reachable_sorted. exact H. }
  unfold handleListCommands. unfold records in *.
  destruct (readCommands d) as [commands m0]. cbn [fst] in *.
  destruct commands as [|c rest]; [reflexivity|].
  cbn [length Nat.eqb snd]. split; [|split; [|split; [|exact Hreach]]].
  - intros Hnil.
    pose proof (Permutation_length (sortById_perm (c :: rest))) as Hlen.
    rewrite Hnil in Hlen. discriminate.
  - apply sortById_perm.
  - apply sortById_sorted.
Qed.

End Listing.

Lemma handleListCommands_rows_witness :
  snd (handleListCommands (codec := Unary.codec) Demo.aliased)
  = TableRows (records (codec := Unary.codec) Demo.aliased).
Proof.
  pose proof (handleListCommands_rows (codec := Unary.codec)
                (laws := UnaryFacts.laws) Demo.aliased) as H.
  destruct (snd (handleListCommands (codec := Unary.codec) Demo.aliased))
    as [|rows] eqn:E; [discriminate|].
  destruct H as (_ & _ & _ & Hrows). f_equal. apply Hrows.
  apply (reachable_step (mkDisk None None)
           (Add (mkAddResponse (Some "make") (Some "build") (Some "")))).
  - apply reachable_empty.
  - reflexivity.
Defined.

(* ================================================================= *)
(** ** Further properties: the home directory *)

Section TildeFacts.

#[local] Open Scope string_scope.

Lemma GetSubstitution_no_dollar : forall matched before after s,
  includes s "$" = false -> GetSubstitution matched before after s = s.
Proof.
  induction s as [|c s IH]; intros H; [reflexivity|].
  unfold includes in H. cbn [split_first strip_prefix] in H.
  destruct (Ascii.eqb "$" c) eqn:Ec; [discriminate|].
  rewrite GetSubstitution_unfold by exact Ec. f_equal. apply IH.
  unfold includes. destruct (split_first "$" s) as [[pre post]|];
    [discriminate|reflexivity].
Qed.

(** X15. The home directory replaces a tilde only where the tilde starts
    the command and is followed by the end of the command, a slash or a
    backslash; any other command is left as it is, a tilde further on
    included.  The home directory is inserted as it is when it holds no
    dollar sign. *)
Theorem expandTilde_leading_only : forall homedir,
  includes homedir "$" = false ->
  (forall rest,
     rest = "" \/ (exists r, rest = String "/" r \/ rest = String "\" r) ->
     expandTilde homedir (String "~" rest) = homedir ++ rest)
  /\ (forall commandString,
        (forall rest, commandString = String "~" rest ->
           exists c r, rest = String c r /\ c <> "/"%char /\ c <> "\"%char) ->
        expandTilde homedir commandString = commandString).
Proof.
  intros homedir Hhome. split.
  - intros rest [->|(r & [->| ->])]; cbn [expandTilde];
      rewrite GetSubstitution_no_dollar by exact Hhome; reflexivity.
  - intros [|c rest] H; [reflexivity|].
    destruct (Ascii.eqb_spec c "~") as [->|Hc].
    + destruct (H rest eq_refl) as (c' & r & -> & Hslash & Hback).
      destruct c' as [[] [] [] [] [] [] [] []]; try reflexivity; contradiction.
    + destruct c as [[] [] [] [] [] [] [] []]; try reflexivity; contradiction.
Qed.

End TildeFacts.

Lemma expandTilde_leading_only_witness :
  expandTilde "/home/u" "~/bin/run ~/x" = "/home/u/bin/run ~/x"%string
  /\ expandTilde "/home/u" "ls ~/x" = "ls ~/x"%string.
Proof.
  destruct (expandTilde_leading_only "/home/u" eq_refl) as [Hfirst Hother].
  split.
  - apply (Hfirst "/bin/run ~/x"%string). right. eexists. left. reflexivity.
  - apply Hother. intros rest H. discriminate H.
Defined.

(** A dollar sign in the home directory is read as a replacement pattern. *)
Example expandTilde_dollar :
  expandTilde "/home/$&u" "~/x" = "/home/~u/x"%string.
Proof. reflexivity. Qed.

(* ================================================================= *)
(** ** Instances on stores that run *)

Lemma readCommands_defaults_witness :
  length
    (records (codec := Unary.codec)
       (mkDisk (Some (Unary.stringify
                        (JArray [ Some (mkRaw None Missing (Text "ls") FalseLit);
                                  Some (mkRaw (Some 7) (Text "p") (Text "pwd") Missing) ])))
               None))
  = 2%nat.
Proof.
  destruct (readCommands_defaults (codec := Unary.codec)
              (mkDisk (Some (Unary.stringify
                               (JArray [ Some (mkRaw None Missing (Text "ls") FalseLit);
                                         Some (mkRaw (Some 7) (Text "p") (Text "pwd") Missing) ])))
                      None)
              (Unary.stringify
                 (JArray [ Some (mkRaw None Missing (Text "ls") FalseLit);
                           Some (mkRaw (Some 7) (Text "p") (Text "pwd") Missing) ]))
              [ Some (mkRaw None Missing (Text "ls") FalseLit);
                Some (mkRaw (Some 7) (Text "p") (Text "pwd") Missing) ])
    as [Hlen _].
  - reflexivity.
  - reflexivity.
  - reflexivity.
  - intros [H|[H|[]]]; discriminate H.
  - exact Hlen.
Defined.

Lemma handleRunCommand_executes_confirmed_witness :
  In (AskRun 1 "ls")
     (handleRunCommand (codec := Unary.codec) "/home/u" "1" [] true ExecOk
        Demo.oneRecord).
Proof.
  destruct (proj1 (handleRunCommand_executes_confirmed (codec := Unary.codec)
                     "/home/u" "1" [] true ExecOk Demo.oneRecord) "ls")
    as (_ & cmdToRun & index & commandString & warnings & Hfound & _ & _ & Hask).
  - right. right. left. reflexivity.
  - vm_compute in Hfound. injection Hfound as <- _. exact Hask.
Defined.
